(** * Mount handling of the rkt "fly" stage1 and of the stage0 mount filter

    A shallow embedding of
    - [evaluateMounts] and [stage1] of the fly flavor's run program,
    - [main] of the fly flavor's gc program (stage1_fly/gc/main.go),
    - the prefix filter exercised by [TestMountOrdering],
    together with the properties of the mount subsystem that are stated about
    them. *)

From Stdlib Require Import ZArith Ascii String.
From stdpp Require Import gmap strings list sorting.

Open Scope Z_scope.

(** ** Mount flags of Go's [syscall] package (linux) *)

Module syscall.
Definition MS_RDONLY : Z := 1.
Definition MS_REMOUNT : Z := 32.
Definition MS_BIND : Z := 4096.
Definition MS_REC : Z := 16384.
Definition MS_PRIVATE : Z := 262144.
Definition MS_SHARED : Z := 1048576.
End syscall.

(** ** Control flow

    A Go function of this repository ends in one of four ways: it returns
    normally, it returns a non-nil [error], it calls [log.Fatalf] (which
    writes the message and calls [os.Exit(1)], so the caller never gets
    control back), or it panics at run time (nil dereference, index out of
    range). *)

Abbreviation ACName := string (only parsing).

Inductive error :=
| ErrConflictingPath (name : ACName)
    (* "fly: conflicting path information from mount and mountpoint %q" *)
| ErrMissingMount (name : ACName)
    (* "fly: missing mount for volume %q" *)
| ErrMismatchedPair (vol mnt : ACName).
    (* "fly: mismatched volume:mount pair: %q != %q" *)

Inductive fatal :=
| FatalDuplicatedMount (name : ACName)
    (* log.Fatalf("fly: duplicated mount given: %q", m.Volume) *)
| FatalMissingVolume (name : ACName).
    (* log.Fatalf("fly: missing volume for mountpoint %q", mp.Name) *)

Inductive result (A : Type) :=
| Ok (a : A)
| Error (e : error)
| Fatal (f : fatal)
| Panic.
Arguments Ok {A} a.
Arguments Error {A} e.
Arguments Fatal {A} f.
Arguments Panic {A}.

Definition bind {A B} (r : result A) (k : A → result B) : result B :=
  match r with
  | Ok a => k a
  | Error e => Error e
  | Fatal f => Fatal f
  | Panic => Panic
  end.

Notation "'let*' x := r 'in' k" := (bind r (λ x, k))
  (at level 10, x name, r at level 100, k at level 200, only parsing).

(** [for _, x := range l { s = body(s, x) }] where the body may leave the
    function. *)
Fixpoint forEach {A S} (body : S → A → result S) (l : list A) (s : S) : result S :=
  match l with
  | [] => Ok s
  | x :: l' => let* s' := body s x in forEach body l' s'
  end.

(** ** Data of the appc schema used by the fly stage1 *)

(** A [*bool].  The only [*bool] values this program handles are the
    [ReadOnly] fields of volumes: the ones decoded with the pod manifest,
    each pointing to a bool of its own that the program never writes, and
    the ones [evaluateMounts] creates with [&mp.ReadOnly], which all hold the
    address of the one range variable [mp] of its last mount point loop. *)
Inductive boolPtr :=
| PtrOwn (b : bool)
| PtrRangeVar.

(** [types.Volume] *)
Record Volume := {
  vName : ACName;
  vKind : string;
  vSource : string;
  vReadOnly : option boolPtr;   (* ReadOnly *bool, [None] is nil *)
}.

(** [schema.Mount] *)
Record Mount := {
  mVolume : ACName;
  mPath : string;
}.

(** [types.MountPoint] *)
Record MountPoint := {
  mpName : ACName;
  mpPath : string;
  mpReadOnly : bool;
}.

(** [types.App], the fields read here *)
Record App := {
  Exec : list string;
  MountPoints : list MountPoint;
}.

(** [schema.RuntimeApp] *)
Record RuntimeApp := {
  raName : ACName;
  raApp : option App;           (* App *types.App *)
  raMounts : list Mount;
}.

(** [schema.ImageManifest] *)
Record ImageManifest := {
  imApp : option App;           (* App *types.App *)
}.

(** [schema.PodManifest] *)
Record PodManifest := {
  Apps : list RuntimeApp;
  Volumes : list Volume;
}.

(** [stage1commontypes.Pod] *)
Record Pod := {
  Root : string;
  Manifest : PodManifest;
  Images : gmap string ImageManifest;   (* map[string]*schema.ImageManifest *)
}.

Record flyMount := {
  HostPath : string;
  TargetPrefixPath : string;
  RelTargetPath : string;
  Fs : string;
  Flags : Z;
}.

Record volumeMountTuple := {
  V : Volume;
  M : Mount;
}.

(** The last element of a list, or [d] for the empty list. *)
Definition last_def {A} (d : A) (l : list A) : A := default d (last l).

(** Zero values of the Go structs. *)
Definition zeroVolume : Volume :=
  {| vName := ""; vKind := ""; vSource := ""; vReadOnly := None |}.
Definition zeroMountPoint : MountPoint :=
  {| mpName := ""; mpPath := ""; mpReadOnly := false |}.

#[global] Instance boolPtr_eq_dec : EqDecision boolPtr.
Proof. solve_decision. Defined.
#[global] Instance Volume_eq_dec : EqDecision Volume.
Proof. solve_decision. Defined.
#[global] Instance Mount_eq_dec : EqDecision Mount.
Proof. solve_decision. Defined.
#[global] Instance MountPoint_eq_dec : EqDecision MountPoint.
Proof. solve_decision. Defined.
#[global] Instance flyMount_eq_dec : EqDecision flyMount.
Proof. solve_decision. Defined.
#[global] Instance volumeMountTuple_eq_dec : EqDecision volumeMountTuple.
Proof. solve_decision. Defined.

(** ** [evaluateMounts] *)

Module fly.

(** The map [namedVolumeMounts]. *)
Abbreviation tuples := (gmap string volumeMountTuple).

(** A [range] over a Go map visits every entry once, in an order the run
    time chooses anew for each loop.  The choice is an argument of the model:
    a function from the map to the sequence of its entries. *)
Definition rangeOrder := tuples → list (string * volumeMountTuple).

Definition validRange (order : rangeOrder) : Prop :=
  ∀ m, order m ≡ₚ map_to_list m.

(** First loop: the mounts of the pod manifest's first app. *)
Definition addMount (nvm : tuples) (m : Mount) : result tuples :=
  match nvm !! mVolume m with
  | Some _ => Fatal (FatalDuplicatedMount (mVolume m))
  | None => Ok (<[mVolume m := {| V := zeroVolume; M := m |}]> nvm)
  end.

(** Second loop: merge the image manifest's mount points. *)
Definition mergeMountPoint (nvm : tuples) (mp : MountPoint) : result tuples :=
  match nvm !! mpName mp with
  | Some tuple =>
      if decide (mPath (M tuple) ≠ mpPath mp)
      then Error (ErrConflictingPath (mpName mp))
      else Ok nvm
  | None =>
      Ok (<[mpName mp :=
              {| V := zeroVolume;
                 M := {| mVolume := mpName mp; mPath := mpPath mp |} |}]> nvm)
  end.

(** Third loop: the volumes of the pod manifest. *)
Definition insertVolume (nvm : tuples) (v : Volume) : result tuples :=
  match nvm !! vName v with
  | None => Error (ErrMissingMount (vName v))
  | Some tuple =>
      if decide (mVolume (M tuple) ≠ vName v)
      then Error (ErrMismatchedPair (vName v) (mVolume (M tuple)))
      else Ok (<[vName v := {| V := v; M := M tuple |}]> nvm)
  end.

(** Fourth loop: default the read-only bit from the mount points.  The state
    is the map and the range variable [mp].  The repository vendors its
    dependencies under Godeps and is built with a Go release older than 1.22:
    the variable of a range clause is declared once for the loop and assigned
    anew at the start of every iteration, so [&mp.ReadOnly] is the same
    address in every iteration. *)
Definition fillReadOnly (s : tuples * MountPoint) (mp : MountPoint)
  : result (tuples * MountPoint) :=
  let nvm := s.1 in
  match nvm !! mpName mp with
  | None => Fatal (FatalMissingVolume (mpName mp))
  | Some tuple =>
      if decide (vName (V tuple) = "")
      then Fatal (FatalMissingVolume (mpName mp))
      else
        match vReadOnly (V tuple) with
        | None =>
            let v := {| vName := vName (V tuple); vKind := vKind (V tuple);
                        vSource := vSource (V tuple);
                        vReadOnly := Some PtrRangeVar |} in
            Ok (<[mpName mp := {| M := M tuple; V := v |}]> nvm, mp)
        | Some _ => Ok (nvm, mp)
        end
  end.

(** [*ptr], when the range variable of the fourth loop holds [mp]. *)
Definition deref (mp : MountPoint) (ptr : boolPtr) : bool :=
  match ptr with
  | PtrOwn b => b
  | PtrRangeVar => mpReadOnly mp
  end.

(** [tuple.V.ReadOnly != nil && *tuple.V.ReadOnly] *)
Definition isReadOnly (mp : MountPoint) (tuple : volumeMountTuple) : bool :=
  match vReadOnly (V tuple) with
  | None => false
  | Some ptr => deref mp ptr
  end.

Definition flags : Z := Z.lor syscall.MS_BIND syscall.MS_REC.

(** Body of the last loop: the appends for one tuple. *)
Definition appendMounts (rfs : string) (mp : MountPoint)
    (argFlyMounts : list flyMount) (tuple : volumeMountTuple) : list flyMount :=
  let argFlyMounts := argFlyMounts ++
    [ {| HostPath := ""; TargetPrefixPath := "";
         RelTargetPath := vSource (V tuple); Fs := "none";
         Flags := Z.lor syscall.MS_REC syscall.MS_SHARED |} ] in
  let argFlyMounts := argFlyMounts ++
    [ {| HostPath := vSource (V tuple); TargetPrefixPath := rfs;
         RelTargetPath := mPath (M tuple); Fs := "none"; Flags := flags |} ] in
  if isReadOnly mp tuple
  then argFlyMounts ++
    [ {| HostPath := ""; TargetPrefixPath := rfs;
         RelTargetPath := mPath (M tuple); Fs := "none";
         Flags := Z.lor (Z.lor flags syscall.MS_REMOUNT) syscall.MS_RDONLY |} ]
  else argFlyMounts.

(** A nil pointer dereference panics. *)
Definition nonNil {A} (o : option A) : result A :=
  match o with Some a => Ok a | None => Panic end.

(** The four loops that build [namedVolumeMounts]; the result is the map and
    the final content of the range variable of the fourth loop. *)
Definition reconcile (app : string) (p : Pod) : result (tuples * MountPoint) :=
  let* im := nonNil (Images p !! app) in                 (* p.Images[app].App *)
  let* app0 := nonNil (head (Apps (Manifest p))) in      (* p.Manifest.Apps[0] *)
  let* nvm := forEach addMount (raMounts app0) ∅ in
  let* imApp := nonNil (imApp im) in                     (* imApp.MountPoints *)
  let* nvm := forEach mergeMountPoint (MountPoints imApp) nvm in
  let* nvm := forEach insertVolume (Volumes (Manifest p)) nvm in
  forEach fillReadOnly (MountPoints imApp) (nvm, zeroMountPoint).

Definition evaluateMounts (order : rangeOrder) (rfs app : string) (p : Pod)
  : result (list flyMount) :=
  let* s := reconcile app p in
  Ok (fold_left (appendMounts rfs s.2) (order s.1).*2 []).

End fly.

(** ** [stage1] of the fly flavor *)

Module stage1.
Import fly.

(** What the calls of [stage1] into its environment answer.  A [bool] tells
    whether the call returned a nil error. *)
Record Env := {
  newUUID : bool;                       (* types.NewUUID(flag.Arg(0)) *)
  loadPod : option Pod;                 (* stage1commontypes.LoadPod(root, uuid) *)
  appRootfs : string → ACName → string;
    (* filepath.Join(common.AppPath(root, name), "rootfs") *)
  getRktLockFD : option Z;              (* common.GetRktLockFD() *)
  closeOnExec : Z → bool → bool;        (* sys.CloseOnExec(fd, set) *)
  mapRange : rangeOrder;                (* the order of the range over the map *)
  applyMount : flyMount → bool;
    (* one iteration of the loop over effectiveMounts: the stats, the
       creation of the target and syscall.Mount; [false] when it ends in one
       of its log.Fatalf *)
  writePpid : bool;                     (* writePpid(os.Getpid()) *)
  chroot : string → bool;               (* syscall.Chroot(rfs) *)
  chdir : bool;                         (* os.Chdir("/") *)
  exec : list string → bool;            (* syscall.Exec(args[0], args, env) *)
}.

(** What [stage1] writes to standard error before it returns a non-zero
    code. *)
Inductive stderrMsg :=
| MsgUUIDMalformed          (* "UUID is missing or malformed" *)
| MsgFailedLoadPod          (* "Failed to load pod: %v\n" *)
| MsgFailedLockFD           (* "Failed to get rkt lock fd: %v\n" *)
| MsgFailedCloExec          (* "Failed to set FD_CLOEXEC on rkt lock: %v\n" *)
| MsgPpid                   (* the error of writePpid *)
| MsgFailedExecute.         (* "Failed to execute %q: %v\n" *)

(** The calls with an effect outside the process, and the call of
    [evaluateMounts], in the order [stage1] makes them. *)
Inductive event :=
| EvStderr (msg : stderrMsg)
| EvCloseOnExec (fd : Z) (set : bool)
| EvEvaluateMounts (rfs app : string)
| EvMount (m : flyMount)
| EvWritePpid
| EvChroot (rfs : string)
| EvChdir
| EvExec (args : list string).

(** How the process ends: [stage1] returns its exit code to [main], which
    passes it to [os.Exit]; [log.Fatalf] exits with 1; a panic with 2. *)
Inductive exit :=
| Return (code : Z)
| LogFatal
| RuntimePanic.

Definition exitCode (e : exit) : Z :=
  match e with
  | Return code => code
  | LogFatal => 1
  | RuntimePanic => 2
  end.

Definition systemMounts (rfs : string) : list flyMount :=
  [ {| HostPath := ""; TargetPrefixPath := ""; RelTargetPath := "/dev";
       Fs := "none"; Flags := Z.lor syscall.MS_REC syscall.MS_SHARED |};
    {| HostPath := "/dev"; TargetPrefixPath := rfs; RelTargetPath := "/dev";
       Fs := "none"; Flags := Z.lor syscall.MS_BIND syscall.MS_REC |};
    {| HostPath := ""; TargetPrefixPath := ""; RelTargetPath := "/proc";
       Fs := "none"; Flags := Z.lor syscall.MS_REC syscall.MS_SHARED |};
    {| HostPath := "/proc"; TargetPrefixPath := rfs; RelTargetPath := "/proc";
       Fs := "none"; Flags := Z.lor syscall.MS_BIND syscall.MS_REC |};
    {| HostPath := ""; TargetPrefixPath := ""; RelTargetPath := "/sys";
       Fs := "none"; Flags := Z.lor syscall.MS_REC syscall.MS_SHARED |};
    {| HostPath := "/sys"; TargetPrefixPath := rfs; RelTargetPath := "/sys";
       Fs := "none"; Flags := Z.lor syscall.MS_BIND syscall.MS_REC |};
    {| HostPath := "tmpfs"; TargetPrefixPath := rfs; RelTargetPath := "/tmp";
       Fs := "tmpfs"; Flags := 0 |} ].

(** The loop over [effectiveMounts]: the mounts applied so far and whether
    the loop ran to its end. *)
Fixpoint mountAll (env : Env) (ms : list flyMount) : list event * bool :=
  match ms with
  | [] => ([], true)
  | m :: ms' =>
      if applyMount env m
      then let r := mountAll env ms' in (EvMount m :: r.1, r.2)
      else ([EvMount m], false)
  end.

(** [withClearedCloExec(lfd, func() error { return syscall.Exec(args[0], args, env) })]
    and the code after it. *)
Definition execApp (env : Env) (lfd : Z) (args : list string) : list event * exit :=
  if closeOnExec env lfd false then
    match args with
    | [] =>                               (* args[0] in the closure *)
        ([EvCloseOnExec lfd false; EvCloseOnExec lfd true], RuntimePanic)
    | _ :: _ =>
        if exec env args
        then ([EvCloseOnExec lfd false; EvExec args; EvCloseOnExec lfd true],
              Return 0)
        else ([EvCloseOnExec lfd false; EvExec args; EvCloseOnExec lfd true;
               EvStderr MsgFailedExecute], Return 7)
    end
  else
    match args with
    | [] => ([EvCloseOnExec lfd false], RuntimePanic)   (* args[0] in Fprintf *)
    | _ :: _ => ([EvCloseOnExec lfd false; EvStderr MsgFailedExecute], Return 7)
    end.

Definition stage1 (env : Env) : list event * exit :=
  if negb (newUUID env) then ([EvStderr MsgUUIDMalformed], Return 1) else
  match loadPod env with
  | None => ([EvStderr MsgFailedLoadPod], Return 1)
  | Some p =>
  if decide (length (Apps (Manifest p)) ≠ 1%nat) then ([], LogFatal) else
  match Apps (Manifest p) with
  | [] => ([], RuntimePanic)
  | app0 :: _ =>
  match raApp app0 with
  | None => ([], RuntimePanic)            (* p.Manifest.Apps[0].App.Exec *)
  | Some a =>
  let args := Exec a in
  let rfs := appRootfs env (Root p) (raName app0) in
  match getRktLockFD env with
  | None => ([EvStderr MsgFailedLockFD], Return 1)
  | Some lfd =>
  if negb (closeOnExec env lfd true)
  then ([EvCloseOnExec lfd true; EvStderr MsgFailedCloExec], Return 1) else
  let t0 := [EvCloseOnExec lfd true; EvEvaluateMounts rfs (raName app0)] in
  match evaluateMounts (mapRange env) rfs (raName app0) p with
  | Panic => (t0, RuntimePanic)
  | Fatal _ => (t0, LogFatal)
  | Error _ => (t0, LogFatal)             (* "Error evaluating mounts: %v" *)
  | Ok argFlyMounts =>
  let effectiveMounts := systemMounts rfs ++ argFlyMounts in
  let r := mountAll env effectiveMounts in
  let t1 := t0 ++ r.1 in
  if negb r.2 then (t1, LogFatal) else
  if negb (writePpid env) then (t1 ++ [EvWritePpid; EvStderr MsgPpid], Return 4) else
  if negb (chroot env rfs) then (t1 ++ [EvWritePpid; EvChroot rfs], LogFatal) else
  if negb (chdir env) then (t1 ++ [EvWritePpid; EvChroot rfs; EvChdir], LogFatal) else
  let r := execApp env lfd args in
  (t1 ++ [EvWritePpid; EvChroot rfs; EvChdir] ++ r.1, r.2)
  end end end end end.

(** The fatal classes of the setup process, each known by the diagnostic
    [stage1] writes for it. *)
Inductive fatalClass :=
| MalformedIdentifier
| PodLoadFailure
| PpidWriteFailure
| ExecFailure.

Definition classMsg (c : fatalClass) : stderrMsg :=
  match c with
  | MalformedIdentifier => MsgUUIDMalformed
  | PodLoadFailure => MsgFailedLoadPod
  | PpidWriteFailure => MsgPpid
  | ExecFailure => MsgFailedExecute
  end.

(** The code of the return statement of each class. *)
Definition classCode (c : fatalClass) : Z :=
  match c with
  | MalformedIdentifier => 1
  | PodLoadFailure => 1
  | PpidWriteFailure => 4
  | ExecFailure => 7
  end.

Definition failsWith (c : fatalClass) (env : Env) : Prop :=
  EvStderr (classMsg c) ∈ (stage1 env).1.

End stage1.

(** ** Strings as Go handles them *)

Module strings.

(** [strings.Split(s, sep)] for a separator of one byte: one more piece
    than there are separators, empty pieces kept. *)
Fixpoint Split (sep : ascii) (s : string) : list string :=
  match s with
  | EmptyString => [EmptyString]
  | String c s' =>
      if decide (c = sep) then EmptyString :: Split sep s'
      else match Split sep s' with
           | piece :: pieces => String c piece :: pieces
           | [] => [String c EmptyString]
           end
  end.

(** [strings.HasPrefix(s, prefix)] *)
Definition HasPrefix (s prefix : string) : bool := String.prefix prefix s.

(** [strings.Contains(s, substr)] *)
Fixpoint Contains (s substr : string) : bool :=
  HasPrefix s substr ||
  match s with
  | EmptyString => false
  | String _ s' => Contains s' substr
  end.

(** Go compares strings byte by byte: [a <= b]. *)
Definition le (a b : string) : Prop := String.leb a b = true.

#[global] Instance le_dec : RelDecision le.
Proof. intros a b. unfold le. apply _. Defined.

End strings.

(** ** [main] of the fly flavor's gc *)

Module gc.

(** The system calls of the reaper. *)
Inductive call :=
| Mount (source target fstype : string) (flags : Z) (data : string)
| Unmount (target : string) (flags : Z).

#[global] Instance call_eq_dec : EqDecision call.
Proof. solve_decision. Defined.

Inductive exit :=
| Exit (code : Z)        (* os.Exit(code), or the return from main: 0 *)
| LogFatal               (* log.Fatalf: exit code 1 *)
| RuntimePanic.

(** [regexp.MustCompile(fmt.Sprintf(".*%s.*", podID)).MatchString(line)].
    The text of a UUID is made of hexadecimal digits and dashes, none of
    which is special in a regular expression, and a line holds no newline:
    the expression matches exactly the lines that contain the text. *)
Definition MatchString (podID line : string) : bool := strings.Contains line podID.

(** Body of the loop over the lines; the state is [mountMap] and
    [mountList]. [None] is the panic of [splitLine[4]]. *)
Definition scanLine (podID : string) (s : gset string * list string) (line : string)
  : option (gset string * list string) :=
  if MatchString podID line then
    match strings.Split " " line !! 4%nat with
    | None => None
    | Some mount =>
        if decide (mount ∈ s.1) then Some s
        else Some ({[mount]} ∪ s.1, s.2 ++ [mount])
    end
  else Some s.

Fixpoint scanLines (podID : string) (lines : list string) (s : gset string * list string)
  : option (gset string * list string) :=
  match lines with
  | [] => Some s
  | line :: lines' =>
      match scanLine podID s line with
      | None => None
      | Some s' => scanLines podID lines' s'
      end
  end.

(** [sort.Sort(sort.StringSlice(l))] leaves the slice in ascending order and
    [sort.Sort(sort.Reverse(sort.StringSlice(l)))] in descending order.  The
    order on strings is total, so each is the one sorted rearrangement of
    the slice, whatever the algorithm; merge sort computes it here. *)
Definition sortStrings (l : list string) : list string :=
  merge_sort strings.le l.
Definition sortStringsReverse (l : list string) : list string :=
  merge_sort (flip strings.le) l.

(** A loop that makes one system call per mount point and ends in
    [log.Fatalf] at the first failure: the calls made and whether all
    succeeded. *)
Fixpoint forAll (sys : call → bool) (mk : string → call) (l : list string)
  : list call * bool :=
  match l with
  | [] => ([], true)
  | dest :: l' =>
      if sys (mk dest)
      then let r := forAll sys mk l' in (mk dest :: r.1, r.2)
      else ([mk dest], false)
  end.

Definition remount (dest : string) : call :=
  Mount "" dest "" (Z.lor syscall.MS_REC syscall.MS_PRIVATE) "".
Definition unmount (dest : string) : call := Unmount dest 0.

(** [main], given the text of the pod's UUID when [flag.Arg(0)] parses as
    one, the lines of /proc/self/mountinfo when reading it succeeds, and the
    outcome of every system call. *)
Definition main (podID : option string) (lines : option (list string))
    (sys : call → bool) : list call * exit :=
  match podID with
  | None => ([], Exit 1)
  | Some podID =>
  match lines with
  | None => ([], LogFatal)
  | Some lines =>
  match scanLines podID lines (∅, []) with
  | None => ([], RuntimePanic)
  | Some (_, mountList) =>
  if decide (length mountList = 0%nat) then ([], Exit 0) else
  let mountList := sortStrings mountList in
  let r1 := forAll sys remount mountList in
  if negb r1.2 then (r1.1, LogFatal) else
  let mountList := sortStringsReverse mountList in
  let r2 := forAll sys unmount mountList in
  if negb r2.2 then (r1.1 ++ r2.1, LogFatal) else
  (r1.1 ++ r2.1, Exit 0)
  end end end.

(** Removal of repeated entries that keeps each first occurrence in
    place. *)
Fixpoint firstSeen (l : list string) : list string :=
  match l with
  | [] => []
  | x :: l' => x :: filter (λ y, y ≠ x) (firstSeen l')
  end.

(** The mount point fields of the lines that contain the identifier, when
    every such line has a fifth field. *)
Fixpoint mountFields (podID : string) (lines : list string) : option (list string) :=
  match lines with
  | [] => Some []
  | line :: lines' =>
      if MatchString podID line then
        match strings.Split " " line !! 4%nat, mountFields podID lines' with
        | Some mount, Some l => Some (mount :: l)
        | _, _ => None
        end
      else mountFields podID lines'
  end.

End gc.

(** ** The mount table and the prefix filter of stage0

    [getMountsForPrefix] and the mount table parser are not among the
    sources; [TestMountOrdering] and its table are. *)

Module stage0.

(** Modelled from the spec: the propagation modes of a [MountEntry] (the
    parser and its types are missing). *)
Inductive propagationMode := shared | private | slave | unbindable.

(** Modelled from the spec: the record [MountEntry] of one parsed line of
    the mount table (the parser's type declaration is missing). *)
Record mount := {
  id : Z;
  parentID : Z;
  deviceID : string;
  root : string;
  mountPoint : string;
  options : list string;
  propagation : propagationMode;
}.

#[global] Instance propagationMode_eq_dec : EqDecision propagationMode.
Proof. solve_decision. Defined.
#[global] Instance mount_eq_dec : EqDecision mount.
Proof. solve_decision. Defined.

(** Modelled from the spec: the numeric fields of a line, read by the
    missing parser; a field that is not a run of decimal digits is a parse
    error. *)
Definition digit (c : ascii) : option Z :=
  let n := Z.of_N (N_of_ascii c) in
  if (48 <=? n) && (n <=? 57) then Some (n - 48) else None.

(** Modelled from the spec: the digits of a numeric field of the missing
    parser, most significant first. *)
Fixpoint digits (acc : Z) (s : string) : option Z :=
  match s with
  | EmptyString => Some acc
  | String c s' =>
      match digit c with
      | Some d => digits (10 * acc + d) s'
      | None => None
      end
  end.

(** Modelled from the spec: a numeric field of the missing parser, a
    non-empty run of decimal digits. *)
Definition number (s : string) : option Z :=
  match s with
  | EmptyString => None
  | _ => digits 0 s
  end.

(** Modelled from the spec: the optional fields read by the missing parser,
    the tags up to the separator ["-"]; [None] when the separator is
    missing. *)
Fixpoint optionalFields (fields : list string) : option (list string) :=
  match fields with
  | [] => None
  | f :: fields' =>
      if decide (f = "-") then Some []
      else cons f <$> optionalFields fields'
  end.

(** Modelled from the spec: the propagation mode the missing parser reads
    from the optional fields. *)
Definition propagationOf (tags : list string) : propagationMode :=
  if existsb (λ t, strings.HasPrefix t "shared:") tags then shared
  else if existsb (λ t, strings.HasPrefix t "master:") tags then slave
  else if existsb (λ t, bool_decide (t = "unbindable")) tags then unbindable
  else private.

(** Modelled from the spec: the mount table parser (MountTable Parser, 4.1
    and the line format of 6), missing from the sources.  A line is the
    space-separated fields id, parent id, device major:minor, root, mount
    point, options, then zero or more optional tags closed by ["-"]; a line
    with too few fields, without the separator, or with a non-numeric id,
    parent id or device number is a parse error ([None]). *)
Definition parseLine (line : string) : option mount :=
  match strings.Split " " line with
  | fid :: fparent :: fdev :: froot :: fmp :: fopts :: rest =>
      i ← number fid;
      p ← number fparent;
      _ ← (match strings.Split ":" fdev with
           | [major; minor] => _ ← number major; number minor
           | _ => None
           end);
      tags ← optionalFields rest;
      Some {| id := i; parentID := p; deviceID := fdev; root := froot;
              mountPoint := fmp; options := strings.Split "," fopts;
              propagation := propagationOf tags |}
  | _ => None
  end.

(** Modelled from the spec: the line-oriented reading of the table by the
    missing parser; the lines are those [bufio.Scanner] yields. *)
Definition textLines (text : string) : list string :=
  match reverse (strings.Split "010" text) with
  | EmptyString :: lines => reverse lines
  | lines => reverse lines
  end.

(** Modelled from the spec: the missing parser on a whole table; the entries
    in table scan order, or a parse error. *)
Definition parseMountTable (text : string) : option (list mount) :=
  mapM parseLine (textLines text).

(** Modelled from the spec: part of the path-segment test of the missing
    [getMountsForPrefix]. *)
Fixpoint endsWithSlash (s : string) : bool :=
  match s with
  | EmptyString => false
  | String c EmptyString => bool_decide (c = "/"%char)
  | String _ s' => endsWithSlash s'
  end.

(** Modelled from the spec: the path-segment test of the missing
    [getMountsForPrefix].  [d] lies strictly below the directory [a]: it
    continues [a] after a path separator ([/foobar] is not below [/foo]). *)
Definition below (d a : string) : bool :=
  bool_decide (d ≠ a) &&
  strings.HasPrefix d (if endsWithSlash a then a else a +:+ "/").

(** Modelled from the spec: the selection of the missing
    [getMountsForPrefix]; the mount point is the prefix or a path rooted
    under it. *)
Definition underPrefix (prefix : string) (m : mount) : bool :=
  bool_decide (mountPoint m = prefix) || below (mountPoint m) prefix.

(** Modelled from the spec: the ordering of the missing
    [getMountsForPrefix]; no entry of [rest] is mounted below [m]. *)
Definition ready (rest : list mount) (m : mount) : bool :=
  forallb (λ x, negb (below (mountPoint x) (mountPoint m))) rest.

(** Modelled from the spec: the ordering of the missing
    [getMountsForPrefix]; among candidates, the one with the greatest parent
    id, the last such in list order. *)
Fixpoint choose (candidates : list mount) : option mount :=
  match candidates with
  | [] => None
  | m :: candidates' =>
      match choose candidates' with
      | Some m' => if parentID m' <? parentID m then Some m else Some m'
      | None => Some m
      end
  end.

(** Modelled from the spec: the ordering of the missing
    [getMountsForPrefix]; removes one occurrence of [m]. *)
Fixpoint removeOne (m : mount) (l : list mount) : list mount :=
  match l with
  | [] => []
  | x :: l' => if decide (x = m) then l' else x :: removeOne m l'
  end.

(** Modelled from the spec: the ordering of the missing
    [getMountsForPrefix]; the entries of [rest], [n] of them at most, each
    taken when nothing that remains is mounted below it. *)
Fixpoint unmountOrder (n : nat) (rest : list mount) : list mount :=
  match n with
  | O => []
  | S n' =>
      match choose (filter (λ m, ready rest m = true) rest) with
      | None => []
      | Some m => m :: unmountOrder n' (removeOne m rest)
      end
  end.

(** Modelled from the spec: [getMountsForPrefix] (FilterByPrefix, 4.2), which
    is missing from the sources.  It selects the entries whose mount point is
    the prefix or lies under it by whole path segments, and returns them so
    that an entry comes after every selected entry mounted below it.  The
    spec leaves the relative order of unrelated entries to the implementation,
    provided it is deterministic; the order [TestMountOrdering] expects fixes
    it here: the next entry is, among the remaining entries with no remaining
    entry below them, the one with the greatest parent id, and the later
    table line when parent ids are equal. *)
Definition getMountsForPrefix (prefix : string) (table : list mount) : list mount :=
  let selected := filter (λ m, underPrefix prefix m = true) table in
  unmountOrder (length selected) selected.

(** The table of [TestMountOrdering]. *)
Definition mountinfo : string :=
"71 21 0:39 / /var/lib/rkt rw,relatime shared:26 -
116 71 0:45 / /my/mount/prefix/rootfs rw,relatime shared:32 -
121 116 0:46 / /my/mount/prefix/rootfs/opt/stage2/busybox/rootfs rw,relatime shared:63 -
146 145 0:27 / /my/mount/prefix/rootfs/opt/stage2/busybox/rootfs/sys/fs/cgroup/systemd rw,nosuid,nodev,noexec,relatime shared:6 -
145 144 0:26 / /my/mount/prefix/rootfs/opt/stage2/busybox/rootfs/sys/fs/cgroup rw,nosuid,nodev,noexec shared:5 -
144 121 0:17 / /my/mount/prefix/rootfs/opt/stage2/busybox/rootfs/sys rw,relatime shared:3 -
180 121 0:19 /nixos /my/mount/prefix/rootfs/opt/stage2/busybox/rootfs/rootfs ro,relatime shared:1 -
184 183 0:27 / /my/mount/prefix/rootfs/opt/stage2/busybox/rootfs/rootfs/sys/fs/cgroup/systemd rw,nosuid,nodev,noexec,relatime shared:6 -
183 182 0:26 / /my/mount/prefix/rootfs/opt/stage2/busybox/rootfs/rootfs/sys/fs/cgroup rw,nosuid,nodev,noexec shared:5 -
182 180 0:17 / /my/mount/prefix/rootfs/opt/stage2/busybox/rootfs/rootfs/sys rw,relatime shared:3 -
209 206 0:45 / /my/mount/prefix/rootfs/opt/stage2/busybox/rootfs/rootfs/my/mount/prefix/rootfs rw,relatime shared:32 -
219 218 0:27 / /my/mount/prefix/rootfs/opt/stage2/busybox/rootfs/rootfs/my/mount/prefix/rootfs/opt/stage2/busybox/rootfs/sys/fs/cgroup/systemd rw,nosuid,nodev,noexec,relatime shared:6 -
218 217 0:26 / /my/mount/prefix/rootfs/opt/stage2/busybox/rootfs/rootfs/my/mount/prefix/rootfs/opt/stage2/busybox/rootfs/sys/fs/cgroup rw,nosuid,nodev,noexec shared:5 -
217 210 0:17 / /my/mount/prefix/rootfs/opt/stage2/busybox/rootfs/rootfs/my/mount/prefix/rootfs/opt/stage2/busybox/rootfs/sys rw,relatime shared:3 -
210 209 0:46 / /my/mount/prefix/rootfs/opt/stage2/busybox/rootfs/rootfs/my/mount/prefix/rootfs/opt/stage2/busybox/rootfs rw,relatime shared:63 -
".

(** The entries of that table. *)
Definition testTable : list mount := default [] (parseMountTable mountinfo).

(** The ids [TestMountOrdering] expects for the prefix /my/mount/prefix. *)
Definition testIds : list Z :=
  [219; 218; 217; 210; 209; 184; 183; 182; 146; 145; 180; 144; 121; 116].

End stage0.

(** ** Vocabulary of the statements *)

Module plan.
Import fly.

(** The three mount operations of one tuple. *)
Definition markShared (tuple : volumeMountTuple) : flyMount :=
  {| HostPath := ""; TargetPrefixPath := ""; RelTargetPath := vSource (V tuple);
     Fs := "none"; Flags := Z.lor syscall.MS_REC syscall.MS_SHARED |}.

Definition bindMount (rfs : string) (tuple : volumeMountTuple) : flyMount :=
  {| HostPath := vSource (V tuple); TargetPrefixPath := rfs;
     RelTargetPath := mPath (M tuple); Fs := "none";
     Flags := Z.lor syscall.MS_BIND syscall.MS_REC |}.

Definition remountReadOnly (rfs : string) (tuple : volumeMountTuple) : flyMount :=
  {| HostPath := ""; TargetPrefixPath := rfs; RelTargetPath := mPath (M tuple);
     Fs := "none";
     Flags := Z.lor (Z.lor (Z.lor syscall.MS_BIND syscall.MS_REC)
                       syscall.MS_REMOUNT) syscall.MS_RDONLY |}.

(** The operations of one tuple, in order; [mp] is what the range variable
    of the last mount point loop holds. *)
Definition mountTriple (rfs : string) (mp : MountPoint) (tuple : volumeMountTuple)
  : list flyMount :=
  [markShared tuple; bindMount rfs tuple] ++
  (if isReadOnly mp tuple then [remountReadOnly rfs tuple] else []).

(** Every record of the map is stored under the volume name of its mount. *)
Definition keyed (nvm : gmap string volumeMountTuple) : Prop :=
  ∀ k t, nvm !! k = Some t → mVolume (M t) = k.

(** The declared paths agree: a mount and a mount point, or two mount
    points, of one name have one path. *)
Definition pathsAgree (ms : list Mount) (mps : list MountPoint) : Prop :=
  (∀ m mp, m ∈ ms → mp ∈ mps → mVolume m = mpName mp → mPath m = mpPath mp)
  ∧ (∀ mp1 mp2, mp1 ∈ mps → mp2 ∈ mps → mpName mp1 = mpName mp2 →
       mpPath mp1 = mpPath mp2).

End plan.

(** ** Sample pods *)

Module samples.
Import fly.

(** A pod of one app named "app" with its image. *)
Definition firstApp (mounts : list Mount) : RuntimeApp :=
  {| raName := "app";
     raApp := Some {| Exec := ["/bin/sh"]; MountPoints := [] |};
     raMounts := mounts |}.

Definition imageApp (mountPoints : list MountPoint) : App :=
  {| Exec := ["/bin/sh"]; MountPoints := mountPoints |}.

Definition image (mountPoints : list MountPoint) : ImageManifest :=
  {| imApp := Some (imageApp mountPoints) |}.

Definition pod (mounts : list Mount) (volumes : list Volume)
    (mountPoints : list MountPoint) : Pod :=
  {| Root := ".";
     Manifest := {| Apps := [firstApp mounts]; Volumes := volumes |};
     Images := {[ "app" := image mountPoints ]} |}.

Definition dataAtData : Mount := {| mVolume := "data"; mPath := "/data" |}.
Definition dataAtSrv : Mount := {| mVolume := "data"; mPath := "/srv" |}.
Definition dataAtMnt : MountPoint :=
  {| mpName := "data"; mpPath := "/mnt"; mpReadOnly := false |}.
Definition dataAtDataPoint : MountPoint :=
  {| mpName := "data"; mpPath := "/data"; mpReadOnly := false |}.

Definition hostVolume (name source : string) (readOnly : option bool) : Volume :=
  {| vName := name; vKind := "host"; vSource := source;
     vReadOnly := PtrOwn <$> readOnly |}.

(** Two volumes that leave read-only unset; the image declares the first
    mount point read-only and the second one not. *)
Definition twoVolumes : Pod :=
  pod []
      [hostVolume "data" "/srv/data" None; hostVolume "logs" "/srv/logs" None]
      [ {| mpName := "data"; mpPath := "/data"; mpReadOnly := true |};
        {| mpName := "logs"; mpPath := "/logs"; mpReadOnly := false |} ].

(** One volume, read-only by its mount point. *)
Definition oneVolume : Pod :=
  pod [] [hostVolume "data" "/srv/data" None]
      [ {| mpName := "data"; mpPath := "/data"; mpReadOnly := true |} ].

(** The volume name "data" is mounted twice. *)
Definition duplicatedMount : Pod :=
  pod [dataAtData; dataAtSrv] [hostVolume "data" "/srv/data" None] [dataAtMnt].

(** Mount and mount point of "data" disagree on the path. *)
Definition conflictingPaths : Pod :=
  pod [dataAtData] [hostVolume "data" "/srv/data" None] [dataAtMnt].

(** As [conflictingPaths], with a volume "spare" that nothing mounts. *)
Definition conflictAndSpare : Pod :=
  pod [dataAtData]
      [hostVolume "spare" "/srv/spare" None; hostVolume "data" "/srv/data" None]
      [dataAtMnt].

(** A volume "spare" that nothing mounts, and nothing else wrong. *)
Definition spareVolume : Pod :=
  pod [dataAtData]
      [hostVolume "data" "/srv/data" None; hostVolume "spare" "/srv/spare" None]
      [dataAtDataPoint].

(** What [reconcile] leaves for [oneVolume]: the map and the range
    variable. *)
Definition dataMountPoint : MountPoint :=
  {| mpName := "data"; mpPath := "/data"; mpReadOnly := true |}.
Definition oneVolumeTuples : gmap string volumeMountTuple :=
  {[ "data" := {| V := {| vName := "data"; vKind := "host"; vSource := "/srv/data";
                          vReadOnly := Some PtrRangeVar |};
                  M := {| mVolume := "data"; mPath := "/data" |} |} ]}.

(** Two orders of a range over the map. *)
Definition keyOrder : rangeOrder := map_to_list.
Definition reverseKeyOrder : rangeOrder := λ m, reverse (map_to_list m).

End samples.

Module stage1_samples.
Import fly stage1 samples.

(** An environment in which every call succeeds, but for the ones given. *)
Definition env (uuid : bool) (p : option Pod) (ppid exe : bool) : Env :=
  {| newUUID := uuid;
     loadPod := p;
     appRootfs := λ root name,
       root +:+ "/stage1/rootfs/opt/stage2/" +:+ name +:+ "/rootfs";
     getRktLockFD := Some 3;
     closeOnExec := λ _ _, true;
     mapRange := keyOrder;
     applyMount := λ _, true;
     writePpid := ppid;
     chroot := λ _, true;
     chdir := true;
     exec := λ _, exe |}.

Definition malformedUUID : Env := env false (Some oneVolume) true true.
Definition podNotLoaded : Env := env true None true true.

(** A pod that declares two apps. *)
Definition twoApps : Pod :=
  {| Root := ".";
     Manifest := {| Apps := [firstApp []; firstApp [dataAtData]]; Volumes := [] |};
     Images := {[ "app" := image [] ]} |}.

(** [oneVolume] with another name and other mounts for what would be a
    second app. *)
Definition oneVolumeMore : Pod :=
  {| Root := ".";
     Manifest := {| Apps := [firstApp []; firstApp [dataAtSrv]];
                    Volumes := Volumes (Manifest oneVolume) |};
     Images := Images oneVolume |}.

End stage1_samples.

Module gc_samples.
Import gc.

(** Entries of [fields] not yet in [seen], each at its first occurrence. *)
Fixpoint unseen (seen : gset string) (fields : list string) : list string :=
  match fields with
  | [] => []
  | x :: fields' =>
      if decide (x ∈ seen) then unseen seen fields'
      else x :: unseen ({[x]} ∪ seen) fields'
  end.

Definition podID : string := "0b8f2d4e-6c1a-4e37-9f52-3a7d5c9e1b60".

(** A mount table in which /a, /a/b and /a/b/c belong to the pod, /a/b
    twice, next to a mount that does not. *)
Definition nestedMounts : list string :=
  [ "21 1 8:1 / / rw,relatime shared:1 - ext4 /dev/sda1 rw";
    "61 21 0:40 / /a/b rw shared:30 - overlay 0b8f2d4e-6c1a-4e37-9f52-3a7d5c9e1b60 rw";
    "62 61 0:41 / /a/b/c rw shared:31 - tmpfs 0b8f2d4e-6c1a-4e37-9f52-3a7d5c9e1b60 rw";
    "60 21 0:39 / /a rw shared:29 - tmpfs 0b8f2d4e-6c1a-4e37-9f52-3a7d5c9e1b60 rw";
    "63 61 0:40 / /a/b rw shared:30 - overlay 0b8f2d4e-6c1a-4e37-9f52-3a7d5c9e1b60 rw" ].

End gc_samples.



(** ** The loop of [stage1] over the effective mounts *)

Module executor.

(** What [os.Stat] answers: the [IsDir] of the file's info, the error
    [os.IsNotExist] recognises, or another error. *)
Inductive statResult :=
| Info (isDir : bool)
| NotExist
| StatError.

(** The calls of the loop into the operating system. *)
Inductive call :=
| SysStat (path : string)          (* os.Stat(path) *)
| SysMkdirAll (path : string)      (* os.MkdirAll(path, 0700) *)
| SysMkdir (path : string)         (* os.Mkdir(path, 0700) *)
| SysOpenFile (path : string)      (* os.OpenFile(path, os.O_CREATE, 0700), then Close *)
| SysMount (source target fstype : string) (flags : Z).
                                   (* syscall.Mount(source, target, fstype, flags, "") *)

#[global] Instance statResult_eq_dec : EqDecision statResult.
Proof. solve_decision. Defined.
#[global] Instance oscall_eq_dec : EqDecision call.
Proof. solve_decision. Defined.

(** The operating system: what a call answers after the calls made so far
    (the state of the file system is what the earlier calls made of it), and
    the two pure functions of path/filepath the loop uses. *)
Record OS := {
  stat : list call → string → statResult;
  succeeds : list call → call → bool;     (* the call returns a nil error *)
  Join : string → string → string;        (* filepath.Join(a, b) *)
  SplitDir : string → string;             (* the first result of filepath.Split *)
}.

(** A step of the loop: from the calls made so far to the calls made after
    it, with [None] when the step ended in log.Fatalf. *)
Definition step (A : Type) := list call → list call * option A.

Definition ret {A} (a : A) : step A := λ h, (h, Some a).

Definition andThen {A B} (s : step A) (k : A → step B) : step B :=
  λ h, match s h with
       | (h', Some a) => k a h'
       | (h', None) => (h', None)
       end.

Notation "'do*' x := s 'in' k" := (andThen s (λ x, k))
  (at level 10, x name, s at level 100, k at level 200, only parsing).

(** A call that is fatal when it fails. *)
Definition must (os : OS) (c : call) : step () :=
  λ h, (h ++ [c], if succeeds os h c then Some () else None).

(** [os.Stat(mount.HostPath)]: every error is fatal. *)
Definition statHost (os : OS) (path : string) : step bool :=
  λ h, (h ++ [SysStat path],
        match stat os h path with
        | Info isDir => Some isDir
        | NotExist | StatError => None
        end).

(** [os.Stat(absTargetPath)]: a file that does not exist leaves
    [targetPathInfo] nil, any other error is fatal. *)
Definition statTarget (os : OS) (path : string) : step (option bool) :=
  λ h, (h ++ [SysStat path],
        match stat os h path with
        | Info isDir => Some (Some isDir)
        | NotExist => Some None
        | StatError => None
        end).

Definition fatal {A} : step A := λ h, (h, None).

(** The first block of the loop's body: [hostPathInfo], nil unless the host
    path is not empty and starts with a slash. *)
Definition hostInfo (os : OS) (mount : flyMount) : step (option bool) :=
  if bool_decide (HostPath mount ≠ "") && strings.HasPrefix (HostPath mount) "/"
  then do* isDir := statHost os (HostPath mount) in ret (Some isDir)
  else ret None.

(** The second block, [if absTargetPath != "/" { ... }]: the target is
    created when it does not exist, and compared with the host path when
    both exist. *)
Definition targetReady (os : OS) (absTargetPath : string)
    (hostPathInfo : option bool) : step () :=
  if bool_decide (absTargetPath ≠ "/") then
    do* targetPathInfo := statTarget os absTargetPath in
    match targetPathInfo, hostPathInfo with
    | None, _ =>
        do* _ := must os (SysMkdirAll (SplitDir os absTargetPath)) in
        match hostPathInfo with
        | None | Some true => must os (SysMkdir absTargetPath)
        | Some false => must os (SysOpenFile absTargetPath)
        end
    | Some targetIsDir, Some hostIsDir =>
        if hostIsDir && negb targetIsDir then fatal
        else if negb hostIsDir && targetIsDir then fatal
        else ret ()
    | Some _, None => ret ()
    end
  else ret ().

(** The body of the loop for one mount. *)
Definition mountOne (os : OS) (mount : flyMount) : step () :=
  do* hostPathInfo := hostInfo os mount in
  let absTargetPath := Join os (TargetPrefixPath mount) (RelTargetPath mount) in
  do* _ := targetReady os absTargetPath hostPathInfo in
  must os (SysMount (HostPath mount) absTargetPath (Fs mount) (Flags mount)).

(** The loop: the mounts in order, up to the first fatal one. *)
Fixpoint mountEach (os : OS) (effectiveMounts : list flyMount) : step () :=
  match effectiveMounts with
  | [] => ret ()
  | mount :: rest => do* _ := mountOne os mount in mountEach os rest
  end.

End executor.

(** ** [lookupPath] *)

Module lookup.

(** [os.FileMode]: the directory bit and the three execute bits. *)
Definition ModeDir : Z := 2147483648.
Definition execBits : Z := 73.             (* 0111 *)

(** [m.IsDir()] *)
Definition IsDir (m : Z) : bool := negb (Z.land m ModeDir =? 0).

Record OS := {
  Join : string → string → string;        (* filepath.Join(path, bin) *)
  Abs : string → option string;           (* filepath.Abs, [None] on error *)
  Stat : string → option Z;               (* os.Stat: the mode, [None] on error *)
}.

Inductive error :=
| ErrAbsolutePath (binPath : string)
    (* "unable to find absolute path for %s" *)
| ErrNotFound (bin paths : string).
    (* "unable to find %q in %q" *)

(** [filepath.SplitList] on unix: no entry for the empty string, else the
    pieces between colons. *)
Definition SplitList (path : string) : list string :=
  if decide (path = "") then [] else strings.Split ":" path.

(** The loop over [pathsArr]: [None] when it runs to its end. *)
Fixpoint search (os : OS) (bin : string) (pathsArr : list string)
  : option (string + error) :=
  match pathsArr with
  | [] => None
  | path :: rest =>
      let binPath := Join os path bin in
      match Abs os binPath with
      | None => Some (inr (ErrAbsolutePath binPath))
      | Some binAbsPath =>
          match Stat os binAbsPath with
          | None => search os bin rest
          | Some m =>
              if negb (IsDir m) && negb (Z.land m execBits =? 0)
              then Some (inl binAbsPath)
              else search os bin rest
          end
      end
  end.

Definition lookupPath (os : OS) (bin paths : string) : string + error :=
  match search os bin (SplitList paths) with
  | Some r => r
  | None => inr (ErrNotFound bin paths)
  end.

End lookup.

(** ** [readLines] and [writeLines] of the gc *)

Module linefile.

(** The files: the content of every path that can be opened, and whether a
    path can be created and written to its end. *)
Record disk := {
  files : gmap string string;
  writable : string → bool;
}.

(** [bufio.MaxScanTokenSize]: a line that does not fit the scanner's buffer
    of this size ends the scan with the error ErrTooLong. *)
Definition MaxScanTokenSize : Z := 65536.

(** The [dropCR] of bufio.ScanLines: one carriage return at the end of the
    line is left out. *)
Fixpoint dropCR (s : string) : string :=
  match s with
  | EmptyString => EmptyString
  | String c EmptyString =>
      if decide (c = "013"%char) then EmptyString else String c EmptyString
  | String c s' => String c (dropCR s')
  end.

(** The tokens of a [bufio.Scanner] over the pieces between the newlines of
    a text: every piece, but for an empty last one, without its trailing
    carriage return; the scan stops with an error ([false]) at a piece that
    does not fit the buffer. *)
Fixpoint tokens (pieces : list string) : list string * bool :=
  match pieces with
  | [] => ([], true)
  | piece :: rest =>
      match rest with
      | [] =>
          if decide (piece = EmptyString) then ([], true)
          else if decide (Z.of_nat (String.length piece) < MaxScanTokenSize)
               then ([dropCR piece], true)
               else ([], false)
      | _ :: _ =>
          if decide (Z.of_nat (String.length piece) < MaxScanTokenSize)
          then let r := tokens rest in (dropCR piece :: r.1, r.2)
          else ([], false)
      end
  end.

(** [readLines]: the lines read and whether [scanner.Err()] is nil; a file
    that cannot be opened gives no lines and an error. *)
Definition readLines (d : disk) (path : string) : list string * bool :=
  match files d !! path with
  | None => ([], false)
  | Some text => tokens (strings.Split "010" text)
  end.

(** What [fmt.Fprintln(w, line)] writes for every line. *)
Fixpoint printed (lines : list string) : string :=
  match lines with
  | [] => EmptyString
  | line :: lines' => line +:+ String "010" (printed lines')
  end.

(** [writeLines]: the disk after it, or [None] when os.Create or the Flush
    returns an error. *)
Definition writeLines (lines : list string) (path : string) (d : disk)
  : option disk :=
  if writable d path
  then Some {| files := <[path := printed lines]> (files d); writable := writable d |}
  else None.

End linefile.

(** ** Vocabulary of the statements about the reconciled records *)

Module records.
Import fly.

(** The volume a record holds once the fourth loop has seen its name: a nil
    read-only pointer has become the address of the range variable. *)
Definition defaulted (v : Volume) : Volume :=
  match vReadOnly v with
  | None => {| vName := vName v; vKind := vKind v; vSource := vSource v;
               vReadOnly := Some PtrRangeVar |}
  | Some _ => v
  end.

Definition defaultedTuple (t : volumeMountTuple) : volumeMountTuple :=
  {| V := defaulted (V t); M := M t |}.

(** The last volume of the manifest with the name [k]. *)
Definition lastNamed (k : ACName) (vols : list Volume) : option Volume :=
  last (filter (λ v, vName v = k) vols).

(** The read-only flag [evaluateMounts] resolves for a volume, given the
    mount points of the image. *)
Definition resolvedReadOnly (mps : list MountPoint) (v : Volume) : bool :=
  match vReadOnly v with
  | Some (PtrOwn b) => b
  | Some PtrRangeVar => mpReadOnly (last_def zeroMountPoint mps)
  | None =>
      if decide (vName v ∈ mpName <$> mps)
      then mpReadOnly (last_def zeroMountPoint mps)
      else false
  end.

(** What has to hold of the declarations for [evaluateMounts] to return a
    list of mounts. *)
Definition consistent (ms : list Mount) (mps : list MountPoint) (vols : list Volume)
  : Prop :=
  NoDup (mVolume <$> ms)
  ∧ plan.pathsAgree ms mps
  ∧ (∀ v, v ∈ vols → vName v ∈ (mVolume <$> ms) ++ (mpName <$> mps))
  ∧ (∀ mp, mp ∈ mps → mpName mp ≠ "" ∧ mpName mp ∈ vName <$> vols).

(** The result is the error "mismatched volume:mount pair". *)
Definition isMismatchedPair {A} (r : result A) : bool :=
  match r with
  | Error (ErrMismatchedPair _ _) => true
  | _ => false
  end.

End records.

Module more_samples.
Import fly samples.

Definition logsPoint : MountPoint :=
  {| mpName := "logs"; mpPath := "/logs"; mpReadOnly := true |}.

(** A pod whose declarations are consistent: "data" is mounted by the pod
    and declared read-write by its volume, "logs" is mounted by the image
    and leaves read-only to its mount point. *)
Definition mixedVolumes : Pod :=
  pod [dataAtData]
      [hostVolume "data" "/srv/data" (Some false); hostVolume "logs" "/srv/logs" None]
      [dataAtDataPoint; logsPoint].

(** A pod-level mount with no volume and no mount point of its name. *)
Definition mountWithoutVolume : Pod := pod [dataAtData] [] [].

(** A mount point with no volume of its name. *)
Definition pointWithoutVolume : Pod := pod [] [] [dataAtMnt].

End more_samples.

Module stage1_trace.
Import fly stage1.

(** The calls of [stage1] up to the end of its loop over the effective
    mounts, when every mount is applied: the lock's close-on-exec flag, the
    evaluation of the mounts, the seven system mounts and then the mounts
    [evaluateMounts] returned. *)
Definition setupCalls (lfd : Z) (rfs app : string) (argFlyMounts : list flyMount)
  : list event :=
  [EvCloseOnExec lfd true; EvEvaluateMounts rfs app]
  ++ (EvMount <$> (systemMounts rfs ++ argFlyMounts)).


End stage1_trace.

Module stage1_more_samples.
Import fly stage1 samples stage1_samples.

(** An environment in which the mount of the tmpfs fails, every other call
    succeeds. *)
Definition tmpfsFails : Env :=
  {| newUUID := true;
     loadPod := Some oneVolume;
     appRootfs := appRootfs (env true (Some oneVolume) true true);
     getRktLockFD := Some 3;
     closeOnExec := λ _ _, true;
     mapRange := keyOrder;
     applyMount := λ m, negb (bool_decide (Fs m = "tmpfs"));
     writePpid := true;
     chroot := λ _, true;
     chdir := true;
     exec := λ _, true |}.

Definition tmpMount : flyMount :=
  {| HostPath := "tmpfs";
     TargetPrefixPath := appRootfs tmpfsFails (Root oneVolume) "app";
     RelTargetPath := "/tmp"; Fs := "tmpfs"; Flags := 0 |}.

End stage1_more_samples.

(** Vocabulary for the calls of the loop, and an operating system to run
    it on. *)
Module executor_samples.
Import executor.

(** The mount call the loop makes for [mount]. *)
Definition mountCall (os : OS) (mount : flyMount) : call :=
  SysMount (HostPath mount)
    (Join os (TargetPrefixPath mount) (RelTargetPath mount))
    (Fs mount) (Flags mount).

Definition isMount (c : call) : bool :=
  match c with SysMount _ _ _ _ => true | _ => false end.

(** The host path is one the loop looks at: not empty and absolute. *)
Definition absolute (mount : flyMount) : bool :=
  bool_decide (HostPath mount ≠ "") && strings.HasPrefix (HostPath mount) "/".

(** The call that looks at the host path, when the loop makes it. *)
Definition hostStat (mount : flyMount) : list call :=
  if absolute mount then [SysStat (HostPath mount)] else [].

(** Calls that create a file or a directory. *)
Definition creates (c : call) : bool :=
  match c with
  | SysMkdirAll _ | SysMkdir _ | SysOpenFile _ => true
  | _ => false
  end.

(** The target of [mount]. *)
Definition targetOf (os : OS) (mount : flyMount) : string :=
  Join os (TargetPrefixPath mount) (RelTargetPath mount).

(** A step that makes no mount call. *)
Definition quiet {A} (s : step A) : Prop :=
  ∀ h, ∃ pre, (s h).1 = h ++ pre ∧ ∀ c, c ∈ pre → isMount c = false.

Fixpoint hasSlash (s : string) : bool :=
  match s with
  | EmptyString => false
  | String c s' => bool_decide (c = "/"%char) || hasSlash s'
  end.

(** The path up to and with its last slash. *)
Fixpoint dirOf (s : string) : string :=
  match s with
  | EmptyString => EmptyString
  | String c s' => if hasSlash s then String c (dirOf s') else EmptyString
  end.

(** A host with the directories /srv/data and /dev, the file /etc/hosts and
    a path /root/secret that cannot be looked at; what the loop creates
    exists afterwards; every other call succeeds.  The paths it joins are
    clean, so joining is concatenation. *)
Definition host : OS :=
  {| stat := λ h path,
       if decide (SysMkdir path ∈ h) then Info true
       else if decide (SysOpenFile path ∈ h) then Info false
       else if decide (path ∈ ["/srv/data"; "/dev"]) then Info true
       else if decide (path = "/etc/hosts") then Info false
       else if decide (path = "/root/secret") then StatError
       else NotExist;
     succeeds := λ _ _, true;
     Join := λ a b, a +:+ b;
     SplitDir := dirOf |}.

(** [host], where no file can be created. *)
Definition readOnlyHost : OS :=
  {| stat := stat host;
     succeeds := λ _ c, negb (creates c);
     Join := Join host;
     SplitDir := SplitDir host |}.

Definition bindOf (source target : string) : flyMount :=
  {| HostPath := source; TargetPrefixPath := "/pod/rootfs";
     RelTargetPath := target; Fs := "none";
     Flags := Z.lor syscall.MS_BIND syscall.MS_REC |}.

End executor_samples.

(** Vocabulary for the search of [lookupPath], and a host to run it on. *)
Module lookup_samples.
Import lookup.

(** The test [lookupPath] makes on the mode of a file. *)
Definition executableMode (m : Z) : bool :=
  negb (IsDir m) && negb (Z.land m execBits =? 0).

(** The entry [path] is passed over: its file cannot be looked at, is a
    directory, or has no execute bit. *)
Definition rejected (os : OS) (bin path : string) : Prop :=
  ∃ binAbsPath, Abs os (Join os path bin) = Some binAbsPath
    ∧ (Stat os binAbsPath = None
       ∨ ∃ m, Stat os binAbsPath = Some m ∧ executableMode m = false).

(** The entry [path] holds the executable [binAbsPath]. *)
Definition found (os : OS) (bin path binAbsPath : string) : Prop :=
  Abs os (Join os path bin) = Some binAbsPath
  ∧ ∃ m, Stat os binAbsPath = Some m ∧ executableMode m = true.

(** A host on which /bin/sh is a plain file without execute bit, /sbin/sh a
    directory and /usr/bin/sh an executable; a relative path has no
    absolute one (the working directory is gone). *)
Definition pathHost : OS :=
  {| Join := λ path bin, path +:+ "/" +:+ bin;
     Abs := λ p, if strings.HasPrefix p "/" then Some p else None;
     Stat := λ p,
       if decide (p = "/bin/sh") then Some 420              (* 0644 *)
       else if decide (p = "/sbin/sh") then Some (ModeDir + 493)
       else if decide (p = "/usr/bin/sh") then Some 493     (* 0755 *)
       else None |}.

End lookup_samples.

Module gc_more_samples.
Import gc gc_samples.

(** A system on which /a/b cannot be remounted, and one on which it cannot
    be unmounted. *)
Definition remountFails (c : call) : bool := negb (bool_decide (c = remount "/a/b")).
Definition unmountFails (c : call) : bool := negb (bool_decide (c = unmount "/a/b")).

(** A line that holds the identifier and nothing else. *)
Definition shortLine : string := podID.

End gc_more_samples.

(** Vocabulary for the lines of a file. *)
Module linefile_samples.
Import linefile.

(** The byte [c] occurs in [s]. *)
Fixpoint holds (c : ascii) (s : string) : bool :=
  match s with
  | EmptyString => false
  | String c' s' => bool_decide (c' = c) || holds c s'
  end.

Fixpoint lastByte (s : string) : option ascii :=
  match s with
  | EmptyString => None
  | String c EmptyString => Some c
  | String _ s' => lastByte s'
  end.

(** A line that fits the buffer of the scanner and holds no newline. *)
Definition fits (line : string) : Prop :=
  holds "010" line = false ∧ Z.of_nat (String.length line) < MaxScanTokenSize.

(** A disk without files on which every path can be written. *)
Definition blank : disk := {| files := ∅; writable := λ _, true |}.

End linefile_samples.

(** ** The table of image information (store/aciinfo.go) *)

Module store.

(** [ACIInfo]; a [time.Time] is a number, its zero value 0. *)
Record ACIInfo := {
  BlobKey : string;
  Name : string;
  ImportTime : Z;
  LastUsedTime : Z;
  Latest : bool;
}.

#[global] Instance ACIInfo_eq_dec : EqDecision ACIInfo.
Proof. solve_decision. Defined.

(** [&ACIInfo{}] *)
Definition zeroACIInfo : ACIInfo :=
  {| BlobKey := ""; Name := ""; ImportTime := 0; LastUsedTime := 0; Latest := false |}.

(** [NewACIInfo], with the answer of [time.Now()]. *)
Definition NewACIInfo (now : Z) (blobKey : string) (latest : bool) (t : Z) : ACIInfo :=
  {| BlobKey := blobKey; Name := ""; ImportTime := t; LastUsedTime := now;
     Latest := latest |}.

(** What can go wrong in the database during one call: [tx.Query] or
    [tx.Exec] returns an error, [rows.Scan] fails on a row, or the
    iteration breaks off with an error after a number of rows. *)
Record Faults := {
  queryError : bool;
  scanError : ACIInfo → bool;
  rowsError : option nat;
  deleteError : bool;
  insertError : bool;
}.

(** A transaction [tx] is the rows of the table aciinfo as it sees them, a
    [list ACIInfo]. *)

(** [tx.Query("SELECT * from aciinfo WHERE ...")]: the rows that
    [rows.Next()] yields and whether [rows.Err()] is set once they are
    exhausted; [None] when the query itself fails. *)
Definition Query (f : Faults) (where_ : ACIInfo → bool) (tx : list ACIInfo)
  : option (list ACIInfo * bool) :=
  if queryError f then None
  else let rows := filter (λ r, where_ r = true) tx in
       match rowsError f with
       | None => Some (rows, false)
       | Some n => Some (take n rows, true)
       end.

(** The loop [for rows.Next() { ... }] of the three functions that return
    a slice: [found] is set at every row, a row that cannot be scanned ends
    the function with its error ([None]). *)
Fixpoint scanRows (f : Faults) (rows : list ACIInfo)
    (aciinfos : list ACIInfo) (found : bool) : option (list ACIInfo * bool) :=
  match rows with
  | [] => Some (aciinfos, found)
  | row :: rows' =>
      if scanError f row then None
      else scanRows f rows' (aciinfos ++ [row]) true
  end.

(** The three functions after their query. *)
Definition collect (f : Faults) (cursor : option (list ACIInfo * bool))
  : option (list ACIInfo * bool) :=
  match cursor with
  | None => None
  | Some (rows, err) =>
      match scanRows f rows [] false with
      | None => None
      | Some r => if err then None else Some r
      end
  end.

Definition GetACIInfosWithKeyPrefix (f : Faults) (tx : list ACIInfo)
    (prefix : string) : option (list ACIInfo) :=
  fst <$> collect f (Query f (λ r, strings.HasPrefix (BlobKey r) prefix) tx).

Definition GetACIInfosWithName (f : Faults) (tx : list ACIInfo) (name : string)
  : option (list ACIInfo * bool) :=
  collect f (Query f (λ r, bool_decide (Name r = name)) tx).

(** [GetACIInfoWithBlobKey]: the loop breaks after its first row, so
    [rows.Err()] is set only when there was none. *)
Definition GetACIInfoWithBlobKey (f : Faults) (tx : list ACIInfo)
    (blobKey : string)
  : option (ACIInfo * bool) :=
  match Query f (λ r, bool_decide (BlobKey r = blobKey)) tx with
  | None => None
  | Some ([], err) => if err then None else Some (zeroACIInfo, false)
  | Some (row :: _, _) => if scanError f row then None else Some (row, true)
  end.

(** [GetAllACIInfos]; [orderBy] is what the database makes of
    "ORDER BY <sortfields> ASC|DESC", [None] when it refuses the query. *)
Definition GetAllACIInfos (f : Faults)
    (orderBy : list string → bool → list ACIInfo → option (list ACIInfo))
    (tx : list ACIInfo) (sortfields : list string) (ascending : bool)
  : option (list ACIInfo) :=
  let cursor :=
    if decide (0 < length sortfields)%nat then
      match orderBy sortfields ascending tx with
      | None => None
      | Some sorted => Query f (λ _, true) sorted
      end
    else Query f (λ _, true) tx in
  fst <$> collect f cursor.

(** [tx.Exec("DELETE from aciinfo where blobkey == $1", blobKey)] *)
Definition ExecDelete (blobKey : string) (tx : list ACIInfo) : list ACIInfo :=
  filter (λ r, BlobKey r ≠ blobKey) tx.

(** [tx.Exec("INSERT into aciinfo ... VALUES ...")]: the new row comes to
    stand at a place of the database's choosing. *)
Definition ExecInsert (slot : nat) (row : ACIInfo) (tx : list ACIInfo)
  : list ACIInfo :=
  take slot tx ++ row :: drop slot tx.

(** [WriteACIInfo]: the rows afterwards and whether the error is nil. *)
Definition WriteACIInfo (f : Faults) (slot : nat) (tx : list ACIInfo)
    (aciinfo : ACIInfo) : list ACIInfo * bool :=
  if deleteError f then (tx, false) else
  let tx := ExecDelete (BlobKey aciinfo) tx in
  if insertError f then (tx, false) else
  (ExecInsert slot aciinfo tx, true).

Definition RemoveACIInfo (f : Faults) (tx : list ACIInfo) (blobKey : string)
  : list ACIInfo * bool :=
  if deleteError f then (tx, false) else (ExecDelete blobKey tx, true).

End store.

Module store_samples.
Import store.

(** A database in which nothing goes wrong. *)
Definition sound : Faults :=
  {| queryError := false; scanError := λ _, false; rowsError := None;
     deleteError := false; insertError := false |}.

(** A database that refuses the INSERT only. *)
Definition insertRefused : Faults :=
  {| queryError := false; scanError := λ _, false; rowsError := None;
     deleteError := false; insertError := true |}.

(** No fault stands in the way of a query for one row. *)
Definition readable (f : Faults) (row : ACIInfo) : Prop :=
  queryError f = false ∧ scanError f row = false ∧ rowsError f ≠ Some 0%nat.

Definition etcd (lastUsed : Z) : ACIInfo :=
  {| BlobKey := "sha512-aa"; Name := "coreos.com/etcd"; ImportTime := 10;
     LastUsedTime := lastUsed; Latest := true |}.

Definition busybox : ACIInfo :=
  {| BlobKey := "sha512-bb"; Name := "busybox"; ImportTime := 11;
     LastUsedTime := 11; Latest := false |}.

End store_samples.

(** ** Vocabulary of the statement about the operations of a mount *)

Module operations.
Import fly.

(** A reconciled mount, as the operations are built from it: the volume
    name, the host source, the target path below the root file system of
    the app, and the resolved read-only flag. *)
Record ReconciledMount := {
  rmName : ACName;
  rmSource : string;
  rmTarget : string;
  rmReadOnly : bool;
}.

(** How a reconciled mount follows from the declarations: its name is that
    of a mount of the pod or of a mount point of the image, its target is
    the path of the mounts and mount points of that name, its source is the
    source of the last volume of that name, its flag the one resolved for
    that volume; with no volume of the name the source is empty and the
    flag false. *)
Definition reconciles (ms : list Mount) (mps : list MountPoint) (vols : list Volume)
    (r : ReconciledMount) : Prop :=
  (rmName r ∈ (mVolume <$> ms) ++ (mpName <$> mps))
  ∧ (∀ m, m ∈ ms → mVolume m = rmName r → mPath m = rmTarget r)
  ∧ (∀ mp, mp ∈ mps → mpName mp = rmName r → mpPath mp = rmTarget r)
  ∧ match records.lastNamed (rmName r) vols with
    | Some v =>
        rmSource r = vSource v
        ∧ rmReadOnly r = records.resolvedReadOnly mps v
    | None => rmSource r = "" ∧ rmReadOnly r = false
    end.

End operations.

Module plan_samples.
Import fly samples.

(** Two mount points of "data" that disagree on the path, and a volume
    "spare" that nothing mounts. *)
Definition pointsDisagreeAndSpare : Pod :=
  pod []
      [hostVolume "data" "/srv/data" None; hostVolume "spare" "/srv/spare" None]
      [dataAtMnt; dataAtDataPoint].

(** The volume name "data" mounted twice, and a volume "spare" that nothing
    mounts. *)
Definition duplicateAndSpare : Pod :=
  pod [dataAtData; dataAtSrv] [hostVolume "spare" "/srv/spare" None] [].

End plan_samples.

(** * Properties of [evaluateMounts] *)

Section fly_properties.
Import fly plan samples.


Lemma fold_appendMounts rfs mp ts acc :
  fold_left (appendMounts rfs mp) ts acc = acc ++ flat_map (mountTriple rfs mp) ts.
Proof.
  revert acc. induction ts as [|t ts IH]; intros acc; simpl.
  - by rewrite app_nil_r.
  - rewrite IH. unfold appendMounts, mountTriple, markShared, bindMount,
      remountReadOnly, flags.
    destruct (isReadOnly mp t); simpl; by rewrite <- ?app_assoc.
Qed.

Lemma evaluateMounts_Ok order rfs app p nvm mp :
  reconcile app p = Ok (nvm, mp) →
  evaluateMounts order rfs app p = Ok (flat_map (mountTriple rfs mp) (order nvm).*2).
Proof.
  intros H. unfold evaluateMounts. rewrite H. simpl.
  by rewrite fold_appendMounts.
Qed.

Lemma keyed_empty : keyed ∅.
Proof. intros k t H. by rewrite lookup_empty in H. Qed.

Lemma keyed_insert nvm k t :
  keyed nvm → mVolume (M t) = k → keyed (<[k := t]> nvm).
Proof.
  intros Hk Ht k' t'. rewrite lookup_insert.
  case_decide; [intros [= <-]; by subst | apply Hk].
Qed.

(** *** First loop *)

Lemma addMounts_result ms nvm :
  match forEach addMount ms nvm with
  | Ok nvm' =>
      NoDup (mVolume <$> ms)
      ∧ (∀ m, m ∈ ms → nvm !! mVolume m = None)
      ∧ (∀ m, m ∈ ms → nvm' !! mVolume m = Some {| V := zeroVolume; M := m |})
      ∧ (∀ k, k ∉ mVolume <$> ms → nvm' !! k = nvm !! k)
  | Fatal (FatalDuplicatedMount v) =>
      v ∈ mVolume <$> ms
      ∧ (¬ NoDup (mVolume <$> ms) ∨ ∃ m, m ∈ ms ∧ is_Some (nvm !! mVolume m))
  | _ => False
  end.
Proof.
  revert nvm. induction ms as [|m ms IH]; intros nvm; simpl.
  - split_and!; [constructor | intros m H; by apply elem_of_nil in H
                 | intros m H; by apply elem_of_nil in H | done].
  - unfold addMount at 1. destruct (nvm !! mVolume m) as [t|] eqn:Hm; simpl.
    + split; [left | right; exists m; split; [left | by rewrite Hm]].
    + specialize (IH (<[mVolume m := {| V := zeroVolume; M := m |}]> nvm)).
      destruct (forEach addMount ms _) as [nvm'| |[v|]|]; try done.
      * destruct IH as (Hnd & Hfresh & Hin & Hout).
        assert (Hnotin : mVolume m ∉ mVolume <$> ms).
        { intros (m' & Heq & Hm')%list_elem_of_fmap.
          specialize (Hfresh m' Hm'). rewrite <- Heq in Hfresh.
          by rewrite lookup_insert_eq in Hfresh. }
        split_and!.
        -- by constructor.
        -- intros m' [->|Hm']%elem_of_cons; [done|].
           specialize (Hfresh m' Hm').
           rewrite lookup_insert in Hfresh. by case_decide.
        -- intros m' [->|Hm']%elem_of_cons; [|by apply Hin].
           rewrite (Hout _ Hnotin). by rewrite lookup_insert_eq.
        -- intros k Hk. apply not_elem_of_cons in Hk as [Hne Hk].
           rewrite (Hout _ Hk). by rewrite lookup_insert_ne.
      * destruct IH as (Hv & Hcause). split; [by right|].
        destruct Hcause as [Hnd | (m' & Hm' & Hsome)].
        -- left. intros Hnd'. apply Hnd. by inversion Hnd'.
        -- rewrite lookup_insert in Hsome. case_decide as Heq.
           ++ left. intros Hnd'. inversion Hnd' as [|? ? Hnotin _]; subst.
              apply Hnotin. rewrite Heq. apply list_elem_of_fmap. eauto.
           ++ right. exists m'. split; [by right | done].
Qed.

Lemma addMounts_keyed ms nvm nvm' :
  forEach addMount ms nvm = Ok nvm' → keyed nvm → keyed nvm'.
Proof.
  revert nvm. induction ms as [|m ms IH]; intros nvm; simpl.
  - by intros [= ->].
  - unfold addMount at 1. destruct (nvm !! mVolume m); simpl; [done|].
    intros H Hk. eapply IH; [done|]. by apply keyed_insert.
Qed.

Lemma addMounts_NoDup ms :
  NoDup (mVolume <$> ms) →
  ∃ nvm', forEach addMount ms ∅ = Ok nvm'
    ∧ keyed nvm'
    ∧ (∀ m, m ∈ ms → nvm' !! mVolume m = Some {| V := zeroVolume; M := m |})
    ∧ (∀ k, k ∉ mVolume <$> ms → nvm' !! k = None).
Proof.
  intros Hnd. pose proof (addMounts_result ms ∅) as H.
  destruct (forEach addMount ms ∅) as [nvm'| |[v|]|] eqn:E; try done.
  - exists nvm'. destruct H as (_ & _ & Hin & Hout). split_and!; [done| |done|].
    + eapply addMounts_keyed; [done | apply keyed_empty].
    + intros k Hk. by rewrite (Hout k Hk), lookup_empty.
  - destruct H as (_ & [Hdup | (m & _ & Hsome)]); [done|].
    rewrite lookup_empty in Hsome. by destruct Hsome.
Qed.

Lemma addMounts_dup ms :
  ¬ NoDup (mVolume <$> ms) →
  ∃ v, forEach addMount ms ∅ = Fatal (FatalDuplicatedMount v) ∧ v ∈ mVolume <$> ms.
Proof.
  intros Hdup. pose proof (addMounts_result ms ∅) as H.
  destruct (forEach addMount ms ∅) as [nvm'| |[v|]|] eqn:E; try done.
  - by destruct H as (Hnd & _).
  - exists v. by destruct H.
Qed.

(** *** Second loop *)

Lemma mergeMountPoints_result mps nvm :
  match forEach mergeMountPoint mps nvm with
  | Ok nvm' =>
      (keyed nvm → keyed nvm')
      ∧ (∀ k, is_Some (nvm' !! k) ↔ is_Some (nvm !! k) ∨ k ∈ mpName <$> mps)
      ∧ (∀ k t, nvm !! k = Some t → nvm' !! k = Some t)
      ∧ (∀ k t, nvm' !! k = Some t → V t = zeroVolume ∨ nvm !! k = Some t)
  | Error (ErrConflictingPath name) => name ∈ mpName <$> mps
  | _ => False
  end.
Proof.
  revert nvm. induction mps as [|mp mps IH]; intros nvm; simpl.
  - split_and!; [done | | done | by right].
    intros k. split; [by left | intros [H | H]; [done | by apply elem_of_nil in H]].
  - unfold mergeMountPoint at 1.
    destruct (nvm !! mpName mp) as [t|] eqn:Hmp; simpl.
    + case_decide; simpl; [left|].
      specialize (IH nvm).
      destruct (forEach mergeMountPoint mps nvm) as [nvm'|[]| |]; try done.
      * destruct IH as (Hk & Hdom & Hkeep & Hnew). split_and!; [done| |done|done].
        intros k. rewrite Hdom, elem_of_cons. split; [tauto|].
        intros [H1 | [-> | H1]]; [by left | left; by rewrite Hmp | by right].
      * by right.
    + specialize (IH (<[mpName mp := {| V := zeroVolume;
                       M := {| mVolume := mpName mp; mPath := mpPath mp |} |}]> nvm)).
      destruct (forEach mergeMountPoint mps _) as [nvm'|[]| |]; try done.
      * destruct IH as (Hk & Hdom & Hkeep & Hnew). split_and!.
        -- intros Hkeyed. apply Hk. by apply keyed_insert.
        -- intros k. rewrite Hdom, elem_of_cons, lookup_insert.
           case_decide as Hkk; [subst|clear -Hkk; split; intros; intuition congruence].
           split; [intros _; right; by left | eauto].
        -- intros k t Ht. apply Hkeep. rewrite lookup_insert_ne; [done|].
           intros <-. by rewrite Hmp in Ht.
        -- intros k t Ht. destruct (Hnew k t Ht) as [Hz | Hins]; [by left|].
           rewrite lookup_insert in Hins. case_decide; [|by right].
           left. by injection Hins as <-.
      * by right.
Qed.

Lemma mergeMountPoints_conflict mps nvm mp t :
  mp ∈ mps → nvm !! mpName mp = Some t → mPath (M t) ≠ mpPath mp →
  ∃ name, forEach mergeMountPoint mps nvm = Error (ErrConflictingPath name).
Proof.
  revert nvm. induction mps as [|x mps IH]; intros nvm Hin Ht Hne.
  - by apply elem_of_nil in Hin.
  - simpl. unfold mergeMountPoint at 1.
    apply elem_of_cons in Hin as [<- | Hin].
    + rewrite Ht. rewrite decide_True by done. simpl. eauto.
    + destruct (nvm !! mpName x) as [tx|] eqn:Hx; simpl.
      * case_decide; simpl; [eauto | by apply IH].
      * apply IH; [done | | done].
        rewrite lookup_insert_ne; [done|]. intros Heq. by rewrite <- Heq, Hx in Ht.
Qed.

Lemma mergeMountPoints_agree mps nvm :
  (∀ k t mp, nvm !! k = Some t → mp ∈ mps → mpName mp = k → mPath (M t) = mpPath mp) →
  (∀ mp1 mp2, mp1 ∈ mps → mp2 ∈ mps → mpName mp1 = mpName mp2 →
     mpPath mp1 = mpPath mp2) →
  ∃ nvm', forEach mergeMountPoint mps nvm = Ok nvm'.
Proof.
  revert nvm. induction mps as [|x mps IH]; intros nvm Hrec Hmps; simpl; [eauto|].
  unfold mergeMountPoint at 1.
  destruct (nvm !! mpName x) as [tx|] eqn:Hx; simpl.
  - rewrite decide_False.
    + simpl. apply IH.
      * intros k t mp Ht Hmp. apply Hrec; [done | by right].
      * intros mp1 mp2 H1 H2. apply Hmps; by right.
    + intros Hne. apply Hne. eapply Hrec; [done | by left | done].
  - apply IH.
    + intros k t mp Ht Hmp Hk. rewrite lookup_insert in Ht. case_decide as Heq.
      * injection Ht as <-. simpl. apply Hmps; [by left | by right | congruence].
      * eapply Hrec; [done | by right | done].
    + intros mp1 mp2 H1 H2. apply Hmps; by right.
Qed.

(** *** Third loop *)

Lemma insertVolumes_result vols nvm :
  keyed nvm →
  match forEach insertVolume vols nvm with
  | Ok nvm' =>
      keyed nvm'
      ∧ (∀ k, is_Some (nvm' !! k) ↔ is_Some (nvm !! k))
      ∧ (∀ v, v ∈ vols → is_Some (nvm !! vName v))
  | Error (ErrMissingMount name) => name ∈ vName <$> vols ∧ nvm !! name = None
  | _ => False
  end.
Proof.
  revert nvm. induction vols as [|v vols IH]; intros nvm Hk; simpl.
  - split_and!; [done | done | intros v H; by apply elem_of_nil in H].
  - unfold insertVolume at 1. destruct (nvm !! vName v) as [t|] eqn:Hv; simpl.
    + rewrite decide_False by (intros Hne; apply Hne; by apply Hk). simpl.
      assert (Hdom : ∀ k, is_Some (<[vName v := {| V := v; M := M t |}]> nvm !! k)
                          ↔ is_Some (nvm !! k)).
      { intros k. rewrite lookup_insert. case_decide; subst; [|done].
        rewrite Hv. split; eauto. }
      pose proof (Hk _ _ Hv) as Hkv.
      assert (Hk2 : keyed (<[vName v := {| V := v; M := M t |}]> nvm))
        by (by apply keyed_insert).
      specialize (IH _ Hk2).
      destruct (forEach insertVolume vols _) as [nvm'|[]| |]; try done.
      * destruct IH as (Hk' & Hdom' & Hall).
        split_and!; [done | |].
        -- intros k. by rewrite Hdom', Hdom.
        -- intros v' [-> | Hv']%elem_of_cons; [by rewrite Hv|].
           apply Hdom. by apply Hall.
      * destruct IH as (Hname & Hnone).
        split; [by right|].
        destruct (nvm !! name) eqn:Hn; [|done].
        assert (is_Some (<[vName v:={| V := v; M := M t |}]> nvm !! name)) as Hs
          by (apply Hdom; by rewrite Hn).
        rewrite Hnone in Hs. by destruct Hs.
    + split; [left | done].
Qed.

(** *** The whole of [reconcile] *)

Lemma reconcile_loops app p im a app0 :
  Images p !! app = Some im → head (Apps (Manifest p)) = Some app0 →
  imApp im = Some a →
  reconcile app p =
    (let* nvm := forEach addMount (raMounts app0) ∅ in
     let* nvm := forEach mergeMountPoint (MountPoints a) nvm in
     let* nvm := forEach insertVolume (Volumes (Manifest p)) nvm in
     forEach fillReadOnly (MountPoints a) (nvm, zeroMountPoint)).
Proof.
  intros Him Happ Ha. unfold reconcile. rewrite Him, Happ. simpl.
  destruct (forEach addMount (raMounts app0) ∅); simpl; [|done..].
  by rewrite Ha.
Qed.

Lemma evaluateMounts_failure order rfs app p :
  (∀ e, reconcile app p = Error e → evaluateMounts order rfs app p = Error e)
  ∧ (∀ f, reconcile app p = Fatal f → evaluateMounts order rfs app p = Fatal f)
  ∧ (reconcile app p = Panic → evaluateMounts order rfs app p = Panic).
Proof. unfold evaluateMounts. split_and!; intros; by rewrite H. Qed.

Lemma evaluateMounts_Ok_inv order rfs app p l :
  evaluateMounts order rfs app p = Ok l → ∃ s, reconcile app p = Ok s.
Proof. unfold evaluateMounts. destruct (reconcile app p); simpl; eauto; done. Qed.

Lemma duplicated_mount_fatal order rfs app p im app0 :
  Images p !! app = Some im → head (Apps (Manifest p)) = Some app0 →
  ¬ NoDup (mVolume <$> raMounts app0) →
  ∃ v, v ∈ mVolume <$> raMounts app0
    ∧ evaluateMounts order rfs app p = Fatal (FatalDuplicatedMount v).
Proof.
  intros Him Happ Hdup. destruct (addMounts_dup _ Hdup) as (v & Hv & Hin).
  exists v. split; [done|]. apply evaluateMounts_failure.
  unfold reconcile. rewrite Him, Happ. simpl. by rewrite Hv.
Qed.

Lemma conflict_error order rfs app p im a app0 m mp :
  Images p !! app = Some im → head (Apps (Manifest p)) = Some app0 →
  imApp im = Some a →
  NoDup (mVolume <$> raMounts app0) →
  m ∈ raMounts app0 → mp ∈ MountPoints a →
  mVolume m = mpName mp → mPath m ≠ mpPath mp →
  ∃ name, evaluateMounts order rfs app p = Error (ErrConflictingPath name).
Proof.
  intros Him Happ Ha Hnd Hm Hmp Hname Hpath.
  destruct (addMounts_NoDup _ Hnd) as (nvm1 & H1 & _ & Hin & _).
  destruct (mergeMountPoints_conflict (MountPoints a) nvm1 mp
              {| V := zeroVolume; M := m |}) as (name & H2); [done | | done |].
  { rewrite <- Hname. by apply Hin. }
  exists name. apply evaluateMounts_failure.
  rewrite (reconcile_loops _ _ _ _ _ Him Happ Ha), H1. simpl. by rewrite H2.
Qed.

Lemma unreferenced_volume_not_Ok app p im a app0 v :
  Images p !! app = Some im → head (Apps (Manifest p)) = Some app0 →
  imApp im = Some a →
  v ∈ Volumes (Manifest p) →
  vName v ∉ mVolume <$> raMounts app0 → vName v ∉ mpName <$> MountPoints a →
  match reconcile app p with
  | Ok _ => False
  | Error (ErrMissingMount name) =>
      NoDup (mVolume <$> raMounts app0) ∧ name ∈ vName <$> Volumes (Manifest p)
      ∧ (name ∉ mVolume <$> raMounts app0) ∧ (name ∉ mpName <$> MountPoints a)
  | Error (ErrConflictingPath _) => NoDup (mVolume <$> raMounts app0)
  | Error _ => False
  | Fatal (FatalDuplicatedMount _) => ¬ NoDup (mVolume <$> raMounts app0)
  | _ => False
  end.
Proof.
  intros Him Happ Ha Hv Hnm Hnmp.
  rewrite (reconcile_loops _ _ _ _ _ Him Happ Ha).
  destruct (decide (NoDup (mVolume <$> raMounts app0))) as [Hnd | Hdup].
  2:{ destruct (addMounts_dup _ Hdup) as (w & -> & _). done. }
  destruct (addMounts_NoDup _ Hnd) as (nvm1 & -> & Hk1 & Hin1 & Hout1). simpl.
  pose proof (mergeMountPoints_result (MountPoints a) nvm1) as H2.
  destruct (forEach mergeMountPoint _ nvm1) as [nvm2|[]| |]; simpl; try done.
  destruct H2 as (Hk2 & Hdom2 & _ & _). specialize (Hk2 Hk1).
  pose proof (insertVolumes_result (Volumes (Manifest p)) nvm2 Hk2) as H3.
  destruct (forEach insertVolume _ nvm2) as [nvm3|[]| |]; simpl; try done.
  - destruct H3 as (_ & _ & Hall). apply Hall, Hdom2 in Hv as [Hs | Hs]; [|done].
    rewrite Hout1 in Hs by done. destruct Hs as [? [=]].
  - destruct H3 as (Hname & Hnone). split_and!; [done | done | |].
    + intros (m & -> & Hm)%list_elem_of_fmap.
      assert (is_Some (nvm2 !! mVolume m)) as Hs
        by (apply Hdom2; left; by rewrite (Hin1 m Hm)).
      rewrite Hnone in Hs. by destruct Hs.
    + intros Hin. assert (is_Some (nvm2 !! name)) as Hs by (apply Hdom2; by right).
      rewrite Hnone in Hs. by destruct Hs.
Qed.

(** *** Fourth loop *)

Lemma fillReadOnly_result mps s :
  match forEach fillReadOnly mps s with
  | Ok _ | Fatal (FatalMissingVolume _) => True
  | _ => False
  end.
Proof.
  revert s. induction mps as [|mp mps IH]; intros s; simpl; [done|].
  unfold fillReadOnly at 1.
  destruct (s.1 !! mpName mp) as [t|]; simpl; [|done].
  case_decide; simpl; [done|].
  destruct (vReadOnly (V t)); simpl; apply IH.
Qed.

Lemma missing_mount_error order rfs app p im a app0 v :
  Images p !! app = Some im → head (Apps (Manifest p)) = Some app0 →
  imApp im = Some a →
  v ∈ Volumes (Manifest p) →
  vName v ∉ mVolume <$> raMounts app0 → vName v ∉ mpName <$> MountPoints a →
  NoDup (mVolume <$> raMounts app0) →
  pathsAgree (raMounts app0) (MountPoints a) →
  ∃ name, evaluateMounts order rfs app p = Error (ErrMissingMount name)
    ∧ name ∈ vName <$> Volumes (Manifest p)
    ∧ (name ∉ mVolume <$> raMounts app0) ∧ (name ∉ mpName <$> MountPoints a).
Proof.
  intros Him Happ Ha Hv Hnm Hnmp Hnd [Hagree Hmps].
  pose proof (unreferenced_volume_not_Ok app p im a app0 v Him Happ Ha Hv Hnm Hnmp)
    as Hres.
  destruct (addMounts_NoDup _ Hnd) as (nvm1 & H1 & Hk1 & Hin1 & Hout1).
  destruct (mergeMountPoints_agree (MountPoints a) nvm1) as (nvm2 & H2); [|done|].
  { intros k t mp Ht Hmp Hk.
    destruct (decide (k ∈ mVolume <$> raMounts app0)) as [Hin | Hout].
    - apply list_elem_of_fmap in Hin as (m & -> & Hm).
      rewrite (Hin1 m Hm) in Ht. injection Ht as <-. simpl. by apply Hagree.
    - by rewrite (Hout1 k Hout) in Ht. }
  pose proof (insertVolumes_result (Volumes (Manifest p)) nvm2) as H3.
  pose proof (mergeMountPoints_result (MountPoints a) nvm1) as H2'.
  rewrite H2 in H2'. destruct H2' as (Hk2 & _). specialize (H3 (Hk2 Hk1)).
  rewrite (reconcile_loops _ _ _ _ _ Him Happ Ha), H1 in Hres. simpl in Hres.
  rewrite H2 in Hres. simpl in Hres.
  destruct (forEach insertVolume _ nvm2) as [nvm3|[|name|]| |] eqn:E3; try done.
  - simpl in Hres.
    pose proof (fillReadOnly_result (MountPoints a) (nvm3, zeroMountPoint)) as H4.
    by destruct (forEach fillReadOnly _ _) as [?|[]|[]|].
  - exists name. split; [|by destruct Hres as (_ & ? & ? & ?)].
    apply evaluateMounts_failure.
    rewrite (reconcile_loops _ _ _ _ _ Him Happ Ha), H1. simpl.
    rewrite H2. simpl. by rewrite E3.
Qed.

Lemma remountReadOnly_in_triple rfs mp t :
  remountReadOnly rfs t ∈ mountTriple rfs mp t ↔ isReadOnly mp t = true.
Proof.
  unfold mountTriple. destruct (isReadOnly mp t); simpl.
  - split; [done|]. intros _. do 2 right. left.
  - split; [|done]. intros H.
    apply elem_of_cons in H as [H | H]; [by injection H|].
    apply elem_of_cons in H as [H | H]; [by injection H|].
    by apply elem_of_nil in H.
Qed.

Lemma validRange_keyOrder : validRange keyOrder.
Proof. intros m. reflexivity. Qed.

Lemma validRange_reverseKeyOrder : validRange reverseKeyOrder.
Proof. intros m. apply reverse_Permutation. Qed.

(** C4, as stated, fails: for the pod [twoVolumes] the range over the map
    may visit "data" before "logs" in one run and after it in another, and
    the two returned lists differ. *)
Lemma evaluateMounts_runs_differ :
  validRange keyOrder ∧ validRange reverseKeyOrder
  ∧ evaluateMounts keyOrder "/rfs" "app" twoVolumes
    ≠ evaluateMounts reverseKeyOrder "/rfs" "app" twoVolumes.
Proof.
  split_and!; [apply validRange_keyOrder | apply validRange_reverseKeyOrder |].
  vm_compute. discriminate.
Qed.

(** C4, amended. Two runs of [evaluateMounts] on the same arguments, each
    with its own order of the range over the map, end alike when they fail;
    when they succeed, both lists are concatenations of the same triples,
    one per tuple, taken in two orders of the tuples: the lists are equal up
    to the order of the volumes, and the operations of one volume keep
    their order. *)
Theorem evaluateMounts_two_runs order1 order2 rfs app p :
  validRange order1 → validRange order2 →
  match evaluateMounts order1 rfs app p, evaluateMounts order2 rfs app p with
  | Ok l1, Ok l2 =>
      ∃ mp ts1 ts2, ts1 ≡ₚ ts2
        ∧ l1 = flat_map (mountTriple rfs mp) ts1
        ∧ l2 = flat_map (mountTriple rfs mp) ts2
        ∧ l1 ≡ₚ l2
  | r1, r2 => r1 = r2
  end.
Proof.
  intros H1 H2. destruct (reconcile app p) as [[nvm mp]|e|f|] eqn:Hrec.
  - rewrite !(evaluateMounts_Ok _ _ _ _ _ _ Hrec).
    exists mp, (order1 nvm).*2, (order2 nvm).*2.
    assert ((order1 nvm).*2 ≡ₚ (order2 nvm).*2) as Hp by (by rewrite (H1 nvm), (H2 nvm)).
    split_and!; [done | done | done |].
    rewrite !flat_map_concat_map. by rewrite Hp.
  - pose proof (evaluateMounts_failure order1 rfs app p) as (F1 & _).
    pose proof (evaluateMounts_failure order2 rfs app p) as (F2 & _).
    by rewrite (F1 e Hrec), (F2 e Hrec).
  - pose proof (evaluateMounts_failure order1 rfs app p) as (_ & F1 & _).
    pose proof (evaluateMounts_failure order2 rfs app p) as (_ & F2 & _).
    by rewrite (F1 f Hrec), (F2 f Hrec).
  - pose proof (evaluateMounts_failure order1 rfs app p) as (_ & _ & F1).
    pose proof (evaluateMounts_failure order2 rfs app p) as (_ & _ & F2).
    by rewrite (F1 Hrec), (F2 Hrec).
Qed.

Lemma evaluateMounts_two_runs_witness :
  match evaluateMounts keyOrder "/rfs" "app" twoVolumes,
        evaluateMounts reverseKeyOrder "/rfs" "app" twoVolumes with
  | Ok l1, Ok l2 =>
      ∃ mp ts1 ts2, ts1 ≡ₚ ts2
        ∧ l1 = flat_map (mountTriple "/rfs" mp) ts1
        ∧ l2 = flat_map (mountTriple "/rfs" mp) ts2
        ∧ l1 ≡ₚ l2
  | r1, r2 => r1 = r2
  end.
Proof.
  apply (evaluateMounts_two_runs keyOrder reverseKeyOrder "/rfs" "app" twoVolumes).
  - apply validRange_keyOrder.
  - apply validRange_reverseKeyOrder.
Defined.

(** C5, as stated, fails: in the pod [duplicatedMount] the mount point
    "data" declares /mnt and a pod-level mount of "data" declares /data, yet
    the run ends in the fatal exit for the duplicated mount, before the
    paths are compared, and not in the conflict error. *)
Lemma conflict_preempted_by_duplicate :
  dataAtData ∈ raMounts (firstApp [dataAtData; dataAtSrv])
  ∧ dataAtMnt ∈ MountPoints (imageApp [dataAtMnt])
  ∧ mVolume dataAtData = mpName dataAtMnt
  ∧ mPath dataAtData ≠ mpPath dataAtMnt
  ∧ evaluateMounts keyOrder "/rfs" "app" duplicatedMount
    = Fatal (FatalDuplicatedMount "data")
  ∧ ¬ ∃ name, evaluateMounts keyOrder "/rfs" "app" duplicatedMount
              = Error (ErrConflictingPath name).
Proof.
  split_and!; [by left | by left | done | done | by vm_compute |].
  intros [name H]. vm_compute in H. discriminate.
Qed.

(** C5, amended. When a mount point of the app's image and a mount of the
    pod's first app have the same name and different paths, [evaluateMounts]
    returns no list of mounts; it returns the conflict error when no volume
    name occurs twice among the pod-level mounts, and otherwise ends in the
    fatal exit for the duplicated mount. *)
Theorem conflict_detected order rfs app p im a app0 m mp :
  Images p !! app = Some im → head (Apps (Manifest p)) = Some app0 →
  imApp im = Some a →
  m ∈ raMounts app0 → mp ∈ MountPoints a →
  mVolume m = mpName mp → mPath m ≠ mpPath mp →
  (∀ l, evaluateMounts order rfs app p ≠ Ok l)
  ∧ (NoDup (mVolume <$> raMounts app0) →
       ∃ name, evaluateMounts order rfs app p = Error (ErrConflictingPath name))
  ∧ (¬ NoDup (mVolume <$> raMounts app0) →
       ∃ v, evaluateMounts order rfs app p = Fatal (FatalDuplicatedMount v)).
Proof.
  intros Him Happ Ha Hm Hmp Hname Hpath.
  assert (Hc : NoDup (mVolume <$> raMounts app0) →
    ∃ name, evaluateMounts order rfs app p = Error (ErrConflictingPath name))
    by (intros Hnd; by eapply conflict_error).
  assert (Hd : ¬ NoDup (mVolume <$> raMounts app0) →
    ∃ v, evaluateMounts order rfs app p = Fatal (FatalDuplicatedMount v)).
  { intros Hdup.
    destruct (duplicated_mount_fatal order rfs app p im app0 Him Happ Hdup)
      as (v & _ & Hv). eauto. }
  split_and!; [|done|done].
  intros l Hl. destruct (decide (NoDup (mVolume <$> raMounts app0))) as [Hnd|Hdup].
  - destruct (Hc Hnd) as [name Hn]. congruence.
  - destruct (Hd Hdup) as [v Hv]. congruence.
Qed.

Lemma conflict_detected_witness :
  (∃ name, evaluateMounts keyOrder "/rfs" "app" conflictingPaths
           = Error (ErrConflictingPath name))
  ∧ (∃ v, evaluateMounts keyOrder "/rfs" "app" duplicatedMount
          = Fatal (FatalDuplicatedMount v)).
Proof.
  split.
  - destruct (conflict_detected keyOrder "/rfs" "app" conflictingPaths
                (image [dataAtMnt]) (imageApp [dataAtMnt]) (firstApp [dataAtData])
                dataAtData dataAtMnt) as (_ & H & _).
    + reflexivity.
    + reflexivity.
    + reflexivity.
    + simpl. by left.
    + simpl. by left.
    + reflexivity.
    + simpl. discriminate.
    + apply H. simpl. apply NoDup_singleton.
  - destruct (conflict_detected keyOrder "/rfs" "app" duplicatedMount
                (image [dataAtMnt]) (imageApp [dataAtMnt])
                (firstApp [dataAtData; dataAtSrv])
                dataAtData dataAtMnt) as (_ & _ & H).
    + reflexivity.
    + reflexivity.
    + reflexivity.
    + simpl. by left.
    + simpl. by left.
    + reflexivity.
    + simpl. discriminate.
    + apply H. simpl. intros Hnd. inversion Hnd as [|? ? Hnotin _]; subst.
      apply Hnotin. by left.
Defined.

(** C6, as stated, fails: for the pod [duplicatedMount], whose first app
    mounts "data" twice, [evaluateMounts] returns no error value to its
    caller; it ends the process through log.Fatalf. *)
Lemma duplicated_mount_not_returned :
  ¬ NoDup (mVolume <$> raMounts (firstApp [dataAtData; dataAtSrv]))
  ∧ evaluateMounts keyOrder "/rfs" "app" duplicatedMount
    = Fatal (FatalDuplicatedMount "data")
  ∧ ¬ ∃ e, evaluateMounts keyOrder "/rfs" "app" duplicatedMount = Error e.
Proof.
  split_and!.
  - intros H. inversion H as [|? ? Hnotin _]; subst. apply Hnotin. by left.
  - by vm_compute.
  - intros [e H]. vm_compute in H. discriminate.
Qed.

(** C6, amended. When a volume name occurs twice among the mounts of the
    pod's first app (and the image of the app is loaded), [evaluateMounts]
    ends the process through log.Fatalf with the message for a duplicated
    mount, naming a volume of these mounts; it returns neither a list of
    mounts nor an error value. *)
Theorem duplicated_mount_exits order rfs app p im app0 :
  Images p !! app = Some im → head (Apps (Manifest p)) = Some app0 →
  ¬ NoDup (mVolume <$> raMounts app0) →
  ∃ v, v ∈ mVolume <$> raMounts app0
    ∧ evaluateMounts order rfs app p = Fatal (FatalDuplicatedMount v)
    ∧ (∀ l, evaluateMounts order rfs app p ≠ Ok l)
    ∧ (∀ e, evaluateMounts order rfs app p ≠ Error e).
Proof.
  intros Him Happ Hdup.
  destruct (duplicated_mount_fatal order rfs app p im app0 Him Happ Hdup)
    as (v & Hin & Hv).
  exists v. rewrite Hv. by split_and!.
Qed.

Lemma duplicated_mount_exits_witness :
  ∃ v, v ∈ mVolume <$> raMounts (firstApp [dataAtData; dataAtSrv])
    ∧ evaluateMounts keyOrder "/rfs" "app" duplicatedMount
      = Fatal (FatalDuplicatedMount v)
    ∧ (∀ l, evaluateMounts keyOrder "/rfs" "app" duplicatedMount ≠ Ok l)
    ∧ (∀ e, evaluateMounts keyOrder "/rfs" "app" duplicatedMount ≠ Error e).
Proof.
  apply (duplicated_mount_exits keyOrder "/rfs" "app" duplicatedMount
           (image [dataAtMnt]) (firstApp [dataAtData; dataAtSrv])).
  - reflexivity.
  - reflexivity.
  - simpl. intros H. inversion H as [|? ? Hnotin _]; subst. apply Hnotin. by left.
Defined.

(** When the fourth loop is over, its range variable holds the last mount
    point of the image. *)
Lemma fillReadOnly_range_variable mps nvm mp0 nvm' mp :
  forEach fillReadOnly mps (nvm, mp0) = Ok (nvm', mp) → mp = last_def mp0 mps.
Proof.
  revert nvm mp0. induction mps as [|x mps IH]; intros nvm mp0; simpl.
  - by intros [= _ ->].
  - unfold fillReadOnly at 1. simpl.
    destruct (nvm !! mpName x) as [t|]; simpl; [|done].
    case_decide; simpl; [done|].
    destruct (vReadOnly (V t)); simpl; intros ->%IH; unfold last_def;
      rewrite last_cons; by destruct (last mps).
Qed.

(** C7 fails on the code. In the pod [twoVolumes] the volume "data" leaves
    read-only unset and its mount point declares it true; the mount point
    "logs", which comes last, declares it false.  Whichever way the range
    over the map goes, no read-only remount is among the returned mounts:
    the pointer stored for "data" is the address of the range variable,
    which holds the last mount point once the loop is over. *)
Theorem readonly_default_lost :
  evaluateMounts reverseKeyOrder "/rfs" "app" twoVolumes =
    Ok [ {| HostPath := ""; TargetPrefixPath := ""; RelTargetPath := "/srv/data";
            Fs := "none"; Flags := 1064960 |};
         {| HostPath := "/srv/data"; TargetPrefixPath := "/rfs";
            RelTargetPath := "/data"; Fs := "none"; Flags := 20480 |};
         {| HostPath := ""; TargetPrefixPath := ""; RelTargetPath := "/srv/logs";
            Fs := "none"; Flags := 1064960 |};
         {| HostPath := "/srv/logs"; TargetPrefixPath := "/rfs";
            RelTargetPath := "/logs"; Fs := "none"; Flags := 20480 |} ]
  ∧ evaluateMounts keyOrder "/rfs" "app" twoVolumes =
    Ok [ {| HostPath := ""; TargetPrefixPath := ""; RelTargetPath := "/srv/logs";
            Fs := "none"; Flags := 1064960 |};
         {| HostPath := "/srv/logs"; TargetPrefixPath := "/rfs";
            RelTargetPath := "/logs"; Fs := "none"; Flags := 20480 |};
         {| HostPath := ""; TargetPrefixPath := ""; RelTargetPath := "/srv/data";
            Fs := "none"; Flags := 1064960 |};
         {| HostPath := "/srv/data"; TargetPrefixPath := "/rfs";
            RelTargetPath := "/data"; Fs := "none"; Flags := 20480 |} ].
Proof. split; by vm_compute. Qed.

(** C8, as stated, fails: in the pod [conflictAndSpare] no mount and no
    mount point names the volume "spare", yet [evaluateMounts] returns the
    conflict error of "data", which it finds first. *)
Lemma missing_mount_preempted_by_conflict :
  hostVolume "spare" "/srv/spare" None ∈ Volumes (Manifest conflictAndSpare)
  ∧ ("spare" ∉ mVolume <$> raMounts (firstApp [dataAtData]))
  ∧ ("spare" ∉ mpName <$> MountPoints (imageApp [dataAtMnt]))
  ∧ evaluateMounts keyOrder "/rfs" "app" conflictAndSpare
    = Error (ErrConflictingPath "data")
  ∧ ¬ ∃ name, evaluateMounts keyOrder "/rfs" "app" conflictAndSpare
              = Error (ErrMissingMount name).
Proof.
  split_and!.
  - simpl. by left.
  - simpl. by intros [=]%list_elem_of_singleton.
  - simpl. by intros [=]%list_elem_of_singleton.
  - by vm_compute.
  - intros [name H]. vm_compute in H. discriminate.
Qed.

End fly_properties.

(** * Properties of [stage1] *)

Section stage1_properties.
Import fly stage1 samples stage1_samples.

Lemma mountAll_events env ms e :
  e ∈ (mountAll env ms).1 → ∃ m, e = EvMount m.
Proof.
  induction ms as [|m ms IH]; simpl.
  - by intros ?%elem_of_nil.
  - destruct (applyMount env m); simpl.
    + intros [-> | H]%elem_of_cons; eauto.
    + intros ->%list_elem_of_singleton. eauto.
Qed.

(** Decides a membership in an explicit trace. *)
Ltac trace_cases H :=
  repeat first
    [ apply elem_of_app in H as [H | H]
    | apply elem_of_cons in H as [H | H]
    | apply elem_of_nil in H; destruct H
    | apply mountAll_events in H as [? H] ];
  try discriminate H.

Local Opaque mountAll evaluateMounts.

(** The code [stage1] returns for each fatal class. *)
Lemma class_exit_code env c :
  failsWith c env → (stage1 env).2 = Return (classCode c).
Proof.
  unfold failsWith, stage1, execApp. intros H.
  destruct c; simpl in H;
    repeat (case_match; simpl in *; try done); trace_cases H.
Qed.

Lemma return_zero_iff env :
  (stage1 env).2 = Return 0
  ↔ ∃ args, EvExec args ∈ (stage1 env).1 ∧ exec env args = true.
Proof.
  unfold stage1, execApp. split.
  - intros H. repeat (case_match; simpl in *; try done).
    eexists. split; [|done].
    do 2 right. apply elem_of_app. right. do 4 right. by left.
  - intros (args & H & Hexec).
    repeat (case_match; simpl in *; try done); trace_cases H; congruence.
Qed.

Lemma apps_not_one env p :
  newUUID env = true → loadPod env = Some p →
  length (Apps (Manifest p)) ≠ 1%nat →
  stage1 env = ([], LogFatal).
Proof.
  intros Hu Hp Hn. unfold stage1. rewrite Hu, Hp. simpl.
  by rewrite decide_True.
Qed.

Local Transparent evaluateMounts.

Lemma evaluateMounts_first_app order rfs app p p' :
  Images p = Images p' →
  Volumes (Manifest p) = Volumes (Manifest p') →
  raMounts <$> head (Apps (Manifest p)) = raMounts <$> head (Apps (Manifest p')) →
  evaluateMounts order rfs app p = evaluateMounts order rfs app p'.
Proof.
  intros Him Hvol Happ. unfold evaluateMounts, reconcile.
  rewrite Him, Hvol.
  destruct (head (Apps (Manifest p))) as [a|], (head (Apps (Manifest p'))) as [a'|];
    simpl in Happ; try done.
  injection Happ as Heq.
  destruct (Images p' !! app); simpl; [|done]. by rewrite Heq.
Qed.

(** C9, as stated, fails: a malformed identifier and a pod that does not
    load are two fatal classes, and [stage1] leaves with the same code, 1,
    for both. *)
Lemma exit_code_shared :
  failsWith MalformedIdentifier malformedUUID
  ∧ failsWith PodLoadFailure podNotLoaded
  ∧ MalformedIdentifier ≠ PodLoadFailure
  ∧ exitCode (stage1 malformedUUID).2 = 1
  ∧ exitCode (stage1 podNotLoaded).2 = 1.
Proof.
  split_and!; [by left | by left | done | done | done].
Qed.

(** C9, amended. [stage1] returns 0 exactly when it called exec and exec
    returned no error.  For each fatal class it returns a code that is not
    zero: 1 for a malformed identifier, 1 again for a pod that does not
    load, 4 when the ppid file cannot be written and 7 when exec (or the
    change of the lock's close-on-exec flag around it) fails; 4 and 7 belong
    to one class each. *)
Theorem stage1_exit_codes env :
  ((stage1 env).2 = Return 0
   ↔ ∃ args, EvExec args ∈ (stage1 env).1 ∧ exec env args = true)
  ∧ (∀ c, failsWith c env →
       (stage1 env).2 = Return (classCode c) ∧ exitCode (stage1 env).2 ≠ 0)
  ∧ classCode MalformedIdentifier = 1 ∧ classCode PodLoadFailure = 1
  ∧ classCode PpidWriteFailure = 4 ∧ classCode ExecFailure = 7
  ∧ (∀ c, classCode c = 4 → c = PpidWriteFailure)
  ∧ (∀ c, classCode c = 7 → c = ExecFailure).
Proof.
  split_and!; try done.
  - apply return_zero_iff.
  - intros c Hc. rewrite (class_exit_code env c Hc). split; [done|]. by destruct c.
  - by intros [].
  - by intros [].
Qed.

Lemma stage1_exit_codes_witness :
  (stage1 malformedUUID).2 = Return (classCode MalformedIdentifier)
  ∧ exitCode (stage1 malformedUUID).2 ≠ 0.
Proof.
  apply (proj1 (proj2 (stage1_exit_codes malformedUUID)) MalformedIdentifier).
  by left.
Defined.

(** C10. When the manifest of the loaded pod does not declare exactly one
    app, [stage1] ends in log.Fatalf having made no call at all: it has
    neither called [evaluateMounts] nor applied a mount.  And what
    [evaluateMounts] returns depends on the apps of the manifest only
    through the mounts of the first one. *)
Theorem only_first_app :
  (∀ env p, newUUID env = true → loadPod env = Some p →
     length (Apps (Manifest p)) ≠ 1%nat →
     stage1 env = ([], LogFatal)
     ∧ (∀ rfs app, EvEvaluateMounts rfs app ∉ (stage1 env).1)
     ∧ (∀ m, EvMount m ∉ (stage1 env).1))
  ∧ (∀ order rfs app p p',
       Images p = Images p' →
       Volumes (Manifest p) = Volumes (Manifest p') →
       raMounts <$> head (Apps (Manifest p)) = raMounts <$> head (Apps (Manifest p')) →
       evaluateMounts order rfs app p = evaluateMounts order rfs app p').
Proof.
  split.
  - intros env p Hu Hp Hn. rewrite (apps_not_one env p Hu Hp Hn).
    split_and!; [done | |]; intros; apply not_elem_of_nil.
  - apply evaluateMounts_first_app.
Qed.

Lemma only_first_app_witness :
  (stage1 (env true (Some twoApps) true true) = ([], LogFatal)
   ∧ (∀ rfs app, EvEvaluateMounts rfs app ∉ (stage1 (env true (Some twoApps) true true)).1)
   ∧ (∀ m, EvMount m ∉ (stage1 (env true (Some twoApps) true true)).1))
  ∧ evaluateMounts keyOrder "/rfs" "app" oneVolume
    = evaluateMounts keyOrder "/rfs" "app" oneVolumeMore.
Proof.
  split.
  - apply (proj1 only_first_app (env true (Some twoApps) true true) twoApps).
    + reflexivity.
    + reflexivity.
    + simpl. lia.
  - apply (proj2 only_first_app keyOrder "/rfs" "app" oneVolume oneVolumeMore).
    + reflexivity.
    + reflexivity.
    + reflexivity.
Defined.

End stage1_properties.

(** * Properties of the reaper *)

Section gc_properties.
Import gc gc_samples.

(** ** The order of Go strings *)

Lemma ascii_compare_refl c : Ascii.compare c c = Eq.
Proof. unfold Ascii.compare. apply N.compare_refl. Qed.

Lemma compare_refl s : String.compare s s = Eq.
Proof. induction s as [|c s IH]; simpl; [done|]. by rewrite ascii_compare_refl. Qed.

Lemma ascii_compare_trans c1 c2 c3 :
  Ascii.compare c1 c2 = Lt → Ascii.compare c2 c3 = Lt → Ascii.compare c1 c3 = Lt.
Proof. unfold Ascii.compare. rewrite !N.compare_lt_iff. lia. Qed.

Lemma compare_lt_trans s1 s2 s3 :
  String.compare s1 s2 = Lt → String.compare s2 s3 = Lt → String.compare s1 s3 = Lt.
Proof.
  revert s2 s3. induction s1 as [|c1 s1 IH]; intros [|c2 s2] [|c3 s3]; simpl; try done.
  destruct (Ascii.compare c1 c2) eqn:E12; try done;
    destruct (Ascii.compare c2 c3) eqn:E23; try done.
  - apply Ascii.compare_eq_iff in E12 as ->, E23 as ->.
    rewrite ascii_compare_refl. apply IH.
  - apply Ascii.compare_eq_iff in E12 as ->. by rewrite E23.
  - apply Ascii.compare_eq_iff in E23 as <-. by rewrite E12.
  - by rewrite (ascii_compare_trans _ _ _ E12 E23).
Qed.

#[local] Instance le_total : Total strings.le.
Proof. intros a b. apply String.leb_total. Qed.

#[local] Instance le_antisymm : AntiSymm (=) strings.le.
Proof. intros a b. apply String.leb_antisym. Qed.

#[local] Instance le_trans : Transitive strings.le.
Proof.
  intros a b c. unfold strings.le, String.leb.
  destruct (String.compare a b) eqn:Eab; [| |done].
  - apply String.compare_eq_iff in Eab as ->. done.
  - destruct (String.compare b c) eqn:Ebc; [| |done].
    + apply String.compare_eq_iff in Ebc as ->. by rewrite Eab.
    + by rewrite (compare_lt_trans _ _ _ Eab Ebc).
Qed.

#[local] Instance ge_antisymm : AntiSymm (=) (flip strings.le).
Proof. intros a b H1 H2. by apply (anti_symm strings.le). Qed.

#[local] Instance ge_trans : Transitive (flip strings.le).
Proof. intros a b c H1 H2. unfold flip in *. by transitivity b. Qed.

#[local] Instance ge_total : Total (flip strings.le).
Proof. intros a b. unfold flip. apply (total strings.le). Qed.

(** A string is not above its continuations. *)
Lemma prefix_le a d : String.prefix a d = true → strings.le a d.
Proof.
  unfold strings.le, String.leb.
  revert d. induction a as [|c a IH]; intros [|c' d]; simpl; try done.
  destruct (Ascii.ascii_dec c c') as [<-|]; [|done].
  rewrite ascii_compare_refl. apply IH.
Qed.

(** ** Sorting *)

Lemma sortStrings_sorted l : StronglySorted strings.le (sortStrings l).
Proof. apply StronglySorted_merge_sort; apply _. Qed.

Lemma sortStrings_perm l : sortStrings l ≡ₚ l.
Proof. apply merge_sort_Permutation. Qed.

(** Whatever the algorithm, an ascending rearrangement of the slice is
    [sortStrings]. *)
Lemma sortStrings_unique l l' :
  Sorted strings.le l' → l' ≡ₚ l → l' = sortStrings l.
Proof.
  intros Hs Hp. apply (Sorted_unique strings.le); [done | |].
  - apply Sorted_merge_sort; apply _.
  - by rewrite Hp, sortStrings_perm.
Qed.

Lemma sortStringsReverse_sorted l :
  sortStringsReverse (sortStrings l) = reverse (sortStrings l).
Proof.
  apply (Sorted_unique (flip strings.le)).
  - apply Sorted_merge_sort; apply _.
  - apply Sorted_reverse, Sorted_merge_sort; apply _.
  - unfold sortStringsReverse. by rewrite merge_sort_Permutation, reverse_Permutation.
Qed.

(** ** The scan of the mount table *)

Lemma unseen_filter seen fields :
  unseen seen fields = filter (λ x, x ∉ seen) (firstSeen fields).
Proof.
  revert seen. induction fields as [|x fields IH]; intros seen; simpl; [done|].
  rewrite filter_cons. destruct (decide (x ∈ seen)) as [Hin | Hout]; simpl.
  - rewrite decide_False by (by intros ?). rewrite IH.
    rewrite list_filter_filter. apply list_filter_iff. intros y.
    split; [intros ?; split; [done | by intros ->] | by intros [? _]].
  - rewrite decide_True by done. f_equal. rewrite IH.
    rewrite list_filter_filter. apply list_filter_iff. intros y.
    rewrite elem_of_union, elem_of_singleton. tauto.
Qed.

Lemma unseen_empty fields : unseen ∅ fields = firstSeen fields.
Proof.
  rewrite unseen_filter. induction (firstSeen fields) as [|x l IH]; [done|].
  rewrite filter_cons. rewrite decide_True by apply not_elem_of_empty.
  by rewrite IH.
Qed.

Lemma firstSeen_elem_of fields x : x ∈ firstSeen fields ↔ x ∈ fields.
Proof.
  induction fields as [|y fields IH]; simpl; [done|].
  rewrite !elem_of_cons, list_elem_of_filter, IH.
  destruct (decide (x = y)); tauto.
Qed.

Lemma firstSeen_NoDup fields : NoDup (firstSeen fields).
Proof.
  induction fields as [|y fields IH]; simpl; [constructor|].
  constructor; [|by apply NoDup_filter].
  rewrite list_elem_of_filter. tauto.
Qed.

Lemma scanLines_fields podID lines fields seen l :
  mountFields podID lines = Some fields →
  scanLines podID lines (seen, l)
  = Some (list_to_set fields ∪ seen, l ++ unseen seen fields).
Proof.
  revert fields seen l.
  induction lines as [|line lines IH]; intros fields seen l; simpl.
  - intros [= <-]. simpl. f_equal.
    f_equal; [by rewrite (left_id_L ∅ (∪)) | by rewrite app_nil_r].
  - unfold scanLine. destruct (MatchString podID line); [|apply IH].
    destruct (strings.Split " " line !! 4%nat) as [mount|]; [|done].
    destruct (mountFields podID lines) as [fields'|] eqn:E; [|done].
    intros [= <-]. simpl. destruct (decide (mount ∈ seen)).
    + rewrite (IH fields' seen l eq_refl). f_equal. f_equal.
      apply set_eq. intros x. rewrite !elem_of_union, elem_of_singleton.
      intuition (subst; auto).
    + rewrite (IH fields' _ _ eq_refl). f_equal.
      f_equal; [|by rewrite <- app_assoc].
      apply set_eq. intros x. rewrite !elem_of_union, elem_of_singleton. tauto.
Qed.

Lemma scanLines_panic podID lines s :
  mountFields podID lines = None → scanLines podID lines s = None.
Proof.
  revert s. induction lines as [|line lines IH]; intros s; simpl; [done|].
  unfold scanLine. destruct (MatchString podID line); [|apply IH].
  destruct (strings.Split " " line !! 4%nat) as [mount|]; [|done].
  destruct (mountFields podID lines) as [fields'|] eqn:E; [done|].
  intros _. destruct (decide (mount ∈ s.1)); by apply IH.
Qed.

Lemma mountFields_no_match podID lines :
  (∀ line, line ∈ lines → MatchString podID line = false) →
  mountFields podID lines = Some [].
Proof.
  induction lines as [|line lines IH]; intros H; simpl; [done|].
  rewrite (H line) by (by left). apply IH. intros l Hl. apply H. by right.
Qed.

(** ** The two loops of system calls *)

Lemma forAll_prefix sys mk l : (forAll sys mk l).1 `prefix_of` (mk <$> l).
Proof.
  induction l as [|x l IH]; simpl; [done|].
  destruct (sys (mk x)); simpl; [by apply prefix_cons|].
  apply prefix_cons, prefix_nil.
Qed.

Lemma forAll_done sys mk l : (forAll sys mk l).2 = true → (forAll sys mk l).1 = mk <$> l.
Proof.
  induction l as [|x l IH]; simpl; [done|].
  destruct (sys (mk x)); simpl; [|done]. intros H. by rewrite IH.
Qed.

Lemma forAll_success sys mk l :
  (∀ x, x ∈ l → sys (mk x) = true) → forAll sys mk l = (mk <$> l, true).
Proof.
  induction l as [|x l IH]; intros H; simpl; [done|].
  rewrite (H x) by (by left). rewrite IH; [done|]. intros y Hy. apply H. by right.
Qed.

(** ** [main] *)

Lemma main_calls podID lines fields sys :
  mountFields podID lines = Some fields →
  let ascending := sortStrings (firstSeen fields) in
  let calls := (remount <$> ascending) ++ (unmount <$> reverse ascending) in
  (main (Some podID) (Some lines) sys).1 `prefix_of` calls
  ∧ ((∀ c, c ∈ calls → sys c = true) →
       main (Some podID) (Some lines) sys = (calls, Exit 0)).
Proof.
  intros Hf. cbv zeta. unfold main.
  rewrite (scanLines_fields _ _ _ _ _ Hf). simpl. rewrite unseen_empty.
  destruct (decide (length (firstSeen fields) = 0%nat)) as [Hlen | Hlen].
  { simpl. split; [apply prefix_nil|]. intros _.
    apply nil_length_inv in Hlen. by rewrite Hlen. }
  rewrite sortStringsReverse_sorted.
  set (ascending := sortStrings (firstSeen fields)). split.
  - destruct (forAll sys remount ascending).2 eqn:E1; simpl.
    + rewrite (forAll_done _ _ _ E1).
      destruct (forAll sys unmount (reverse ascending)).2; simpl;
        apply prefix_app, forAll_prefix.
    + apply prefix_app_r, forAll_prefix.
  - intros Hall. rewrite !forAll_success; [done | |].
    + intros x Hx. apply Hall, elem_of_app. right. by apply list_elem_of_fmap_2.
    + intros x Hx. apply Hall, elem_of_app. left. by apply list_elem_of_fmap_2.
Qed.

Lemma sorted_lookup_lt (l : list string) i j a d :
  StronglySorted strings.le l → l !! i = Some a → l !! j = Some d →
  strings.le a d → a ≠ d → (i < j)%nat.
Proof.
  intros Hs Hi Hj Hle Hne.
  destruct (decide (i < j)%nat) as [|Hge]; [done|]. exfalso.
  destruct (decide (i = j)) as [-> | Hij]; [congruence|].
  assert (j < i)%nat as Hlt by lia.
  rewrite <- (take_drop i l) in Hs.
  apply Hne, (anti_symm strings.le); [done|].
  eapply (StronglySorted_app_1_elem_of _ _ _ d a Hs).
  - apply list_elem_of_lookup. exists j. by rewrite lookup_take_lt.
  - apply list_elem_of_lookup. exists 0%nat. rewrite lookup_drop.
    by rewrite Nat.add_0_r.
Qed.

Lemma children_first (ascending : list string) a d i j :
  StronglySorted strings.le ascending →
  reverse ascending !! i = Some a → reverse ascending !! j = Some d →
  String.prefix a d = true → a ≠ d → (j < i)%nat.
Proof.
  intros Hs Hi Hj Hpre Hne.
  pose proof (lookup_lt_Some _ _ _ Hi) as Hli.
  pose proof (lookup_lt_Some _ _ _ Hj) as Hlj.
  rewrite length_reverse in Hli, Hlj.
  rewrite reverse_lookup in Hi, Hj by done.
  pose proof (sorted_lookup_lt _ _ _ _ _ Hs Hi Hj (prefix_le _ _ Hpre) Hne). lia.
Qed.

Lemma main_unfold podID lines fields sys :
  mountFields podID lines = Some fields →
  main (Some podID) (Some lines) sys
  = (if decide (length (firstSeen fields) = 0%nat) then ([], Exit 0) else
     let ascending := sortStrings (firstSeen fields) in
     let r1 := forAll sys remount ascending in
     if negb r1.2 then (r1.1, LogFatal) else
     let r2 := forAll sys unmount (reverse ascending) in
     if negb r2.2 then (r1.1 ++ r2.1, LogFatal) else (r1.1 ++ r2.1, Exit 0)).
Proof.
  intros Hf. unfold main.
  rewrite (scanLines_fields _ _ _ _ _ Hf). simpl. rewrite unseen_empty.
  by rewrite sortStringsReverse_sorted.
Qed.

(** A loop of calls either makes them all with success, or stops at the
    first one that fails. *)
Lemma forAll_inv sys mk l :
  ((∀ x, x ∈ l → sys (mk x) = true) ∧ forAll sys mk l = (mk <$> l, true))
  ∨ (∃ made d rest,
       l = made ++ d :: rest
       ∧ (∀ x, x ∈ made → sys (mk x) = true)
       ∧ sys (mk d) = false
       ∧ forAll sys mk l = (mk <$> (made ++ [d]), false)).
Proof.
  induction l as [|x l IH]; simpl.
  - left. split; [by intros x ?%elem_of_nil | done].
  - destruct (sys (mk x)) eqn:Hx.
    + destruct IH as [[Hall ->] | (made & d & rest & -> & Hdone & Hd & ->)].
      * left. split; [|done]. intros y [->|?]%elem_of_cons; auto.
      * right. exists (x :: made), d, rest. split_and!; try done.
        intros y [->|?]%elem_of_cons; auto.
    + right. exists [], x, l. split_and!; try done. by intros y ?%elem_of_nil.
Qed.

(** Where a call stands in the list of the remounts followed by the
    unmounts. *)
Lemma calls_lookup_unmount (ascending : list string) i dest fl :
  (((λ d, Mount "" d "" 278528 "") <$> ascending)
   ++ ((λ d, Unmount d 0) <$> reverse ascending)) !! i = Some (Unmount dest fl) →
  (length ascending ≤ i)%nat ∧ fl = 0
  ∧ reverse ascending !! (i - length ascending)%nat = Some dest.
Proof.
  intros H. apply lookup_app_Some in H as [H | [Hle H]].
  - rewrite list_lookup_fmap in H. by destruct (ascending !! i).
  - rewrite length_fmap in Hle, H. rewrite list_lookup_fmap in H.
    destruct (reverse ascending !! (i - length ascending)%nat) as [x|]; [|done].
    simpl in H. injection H as -> <-. done.
Qed.

Lemma calls_lookup_remount (ascending : list string) i s t fs fl data :
  (((λ d, Mount "" d "" 278528 "") <$> ascending)
   ++ ((λ d, Unmount d 0) <$> reverse ascending)) !! i
  = Some (Mount s t fs fl data) →
  (i < length ascending)%nat.
Proof.
  intros H. apply lookup_app_Some in H as [H | [Hle H]].
  - apply lookup_lt_Some in H. by rewrite length_fmap in H.
  - rewrite list_lookup_fmap in H.
    by destruct (reverse ascending !! _).
Qed.

(** An unmount is made only once the pass of the remounts is complete. *)
Lemma unmount_after_remounts podID lines fields sys dest fl :
  mountFields podID lines = Some fields →
  Unmount dest fl ∈ (main (Some podID) (Some lines) sys).1 →
  ((λ d, Mount "" d "" 278528 "") <$> sortStrings (firstSeen fields))
    `prefix_of` (main (Some podID) (Some lines) sys).1
  ∧ ∀ d, d ∈ fields → sys (Mount "" d "" 278528 "") = true.
Proof.
  intros Hf. rewrite (main_unfold _ _ _ _ Hf).
  destruct (decide (length (firstSeen fields) = 0%nat)) as [Hlen | Hlen];
    [by intros ?%elem_of_nil|].
  cbv zeta.
  destruct (forAll_inv sys remount (sortStrings (firstSeen fields)))
    as [[Hall ->] | (made & d & rest & Heq & Hmade & Hd & ->)]; simpl.
  - intros _. split.
    + destruct (forAll sys unmount _).2; simpl; by apply prefix_app_r.
    + intros d Hd. apply (Hall d).
      by rewrite sortStrings_perm, firstSeen_elem_of.
  - by intros (x & [=] & _)%list_elem_of_fmap.
Qed.

(** C2. The reaper keeps the mount point field of every line that contains
    the identifier, each at its first occurrence.  The system calls it makes
    are an initial part of this list: for every kept mount point, in
    ascending order of the paths, the call of mount with an empty source and
    file system type, the mount point as target and the flags
    MS_REC|MS_PRIVATE (0x4000|0x40000 = 278528), the recursive private
    remount; then, for every kept mount point in the reverse, descending,
    order, the call of unmount with the mount point as target and the flags
    0.  They are all of that list, and the reaper succeeds, when no call
    fails.  An unmount is made only after the remount of every kept mount
    point was made with success, so every remount stands before every
    unmount.  Among the unmounts made, that of a mount point stands after
    the unmount of every other kept mount point that continues it: a child
    is unmounted before its parent.  When no line contains the identifier
    the reaper succeeds without a call.  For /a, /a/b and /a/b/c the calls
    are the remounts of /a, /a/b, /a/b/c and then the unmounts of /a/b/c,
    /a/b, /a. *)
Theorem reaper_order :
  (∀ podID lines fields sys,
     mountFields podID lines = Some fields →
     let mountList := firstSeen fields in
     let ascending := sortStrings mountList in
     let remounts := (λ dest, Mount "" dest "" 278528 "") <$> ascending in
     let unmounts := (λ dest, Unmount dest 0) <$> reverse ascending in
     let made := (main (Some podID) (Some lines) sys).1 in
     scanLines podID lines (∅, []) = Some (list_to_set fields, mountList)
     ∧ NoDup mountList ∧ (∀ x, x ∈ mountList ↔ x ∈ fields)
     ∧ StronglySorted strings.le ascending ∧ ascending ≡ₚ mountList
     ∧ Sorted (flip strings.le) (reverse ascending)
     ∧ made `prefix_of` remounts ++ unmounts
     ∧ ((∀ c, c ∈ remounts ++ unmounts → sys c = true) →
          main (Some podID) (Some lines) sys = (remounts ++ unmounts, Exit 0))
     ∧ (∀ dest fl, Unmount dest fl ∈ made →
          remounts `prefix_of` made
          ∧ ∀ d, d ∈ fields → sys (Mount "" d "" 278528 "") = true)
     ∧ (∀ i j s t fs fl data dest fl',
          made !! i = Some (Mount s t fs fl data) →
          made !! j = Some (Unmount dest fl') → (i < j)%nat)
     ∧ (∀ a d i j,
          made !! i = Some (Unmount a 0) → made !! j = Some (Unmount d 0) →
          String.prefix a d = true → a ≠ d → (j < i)%nat)
     ∧ (∀ a d i j,
          reverse ascending !! i = Some a → reverse ascending !! j = Some d →
          String.prefix a d = true → a ≠ d → (j < i)%nat))
  ∧ (∀ podID lines sys,
       (∀ line, line ∈ lines → MatchString podID line = false) →
       main (Some podID) (Some lines) sys = ([], Exit 0))
  ∧ main (Some podID) (Some nestedMounts) (λ _, true)
    = ([Mount "" "/a" "" 278528 ""; Mount "" "/a/b" "" 278528 "";
        Mount "" "/a/b/c" "" 278528 "";
        Unmount "/a/b/c" 0; Unmount "/a/b" 0; Unmount "/a" 0], Exit 0).
Proof.
  split_and!.
  - intros podID lines fields sys Hf. cbv zeta.
    destruct (main_calls podID lines fields sys Hf) as [Hpre Hall].
    split_and!; try done.
    + rewrite (scanLines_fields _ _ _ _ _ Hf), unseen_empty. simpl.
      by rewrite (right_id_L ∅ (∪)).
    + apply firstSeen_NoDup.
    + apply firstSeen_elem_of.
    + apply sortStrings_sorted.
    + apply sortStrings_perm.
    + apply Sorted_reverse, Sorted_merge_sort; apply _.
    + intros dest fl. by apply unmount_after_remounts.
    + intros i j s t fs fl data dest fl' Hi Hj.
      apply (prefix_lookup_Some _ _ _ _ Hi) in Hpre as Hi'.
      apply (prefix_lookup_Some _ _ _ _ Hj) in Hpre as Hj'.
      apply calls_lookup_remount in Hi'.
      apply calls_lookup_unmount in Hj' as (Hle & _). lia.
    + intros a d i j Hi Hj Hpfx Hne.
      apply (prefix_lookup_Some _ _ _ _ Hi) in Hpre as Hi'.
      apply (prefix_lookup_Some _ _ _ _ Hj) in Hpre as Hj'.
      apply calls_lookup_unmount in Hi' as (Hli & _ & Hi').
      apply calls_lookup_unmount in Hj' as (Hlj & _ & Hj').
      pose proof (children_first _ _ _ _ _ (sortStrings_sorted _) Hi' Hj' Hpfx Hne).
      lia.
    + intros a d i j. apply children_first, sortStrings_sorted.
  - intros podID lines sys Hno.
    destruct (main_calls podID lines [] sys (mountFields_no_match _ _ Hno))
      as [_ Hall].
    apply Hall. simpl. by intros c ?%elem_of_nil.
  - by vm_compute.
Qed.

Lemma reaper_order_witness :
  let fields := ["/a/b"; "/a/b/c"; "/a"; "/a/b"] in
  let mountList := firstSeen fields in
  let ascending := sortStrings mountList in
  let remounts := (λ dest, Mount "" dest "" 278528 "") <$> ascending in
  let unmounts := (λ dest, Unmount dest 0) <$> reverse ascending in
  let made := (main (Some podID) (Some nestedMounts) (λ _, true)).1 in
  scanLines podID nestedMounts (∅, []) = Some (list_to_set fields, mountList)
  ∧ NoDup mountList ∧ (∀ x, x ∈ mountList ↔ x ∈ fields)
  ∧ StronglySorted strings.le ascending ∧ ascending ≡ₚ mountList
  ∧ Sorted (flip strings.le) (reverse ascending)
  ∧ made `prefix_of` remounts ++ unmounts
  ∧ ((∀ c, c ∈ remounts ++ unmounts → (λ _, true) c = true) →
       main (Some podID) (Some nestedMounts) (λ _, true)
       = (remounts ++ unmounts, Exit 0))
  ∧ (∀ dest fl, Unmount dest fl ∈ made →
       remounts `prefix_of` made
       ∧ ∀ d, d ∈ fields → (λ _, true) (Mount "" d "" 278528 "") = true)
  ∧ (∀ i j s t fs fl data dest fl',
       made !! i = Some (Mount s t fs fl data) →
       made !! j = Some (Unmount dest fl') → (i < j)%nat)
  ∧ (∀ a d i j,
       made !! i = Some (Unmount a 0) → made !! j = Some (Unmount d 0) →
       String.prefix a d = true → a ≠ d → (j < i)%nat)
  ∧ (∀ a d i j,
       reverse ascending !! i = Some a → reverse ascending !! j = Some d →
       String.prefix a d = true → a ≠ d → (j < i)%nat).
Proof.
  apply (proj1 reaper_order podID nestedMounts
           ["/a/b"; "/a/b/c"; "/a"; "/a/b"] (λ _, true)).
  vm_compute. reflexivity.
Defined.
End gc_properties.

(** * Properties of the prefix filter *)

Section stage0_properties.
Import stage0.
Local Open Scope nat_scope.

Lemma prefix_length p s : String.prefix p s = true → String.length p ≤ String.length s.
Proof.
  revert s. induction p as [|c p IH]; intros [|c' s]; simpl; try done; try lia.
  destruct (Ascii.ascii_dec c c'); [|done]. intros H. apply IH in H. lia.
Qed.

Lemma prefix_same_length p s :
  String.prefix p s = true → String.length p = String.length s → p = s.
Proof.
  revert s. induction p as [|c p IH]; intros [|c' s]; simpl; try done.
  destruct (Ascii.ascii_dec c c') as [<-|]; [|done].
  intros H [= Hlen]. f_equal. by apply IH.
Qed.

Lemma length_append_slash a : String.length (a +:+ "/") = S (String.length a).
Proof. induction a as [|c a IH]; simpl; [done|]. by rewrite IH. Qed.

(** A path below a directory is longer than the directory. *)
Lemma below_longer d a : below d a = true → String.length a < String.length d.
Proof.
  unfold below, strings.HasPrefix.
  intros [Hne Hpre]%andb_prop. apply bool_decide_eq_true in Hne.
  destruct (endsWithSlash a).
  - pose proof (prefix_length _ _ Hpre) as Hle.
    destruct (decide (String.length a = String.length d)) as [Heq|]; [|lia].
    destruct Hne. symmetry. by apply prefix_same_length.
  - apply prefix_length in Hpre. rewrite length_append_slash in Hpre. lia.
Qed.

Lemma choose_elem_of l m : choose l = Some m → m ∈ l.
Proof.
  revert m. induction l as [|x l IH]; intros m; simpl; [done|].
  destruct (choose l) as [m'|].
  - destruct (parentID m' <? parentID x)%Z; intros [= <-]; [by left|].
    right. by apply IH.
  - intros [= <-]. by left.
Qed.

Lemma choose_None l : choose l = None → l = [].
Proof.
  destruct l as [|x l]; simpl; [done|].
  destruct (choose l) as [m'|]; [|done].
  by destruct (parentID m' <? parentID x)%Z.
Qed.

Lemma longest_exists (l : list mount) :
  l ≠ [] →
  ∃ m, m ∈ l ∧ ∀ x, x ∈ l →
    String.length (mountPoint x) ≤ String.length (mountPoint m).
Proof.
  induction l as [|y l IH]; [done|]. intros _.
  destruct l as [|z l].
  - exists y. split; [by left|]. by intros x ->%list_elem_of_singleton.
  - destruct IH as (m & Hm & Hmax); [done|].
    destruct (decide (String.length (mountPoint m) ≤ String.length (mountPoint y))).
    + exists y. split; [by left|].
      intros x [-> | Hx]%elem_of_cons; [done|]. specialize (Hmax x Hx). lia.
    + exists m. split; [by right|].
      intros x [-> | Hx]%elem_of_cons; [lia | by apply Hmax].
Qed.

(** A list that is not empty has an entry with nothing mounted below. *)
Lemma ready_exists rest :
  rest ≠ [] → ∃ m, choose (filter (λ m, ready rest m = true) rest) = Some m.
Proof.
  intros Hne. destruct (longest_exists rest Hne) as (m & Hm & Hmax).
  destruct (choose _) as [m'|] eqn:E; [eauto|]. exfalso.
  apply choose_None in E.
  assert (m ∈ filter (λ m, ready rest m = true) rest) as Hin; [|by rewrite E in Hin; apply elem_of_nil in Hin].
  apply list_elem_of_filter. split; [|done].
  unfold ready. apply forallb_forall. intros x Hx%list_elem_of_In.
  destruct (below (mountPoint x) (mountPoint m)) eqn:Hb; [|done].
  apply below_longer in Hb. specialize (Hmax x Hx). lia.
Qed.

Lemma removeOne_perm m l : m ∈ l → l ≡ₚ m :: removeOne m l.
Proof.
  induction l as [|x l IH]; [by intros ?%elem_of_nil|]. simpl.
  destruct (decide (x = m)) as [-> | Hne]; [done|].
  intros [-> | Hin]%elem_of_cons; [done|].
  rewrite (IH Hin) at 1. apply perm_swap.
Qed.

Lemma unmountOrder_perm n rest : n = length rest → unmountOrder n rest ≡ₚ rest.
Proof.
  revert rest. induction n as [|n IH]; intros rest Hn; simpl.
  - symmetry in Hn. by apply nil_length_inv in Hn as ->.
  - destruct (ready_exists rest) as [m Hm]; [by intros ->|]. rewrite Hm.
    assert (m ∈ rest) as Hin.
    { apply choose_elem_of in Hm. by apply list_elem_of_filter in Hm as [_ ?]. }
    pose proof (removeOne_perm m rest Hin) as Hp.
    rewrite Hp at 2. constructor. apply IH.
    apply Permutation_length in Hp. simpl in Hp. lia.
Qed.

Lemma removeOne_subseteq m l x : x ∈ removeOne m l → x ∈ l.
Proof.
  induction l as [|y l IH]; simpl; [done|].
  destruct (decide (y = m)); [by right|].
  intros [-> | H]%elem_of_cons; [by left | right; by apply IH].
Qed.

Lemma unmountOrder_subseteq n rest x : x ∈ unmountOrder n rest → x ∈ rest.
Proof.
  revert rest. induction n as [|n IH]; intros rest; simpl; [by intros ?%elem_of_nil|].
  destruct (choose _) as [m|] eqn:Hm; [|by intros ?%elem_of_nil].
  intros [-> | H]%elem_of_cons.
  - apply choose_elem_of in Hm. by apply list_elem_of_filter in Hm as [_ ?].
  - eapply removeOne_subseteq, IH, H.
Qed.

(** Whatever is mounted below an entry of the result comes before it. *)
Lemma unmountOrder_children_first n rest i j a d :
  unmountOrder n rest !! i = Some a → unmountOrder n rest !! j = Some d →
  below (mountPoint d) (mountPoint a) = true → (j < i)%nat.
Proof.
  revert rest i j. induction n as [|n IH]; intros rest i j; simpl; [done|].
  destruct (choose _) as [m|] eqn:Hm; [|done].
  intros Hi Hj Hb. destruct i as [|i], j as [|j]; simpl in *.
  - injection Hi as ->. injection Hj as ->.
    apply below_longer in Hb. lia.
  - exfalso. injection Hi as ->.
    apply choose_elem_of, list_elem_of_filter in Hm as [Hready _].
    unfold ready in Hready. rewrite forallb_forall in Hready.
    assert (d ∈ rest) as Hd.
    { eapply removeOne_subseteq, unmountOrder_subseteq, list_elem_of_lookup_2, Hj. }
    apply list_elem_of_In, Hready in Hd. by rewrite Hb in Hd.
  - lia.
  - specialize (IH _ _ _ Hi Hj Hb). lia.
Qed.

(** C1. For every mount table and prefix, [getMountsForPrefix] returns the
    entries whose mount point is the prefix or lies below it by whole path
    segments, each once, and every returned entry whose mount point lies
    below that of another returned entry comes before that entry.  The
    table of TestMountOrdering parses to fifteen entries; for the prefix
    /my/mount/prefix the filter returns the fourteen entries of the pod, in
    the order of ids 219, 218, 217, 210, 209, 184, 183, 182, 146, 145, 180,
    144, 121, 116. *)
Theorem getMountsForPrefix_children_first :
  (∀ prefix table,
     getMountsForPrefix prefix table
       ≡ₚ filter (λ m, mountPoint m = prefix
                       ∨ below (mountPoint m) prefix = true) table
     ∧ ∀ i j a d,
         getMountsForPrefix prefix table !! i = Some a →
         getMountsForPrefix prefix table !! j = Some d →
         below (mountPoint d) (mountPoint a) = true → (j < i)%nat)
  ∧ ∃ table,
      parseMountTable mountinfo = Some table
      ∧ length table = 15%nat
      ∧ getMountsForPrefix "/my/mount/prefix" table ≡ₚ drop 1 table
      ∧ id <$> getMountsForPrefix "/my/mount/prefix" table = testIds.
Proof.
  assert (Hsel : ∀ prefix table,
    getMountsForPrefix prefix table
      ≡ₚ filter (λ m, mountPoint m = prefix
                      ∨ below (mountPoint m) prefix = true) table).
  { intros prefix table.
    unfold getMountsForPrefix. rewrite unmountOrder_perm by done.
    erewrite list_filter_iff; [done|]. intros m. unfold underPrefix.
    rewrite orb_true_iff, bool_decide_eq_true. done. }
  split.
  - intros prefix table. split; [apply Hsel|].
    intros i j a d. apply unmountOrder_children_first.
  - destruct (parseMountTable mountinfo) as [table|] eqn:E;
      [|by vm_compute in E].
    exists table. split; [done|].
    vm_compute in E. injection E as <-.
    split_and!.
    + done.
    + rewrite Hsel. by vm_compute.
    + by vm_compute.
Qed.

Lemma getMountsForPrefix_children_first_witness :
  id <$> getMountsForPrefix "/my/mount/prefix" testTable !! 13 = Some 116%Z
  ∧ id <$> getMountsForPrefix "/my/mount/prefix" testTable !! 12 = Some 121%Z
  ∧ 12 < 13.
Proof.
  split_and!; [by vm_compute | by vm_compute |].
  eapply (proj2 (proj1 getMountsForPrefix_children_first
                   "/my/mount/prefix" testTable) 13 12).
  - vm_compute. reflexivity.
  - vm_compute. reflexivity.
  - vm_compute. reflexivity.
Defined.

End stage0_properties.

(** * More properties of [evaluateMounts] *)

Section reconciled_records.
Import fly plan records samples.

Lemma mergeMountPoints_keep mps nvm nvm' k t :
  forEach mergeMountPoint mps nvm = Ok nvm' → nvm !! k = Some t → nvm' !! k = Some t.
Proof.
  intros H. pose proof (mergeMountPoints_result mps nvm) as R. rewrite H in R.
  destruct R as (_ & _ & Hkeep & _). apply Hkeep.
Qed.

Lemma mergeMountPoints_paths mps nvm nvm' :
  forEach mergeMountPoint mps nvm = Ok nvm' →
  ∀ mp, mp ∈ mps → ∃ t, nvm' !! mpName mp = Some t ∧ mPath (M t) = mpPath mp.
Proof.
  revert nvm. induction mps as [|x mps IH]; intros nvm H mp Hmp.
  - by apply elem_of_nil in Hmp.
  - simpl in H. unfold mergeMountPoint at 1 in H.
    destruct (nvm !! mpName x) as [t|] eqn:Hx; simpl in H.
    + case_decide as Hp; simpl in H; [done|].
      apply elem_of_cons in Hmp as [-> | Hmp]; [|by eapply IH].
      exists t. split; [by eapply mergeMountPoints_keep|].
      destruct (decide (mPath (M t) = mpPath x)); [done | by destruct Hp].
    + apply elem_of_cons in Hmp as [-> | Hmp]; [|by eapply IH].
      eexists. split; [eapply mergeMountPoints_keep; [done|]; apply lookup_insert_eq|].
      done.
Qed.

Lemma mergeMountPoints_volume mps nvm nvm' :
  forEach mergeMountPoint mps nvm = Ok nvm' →
  (∀ k t, nvm !! k = Some t → V t = zeroVolume) →
  ∀ k t, nvm' !! k = Some t → V t = zeroVolume.
Proof.
  intros H Hz k t Ht. pose proof (mergeMountPoints_result mps nvm) as R.
  rewrite H in R. destruct R as (_ & _ & _ & Hnew).
  destruct (Hnew k t Ht) as [? | Hold]; [done | by eapply Hz].
Qed.

Lemma insertVolumes_lookup vols nvm nvm' :
  forEach insertVolume vols nvm = Ok nvm' →
  ∀ k, nvm' !! k =
    (λ t, match lastNamed k vols with
          | Some v => {| V := v; M := M t |}
          | None => t
          end) <$> nvm !! k.
Proof.
  revert nvm. induction vols as [|v vols IH]; intros nvm H k; simpl in H.
  - injection H as <-. unfold lastNamed. simpl. by destruct (nvm !! k).
  - unfold insertVolume at 1 in H.
    destruct (nvm !! vName v) as [t0|] eqn:Hv; simpl in H; [|done].
    case_decide; simpl in H; [done|].
    rewrite (IH _ H k). unfold lastNamed. rewrite filter_cons.
    rewrite lookup_insert. destruct (decide (vName v = k)) as [<- | Hne].
    + rewrite Hv. simpl. rewrite last_cons.
      by destruct (last (filter _ vols)).
    + done.
Qed.

Lemma insertVolumes_Ok vols nvm :
  keyed nvm → (∀ v, v ∈ vols → is_Some (nvm !! vName v)) →
  ∃ nvm', forEach insertVolume vols nvm = Ok nvm'.
Proof.
  intros Hk Hall. pose proof (insertVolumes_result vols nvm Hk) as R.
  destruct (forEach insertVolume vols nvm) as [nvm'|[]| |]; try done; [eauto|].
  destruct R as ((v & -> & Hv)%list_elem_of_fmap & Hnone).
  destruct (Hall v Hv) as [t Ht]. congruence.
Qed.


Lemma option_fmap_Some {A B} (f : A → B) (a : A) : f <$> Some a = Some (f a).
Proof. done. Qed.

Lemma defaulted_idemp v : defaulted (defaulted v) = defaulted v.
Proof. unfold defaulted. by destruct (vReadOnly v) eqn:E; simpl; rewrite ?E. Qed.

Lemma fillReadOnly_lookup mps nvm mp0 nvm' mp :
  forEach fillReadOnly mps (nvm, mp0) = Ok (nvm', mp) →
  (∀ k, nvm' !! k =
     (λ t, if decide (k ∈ mpName <$> mps) then defaultedTuple t else t) <$> nvm !! k)
  ∧ (∀ x, x ∈ mps → ∃ t, nvm !! mpName x = Some t ∧ vName (V t) ≠ "").
Proof.
  revert nvm mp0. induction mps as [|x mps IH]; intros nvm mp0 H; simpl in H.
  - injection H as <- <-. split; [|by intros ? ?%elem_of_nil].
    intros k. by destruct (nvm !! k).
  - unfold fillReadOnly at 1 in H. simpl in H.
    destruct (nvm !! mpName x) as [t|] eqn:Hx; simpl in H; [|done].
    case_decide as Hname; simpl in H; [done|].
    assert (∃ s, forEach fillReadOnly mps (<[mpName x := defaultedTuple t]> nvm, s)
                 = Ok (nvm', mp)) as [s Hs].
    { unfold defaultedTuple, defaulted.
      destruct (vReadOnly (V t)) eqn:Ero; simpl in H; [|eauto].
      exists x. rewrite insert_id; [done|]. rewrite Hx. by destruct t. }
    destruct (IH _ _ Hs) as [Hlook Hnames]. split.
    + intros k. rewrite Hlook, lookup_insert.
      destruct (decide (mpName x = k)) as [<- | Hne].
      * rewrite Hx, !option_fmap_Some. f_equal.
        destruct (decide (mpName x ∈ mpName <$> x :: mps)) as [_ | Hn];
          [|destruct Hn; rewrite fmap_cons; by left].
        case_decide; [|done]. unfold defaultedTuple. simpl.
        by rewrite defaulted_idemp.
      * destruct (nvm !! k); [|done]. rewrite !option_fmap_Some. f_equal.
        destruct (decide (k ∈ mpName <$> mps)) as [Hin | Hout].
        -- rewrite decide_True; [done|]. rewrite fmap_cons. by right.
        -- rewrite decide_False; [done|]. rewrite fmap_cons.
           intros [? | ?]%elem_of_cons; [congruence | done].
    + intros y [-> | Hy]%elem_of_cons; [eauto|].
      destruct (Hnames y Hy) as (t' & Ht' & Hn). rewrite lookup_insert in Ht'.
      case_decide as Heq.
      * injection Ht' as <-. exists t. rewrite <- Heq. split; [done|].
        unfold defaultedTuple, defaulted in Hn. simpl in Hn.
        by destruct (vReadOnly (V t)).
      * eauto.
Qed.

Lemma fillReadOnly_Ok mps nvm mp0 :
  (∀ x, x ∈ mps → ∃ t, nvm !! mpName x = Some t ∧ vName (V t) ≠ "") →
  ∃ s, forEach fillReadOnly mps (nvm, mp0) = Ok s.
Proof.
  revert nvm mp0. induction mps as [|x mps IH]; intros nvm mp0 Hall; simpl; [eauto|].
  unfold fillReadOnly at 1. simpl.
  destruct (Hall x) as (t & -> & Hn); [by left|]. simpl.
  rewrite decide_False by done.
  destruct (vReadOnly (V t)); simpl; apply IH.
  - intros y Hy. apply Hall. by right.
  - intros y Hy. destruct (Hall y) as (t' & Ht' & Hn'); [by right|].
    rewrite lookup_insert. case_decide as Heq; [|eauto].
    eexists. split; [done|]. done.
Qed.

Lemma lastNamed_Some k vols v : lastNamed k vols = Some v → v ∈ vols ∧ vName v = k.
Proof.
  unfold lastNamed. intros H%last_Some_elem_of.
  by apply list_elem_of_filter in H as [? ?].
Qed.

Lemma lastNamed_is_Some k vols : k ∈ vName <$> vols → is_Some (lastNamed k vols).
Proof.
  intros (v & -> & Hv)%list_elem_of_fmap. unfold lastNamed.
  destruct (last (filter _ vols)) eqn:E; [eauto|].
  apply last_None in E.
  assert (v ∈ filter (λ v0, vName v0 = vName v) vols) as Hin
    by (by apply list_elem_of_filter).
  rewrite E in Hin. by apply elem_of_nil in Hin.
Qed.

Lemma lastNamed_None k vols : k ∉ vName <$> vols → lastNamed k vols = None.
Proof.
  intros Hk. destruct (lastNamed k vols) as [v|] eqn:E; [|done].
  apply lastNamed_Some in E as [Hv <-]. destruct Hk. by apply list_elem_of_fmap_2.
Qed.

Lemma fillReadOnly_fatal mps s name :
  forEach fillReadOnly mps s = Fatal (FatalMissingVolume name) → name ∈ mpName <$> mps.
Proof.
  revert s. induction mps as [|x mps IH]; intros s; simpl; [done|].
  unfold fillReadOnly at 1.
  destruct (s.1 !! mpName x) as [t|]; simpl; [|intros [= <-]; by left].
  case_decide; simpl; [intros [= <-]; by left|].
  destruct (vReadOnly (V t)); simpl; intros ?%IH; by right.
Qed.

(** The four loops behind a successful [reconcile]. *)
Lemma reconcile_Ok_inv app p im a app0 nvm mpv :
  Images p !! app = Some im → head (Apps (Manifest p)) = Some app0 →
  imApp im = Some a →
  reconcile app p = Ok (nvm, mpv) →
  ∃ nvm1 nvm2 nvm3,
    forEach addMount (raMounts app0) ∅ = Ok nvm1
    ∧ forEach mergeMountPoint (MountPoints a) nvm1 = Ok nvm2
    ∧ forEach insertVolume (Volumes (Manifest p)) nvm2 = Ok nvm3
    ∧ forEach fillReadOnly (MountPoints a) (nvm3, zeroMountPoint) = Ok (nvm, mpv).
Proof.
  intros Him Happ Ha. rewrite (reconcile_loops _ _ _ _ _ Him Happ Ha).
  destruct (forEach addMount _ _) as [nvm1| | |] eqn:E1; simpl; try done.
  destruct (forEach mergeMountPoint _ _) as [nvm2| | |] eqn:E2; simpl; try done.
  destruct (forEach insertVolume _ _) as [nvm3| | |] eqn:E3; simpl; try done.
  intros H. exists nvm1, nvm2, nvm3. by split_and!.
Qed.

(** The records of the first loop. *)
Lemma addMounts_Ok_inv ms nvm1 :
  forEach addMount ms ∅ = Ok nvm1 →
  NoDup (mVolume <$> ms) ∧ keyed nvm1
  ∧ (∀ m, m ∈ ms → nvm1 !! mVolume m = Some {| V := zeroVolume; M := m |})
  ∧ (∀ k, k ∉ mVolume <$> ms → nvm1 !! k = None)
  ∧ (∀ k t, nvm1 !! k = Some t → V t = zeroVolume).
Proof.
  intros H. pose proof (addMounts_result ms ∅) as R. rewrite H in R.
  destruct R as (Hnd & _ & Hin & Hout).
  assert (∀ k, k ∉ mVolume <$> ms → nvm1 !! k = None) as Hnone
    by (intros k Hk; by rewrite (Hout k Hk), lookup_empty).
  split_and!; [done | | done | done |].
  - eapply addMounts_keyed; [done | apply keyed_empty].
  - intros k t Ht. destruct (decide (k ∈ mVolume <$> ms)) as [Hk | Hk].
    + apply list_elem_of_fmap in Hk as (m & -> & Hm).
      rewrite (Hin m Hm) in Ht. by injection Ht as <-.
    + by rewrite (Hnone k Hk) in Ht.
Qed.

Lemma mergeMountPoints_Ok_inv mps nvm1 nvm2 :
  forEach mergeMountPoint mps nvm1 = Ok nvm2 →
  (keyed nvm1 → keyed nvm2)
  ∧ (∀ k, is_Some (nvm2 !! k) ↔ is_Some (nvm1 !! k) ∨ k ∈ mpName <$> mps).
Proof.
  intros H. pose proof (mergeMountPoints_result mps nvm1) as R. rewrite H in R.
  by destruct R as (? & ? & _).
Qed.

(** The record of a volume after a successful [reconcile]. *)
Lemma volume_record app p im a app0 nvm mpv v :
  Images p !! app = Some im → head (Apps (Manifest p)) = Some app0 →
  imApp im = Some a →
  reconcile app p = Ok (nvm, mpv) →
  lastNamed (vName v) (Volumes (Manifest p)) = Some v →
  ∃ t, nvm !! vName v = Some t
    ∧ V t = (if decide (vName v ∈ mpName <$> MountPoints a) then defaulted v else v)
    ∧ mVolume (M t) = vName v
    ∧ (∀ m, m ∈ raMounts app0 → mVolume m = vName v → mPath m = mPath (M t))
    ∧ (∀ mp, mp ∈ MountPoints a → mpName mp = vName v → mpPath mp = mPath (M t))
    ∧ isReadOnly mpv t = resolvedReadOnly (MountPoints a) v.
Proof.
  intros Him Happ Ha Hrec Hlast.
  destruct (reconcile_Ok_inv _ _ _ _ _ _ _ Him Happ Ha Hrec)
    as (nvm1 & nvm2 & nvm3 & H1 & H2 & H3 & H4).
  destruct (addMounts_Ok_inv _ _ H1) as (Hnd & Hk1 & Hin1 & Hout1 & Hz1).
  destruct (mergeMountPoints_Ok_inv _ _ _ H2) as (Hk2 & Hdom2). specialize (Hk2 Hk1).
  pose proof (insertVolumes_result (Volumes (Manifest p)) nvm2 Hk2) as R3.
  rewrite H3 in R3. destruct R3 as (_ & _ & Hall).
  destruct (lastNamed_Some _ _ _ Hlast) as [Hv _].
  destruct (Hall v Hv) as [t2 Ht2].
  pose proof (insertVolumes_lookup _ _ _ H3 (vName v)) as L3.
  rewrite Ht2, Hlast, option_fmap_Some in L3.
  destruct (fillReadOnly_lookup _ _ _ _ _ H4) as [L4 _].
  specialize (L4 (vName v)). rewrite L3, option_fmap_Some in L4.
  pose proof (fillReadOnly_range_variable _ _ _ _ _ H4) as Hmpv.
  eexists. split; [exact L4|]. split_and!.
  - by case_decide.
  - case_decide; simpl; by apply Hk2.
  - intros m Hm Hname.
    pose proof (mergeMountPoints_keep _ _ _ _ _ H2 (Hin1 m Hm)) as Hkeep.
    rewrite Hname, Ht2 in Hkeep. injection Hkeep as ->. by case_decide.
  - intros mp Hmp Hname.
    destruct (mergeMountPoints_paths _ _ _ H2 mp Hmp) as (t & Ht & Hpath).
    rewrite Hname, Ht2 in Ht. injection Ht as ->. by case_decide.
  - unfold isReadOnly, resolvedReadOnly. subst mpv.
    case_decide; simpl; unfold defaulted;
      destruct (vReadOnly v) as [[b|]|] eqn:E; simpl; rewrite ?E; done.
Qed.

(** The operations of a record are a block of the returned list. *)
Lemma tuple_block order rfs app p nvm mpv k t :
  validRange order → reconcile app p = Ok (nvm, mpv) → nvm !! k = Some t →
  ∃ l1 l2,
    evaluateMounts order rfs app p = Ok (l1 ++ mountTriple rfs mpv t ++ l2).
Proof.
  intros Hord Hrec Ht. rewrite (evaluateMounts_Ok _ _ _ _ _ _ Hrec).
  assert (t ∈ (order nvm).*2) as Hin.
  { rewrite (Hord nvm). apply list_elem_of_fmap. exists (k, t).
    split; [done|]. by apply elem_of_map_to_list. }
  apply list_elem_of_split in Hin as (ts1 & ts2 & ->).
  exists (flat_map (mountTriple rfs mpv) ts1), (flat_map (mountTriple rfs mpv) ts2).
  by rewrite flat_map_app.
Qed.

(** The loops up to the third succeed on declarations that pass their
    checks. *)
Lemma three_loops_Ok ms mps vols :
  NoDup (mVolume <$> ms) → pathsAgree ms mps →
  (∀ v, v ∈ vols → vName v ∈ (mVolume <$> ms) ++ (mpName <$> mps)) →
  ∃ nvm1 nvm2 nvm3,
    forEach addMount ms ∅ = Ok nvm1
    ∧ forEach mergeMountPoint mps nvm1 = Ok nvm2
    ∧ forEach insertVolume vols nvm2 = Ok nvm3
    ∧ (∀ k t, nvm2 !! k = Some t → V t = zeroVolume)
    ∧ (∀ k, k ∈ mpName <$> mps → is_Some (nvm2 !! k)).
Proof.
  intros Hnd [Hagree Hmps] Href.
  destruct (addMounts_NoDup _ Hnd) as (nvm1 & H1 & Hk1 & Hin1 & Hout1).
  destruct (addMounts_Ok_inv _ _ H1) as (_ & _ & _ & _ & Hz1).
  destruct (mergeMountPoints_agree mps nvm1) as (nvm2 & H2); [|done|].
  { intros k t mp Ht Hmp Hk.
    destruct (decide (k ∈ mVolume <$> ms)) as [Hin | Hout].
    - apply list_elem_of_fmap in Hin as (m & -> & Hm).
      rewrite (Hin1 m Hm) in Ht. injection Ht as <-. simpl. by apply Hagree.
    - by rewrite (Hout1 k Hout) in Ht. }
  destruct (mergeMountPoints_Ok_inv _ _ _ H2) as (Hk2 & Hdom2). specialize (Hk2 Hk1).
  destruct (insertVolumes_Ok vols nvm2 Hk2) as (nvm3 & H3).
  { intros v Hv. apply Hdom2.
    apply Href, elem_of_app in Hv as [Hv | Hv]; [left | by right].
    apply list_elem_of_fmap in Hv as (m & -> & Hm). by rewrite (Hin1 m Hm). }
  exists nvm1, nvm2, nvm3. split_and!; [done | done | done | |].
  - by eapply mergeMountPoints_volume.
  - intros k Hk. apply Hdom2. by right.
Qed.

(** X1. With the first app and its image present, [evaluateMounts] returns
    a list of mounts exactly when no volume name occurs twice among the
    pod-level mounts, mounts and mount points of one name agree on the
    path, every volume is named by a mount or a mount point, and every
    mount point has a name that is not empty and is the name of a volume. *)
Theorem evaluateMounts_succeeds_iff order rfs app p im a app0 :
  Images p !! app = Some im → head (Apps (Manifest p)) = Some app0 →
  imApp im = Some a →
  (∃ l, evaluateMounts order rfs app p = Ok l)
  ↔ consistent (raMounts app0) (MountPoints a) (Volumes (Manifest p)).
Proof.
  intros Him Happ Ha. split.
  - intros [l [[nvm mpv] Hrec]%evaluateMounts_Ok_inv].
    destruct (reconcile_Ok_inv _ _ _ _ _ _ _ Him Happ Ha Hrec)
      as (nvm1 & nvm2 & nvm3 & H1 & H2 & H3 & H4).
    destruct (addMounts_Ok_inv _ _ H1) as (Hnd & Hk1 & Hin1 & Hout1 & Hz1).
    destruct (mergeMountPoints_Ok_inv _ _ _ H2) as (Hk2 & Hdom2).
    specialize (Hk2 Hk1).
    pose proof (insertVolumes_result (Volumes (Manifest p)) nvm2 Hk2) as R3.
    rewrite H3 in R3. destruct R3 as (_ & _ & Hall).
    split_and!.
    + done.
    + split.
      * intros m mp Hm Hmp Hname.
        destruct (mergeMountPoints_paths _ _ _ H2 mp Hmp) as (t & Ht & Hpath).
        pose proof (mergeMountPoints_keep _ _ _ _ _ H2 (Hin1 m Hm)) as Hkeep.
        rewrite Hname, Ht in Hkeep. injection Hkeep as ->. done.
      * intros mp1 mp2 Hmp1 Hmp2 Hname.
        destruct (mergeMountPoints_paths _ _ _ H2 mp1 Hmp1) as (t1 & Ht1 & <-).
        destruct (mergeMountPoints_paths _ _ _ H2 mp2 Hmp2) as (t2 & Ht2 & <-).
        rewrite Hname, Ht2 in Ht1. by injection Ht1 as ->.
    + intros v Hv. apply elem_of_app.
      destruct (proj1 (Hdom2 _) (Hall v Hv)) as [[t Ht] | ?]; [left | by right].
      destruct (decide (vName v ∈ mVolume <$> raMounts app0)); [done|].
      by rewrite Hout1 in Ht.
    + intros mp Hmp.
      destruct (fillReadOnly_lookup _ _ _ _ _ H4) as [_ Hnames].
      destruct (Hnames mp Hmp) as (t & Ht & Hname).
      pose proof (insertVolumes_lookup _ _ _ H3 (mpName mp)) as L3.
      rewrite Ht in L3. destruct (nvm2 !! mpName mp) as [t2|] eqn:Ht2; [|done].
      rewrite option_fmap_Some in L3. injection L3 as ->.
      destruct (lastNamed _ _) as [v|] eqn:Hlast.
      * apply lastNamed_Some in Hlast as [Hv Hvn]. simpl in Hname.
        split; [congruence|]. rewrite <- Hvn. by apply list_elem_of_fmap_2.
      * destruct Hname. rewrite (mergeMountPoints_volume _ _ _ H2 Hz1 _ _ Ht2). done.
  - intros (Hnd & Hagree & Href & Hpoints).
    destruct (three_loops_Ok _ _ _ Hnd Hagree Href)
      as (nvm1 & nvm2 & nvm3 & H1 & H2 & H3 & Hz2 & Hdom2).
    destruct (fillReadOnly_Ok (MountPoints a) nvm3 zeroMountPoint) as ([nvm mpv] & H4).
    { intros mp Hmp. destruct (Hpoints mp Hmp) as [Hne Hin].
      destruct (Hdom2 (mpName mp)) as [t2 Ht2]; [by apply list_elem_of_fmap_2|].
      destruct (lastNamed_is_Some _ _ Hin) as [v Hlast].
      pose proof (insertVolumes_lookup _ _ _ H3 (mpName mp)) as L3.
      rewrite Ht2, Hlast, option_fmap_Some in L3.
      eexists. split; [exact L3|]. simpl.
      apply lastNamed_Some in Hlast as [_ ->]. done. }
    eexists. apply evaluateMounts_Ok with (nvm := nvm) (mp := mpv).
    rewrite (reconcile_loops _ _ _ _ _ Him Happ Ha), H1. simpl.
    rewrite H2. simpl. by rewrite H3.
Qed.

Lemma evaluateMounts_succeeds_iff_witness :
  (∃ l, evaluateMounts keyOrder "/rfs" "app" more_samples.mixedVolumes = Ok l)
  ↔ consistent [dataAtData] [dataAtDataPoint; more_samples.logsPoint]
      [hostVolume "data" "/srv/data" (Some false);
       hostVolume "logs" "/srv/logs" None].
Proof.
  apply (evaluateMounts_succeeds_iff keyOrder "/rfs" "app" more_samples.mixedVolumes
           (image [dataAtDataPoint; more_samples.logsPoint])
           (imageApp [dataAtDataPoint; more_samples.logsPoint])
           (firstApp [dataAtData])).
  - reflexivity.
  - reflexivity.
  - reflexivity.
Defined.

Lemma reconcile_never_mismatched app p vol mnt :
  reconcile app p ≠ Error (ErrMismatchedPair vol mnt).
Proof.
  unfold reconcile.
  destruct (Images p !! app) as [im|]; simpl; [|done].
  destruct (head (Apps (Manifest p))) as [app0|]; simpl; [|done].
  pose proof (addMounts_result (raMounts app0) ∅) as R1.
  destruct (forEach addMount _ _) as [nvm1| | |] eqn:H1; simpl; try done.
  destruct (imApp im) as [a|]; simpl; [|done].
  destruct (addMounts_Ok_inv _ _ H1) as (_ & Hk1 & _).
  pose proof (mergeMountPoints_result (MountPoints a) nvm1) as R2.
  destruct (forEach mergeMountPoint _ _) as [nvm2|[]| |] eqn:H2; simpl; try done.
  destruct R2 as (Hk2 & _). specialize (Hk2 Hk1).
  pose proof (insertVolumes_result (Volumes (Manifest p)) nvm2 Hk2) as R3.
  destruct (forEach insertVolume _ _) as [nvm3|[]| |] eqn:H3; simpl; try done.
  pose proof (fillReadOnly_result (MountPoints a) (nvm3, zeroMountPoint)) as R4.
  by destruct (forEach fillReadOnly _ _) as [?|?|[]|].
Qed.

Lemma evaluateMounts_not_mismatched order rfs app p vol mnt :
  evaluateMounts order rfs app p ≠ Error (ErrMismatchedPair vol mnt).
Proof.
  unfold evaluateMounts.
  pose proof (reconcile_never_mismatched app p vol mnt) as H.
  destruct (reconcile app p) as [?|?| |]; simpl; congruence.
Qed.

(** X2. [evaluateMounts] never returns the error "mismatched volume:mount
    pair": every record is stored under the volume name of its mount, so
    the check that guards it cannot fail. *)
Theorem evaluateMounts_never_mismatched order rfs app p :
  isMismatchedPair (evaluateMounts order rfs app p) = false.
Proof.
  destruct (evaluateMounts order rfs app p) as [?|[]| |] eqn:E; try done.
  by apply evaluateMounts_not_mismatched in E.
Qed.

(** X3. In a list [evaluateMounts] returns, the last volume of each name has
    its operations next to each other: the shared and recursive mark of the
    volume's source, the recursive bind mount of the source on the path of
    the mounts and mount points of that name, and then the read-only
    remount of that path exactly when the volume's own read-only flag is
    true or, the volume leaving it unset and some mount point having its
    name, the last mount point of the image is read-only. *)
Theorem volume_operations order rfs app p im a app0 v l :
  validRange order →
  Images p !! app = Some im → head (Apps (Manifest p)) = Some app0 →
  imApp im = Some a →
  evaluateMounts order rfs app p = Ok l →
  lastNamed (vName v) (Volumes (Manifest p)) = Some v →
  ∃ path l1 l2,
    l = l1 ++
        [ {| HostPath := ""; TargetPrefixPath := ""; RelTargetPath := vSource v;
             Fs := "none"; Flags := Z.lor syscall.MS_REC syscall.MS_SHARED |};
          {| HostPath := vSource v; TargetPrefixPath := rfs; RelTargetPath := path;
             Fs := "none"; Flags := Z.lor syscall.MS_BIND syscall.MS_REC |} ] ++
        (if resolvedReadOnly (MountPoints a) v
         then [ {| HostPath := ""; TargetPrefixPath := rfs; RelTargetPath := path;
                   Fs := "none";
                   Flags := Z.lor (Z.lor (Z.lor syscall.MS_BIND syscall.MS_REC)
                                     syscall.MS_REMOUNT) syscall.MS_RDONLY |} ]
         else []) ++ l2
    ∧ (∀ m, m ∈ raMounts app0 → mVolume m = vName v → mPath m = path)
    ∧ (∀ mp, mp ∈ MountPoints a → mpName mp = vName v → mpPath mp = path).
Proof.
  intros Hord Him Happ Ha Hl Hlast.
  destruct (evaluateMounts_Ok_inv _ _ _ _ _ Hl) as [[nvm mpv] Hrec].
  destruct (volume_record _ _ _ _ _ _ _ _ Him Happ Ha Hrec Hlast)
    as (t & Ht & HV & _ & Hms & Hmps & Hro).
  destruct (tuple_block order rfs app p nvm mpv _ t Hord Hrec Ht) as (l1 & l2 & Hb).
  rewrite Hl in Hb. injection Hb as ->.
  exists (mPath (M t)), l1, l2. split_and!; [|done|done].
  assert (vSource (V t) = vSource v) as Hsrc.
  { rewrite HV. unfold defaulted. case_decide; [|done]. by destruct (vReadOnly v). }
  unfold mountTriple, markShared, bindMount, remountReadOnly.
  by rewrite Hro, Hsrc.
Qed.

Lemma volume_operations_witness :
  ∃ path l1 l2,
    [ {| HostPath := ""; TargetPrefixPath := ""; RelTargetPath := "/srv/logs";
         Fs := "none"; Flags := 1064960 |};
      {| HostPath := "/srv/logs"; TargetPrefixPath := "/rfs";
         RelTargetPath := "/logs"; Fs := "none"; Flags := 20480 |};
      {| HostPath := ""; TargetPrefixPath := "/rfs"; RelTargetPath := "/logs";
         Fs := "none"; Flags := 20513 |};
      {| HostPath := ""; TargetPrefixPath := ""; RelTargetPath := "/srv/data";
         Fs := "none"; Flags := 1064960 |};
      {| HostPath := "/srv/data"; TargetPrefixPath := "/rfs";
         RelTargetPath := "/data"; Fs := "none"; Flags := 20480 |} ]
    = l1 ++
        [ {| HostPath := ""; TargetPrefixPath := "";
             RelTargetPath := vSource (hostVolume "data" "/srv/data" (Some false));
             Fs := "none"; Flags := Z.lor syscall.MS_REC syscall.MS_SHARED |};
          {| HostPath := vSource (hostVolume "data" "/srv/data" (Some false));
             TargetPrefixPath := "/rfs"; RelTargetPath := path;
             Fs := "none"; Flags := Z.lor syscall.MS_BIND syscall.MS_REC |} ] ++
        (if resolvedReadOnly [dataAtDataPoint; more_samples.logsPoint]
              (hostVolume "data" "/srv/data" (Some false))
         then [ {| HostPath := ""; TargetPrefixPath := "/rfs"; RelTargetPath := path;
                   Fs := "none";
                   Flags := Z.lor (Z.lor (Z.lor syscall.MS_BIND syscall.MS_REC)
                                     syscall.MS_REMOUNT) syscall.MS_RDONLY |} ]
         else []) ++ l2
    ∧ (∀ m, m ∈ [dataAtData] →
         mVolume m = vName (hostVolume "data" "/srv/data" (Some false)) →
         mPath m = path)
    ∧ (∀ mp, mp ∈ [dataAtDataPoint; more_samples.logsPoint] →
         mpName mp = vName (hostVolume "data" "/srv/data" (Some false)) →
         mpPath mp = path).
Proof.
  apply (volume_operations keyOrder "/rfs" "app" more_samples.mixedVolumes
           (image [dataAtDataPoint; more_samples.logsPoint])
           (imageApp [dataAtDataPoint; more_samples.logsPoint])
           (firstApp [dataAtData])
           (hostVolume "data" "/srv/data" (Some false))).
  - apply validRange_keyOrder.
  - reflexivity.
  - reflexivity.
  - reflexivity.
  - vm_compute. reflexivity.
  - vm_compute. reflexivity.
Defined.

(** X4. A mount of the pod's first app whose volume name is that of no
    volume and of no mount point is not refused: in a list [evaluateMounts]
    returns, it stands as the shared mark of the empty path followed by the
    bind mount of the empty source on the mount's path. *)
Theorem mount_without_volume order rfs app p im a app0 m l :
  validRange order →
  Images p !! app = Some im → head (Apps (Manifest p)) = Some app0 →
  imApp im = Some a →
  evaluateMounts order rfs app p = Ok l →
  m ∈ raMounts app0 →
  mVolume m ∉ vName <$> Volumes (Manifest p) →
  mVolume m ∉ mpName <$> MountPoints a →
  ∃ l1 l2,
    l = l1 ++
        [ {| HostPath := ""; TargetPrefixPath := ""; RelTargetPath := "";
             Fs := "none"; Flags := Z.lor syscall.MS_REC syscall.MS_SHARED |};
          {| HostPath := ""; TargetPrefixPath := rfs; RelTargetPath := mPath m;
             Fs := "none"; Flags := Z.lor syscall.MS_BIND syscall.MS_REC |} ] ++ l2.
Proof.
  intros Hord Him Happ Ha Hl Hm Hvol Hmp.
  destruct (evaluateMounts_Ok_inv _ _ _ _ _ Hl) as [[nvm mpv] Hrec].
  destruct (reconcile_Ok_inv _ _ _ _ _ _ _ Him Happ Ha Hrec)
    as (nvm1 & nvm2 & nvm3 & H1 & H2 & H3 & H4).
  destruct (addMounts_Ok_inv _ _ H1) as (_ & _ & Hin1 & _).
  pose proof (mergeMountPoints_keep _ _ _ _ _ H2 (Hin1 m Hm)) as Ht2.
  pose proof (insertVolumes_lookup _ _ _ H3 (mVolume m)) as L3.
  rewrite Ht2, (lastNamed_None _ _ Hvol), option_fmap_Some in L3.
  destruct (fillReadOnly_lookup _ _ _ _ _ H4) as [L4 _].
  specialize (L4 (mVolume m)).
  rewrite L3, option_fmap_Some, decide_False in L4 by done.
  destruct (tuple_block order rfs app p nvm mpv _ _ Hord Hrec L4) as (l1 & l2 & Hb).
  rewrite Hl in Hb. injection Hb as ->. by exists l1, l2.
Qed.

Lemma mount_without_volume_witness :
  ∃ l1 l2,
    [ {| HostPath := ""; TargetPrefixPath := ""; RelTargetPath := "";
         Fs := "none"; Flags := 1064960 |};
      {| HostPath := ""; TargetPrefixPath := "/rfs"; RelTargetPath := "/data";
         Fs := "none"; Flags := 20480 |} ]
    = l1 ++
        [ {| HostPath := ""; TargetPrefixPath := ""; RelTargetPath := "";
             Fs := "none"; Flags := Z.lor syscall.MS_REC syscall.MS_SHARED |};
          {| HostPath := ""; TargetPrefixPath := "/rfs";
             RelTargetPath := mPath dataAtData;
             Fs := "none"; Flags := Z.lor syscall.MS_BIND syscall.MS_REC |} ] ++ l2.
Proof.
  apply (mount_without_volume keyOrder "/rfs" "app" more_samples.mountWithoutVolume
           (image []) (imageApp []) (firstApp [dataAtData]) dataAtData).
  - apply validRange_keyOrder.
  - reflexivity.
  - reflexivity.
  - reflexivity.
  - vm_compute. reflexivity.
  - simpl. by left.
  - simpl. apply not_elem_of_nil.
  - simpl. apply not_elem_of_nil.
Defined.

(** X5. When the checks of the first three loops pass (no volume name
    occurs twice among the pod-level mounts, the paths of one name agree,
    every volume is named by a mount or a mount point) and some mount point
    has the name of no volume, [evaluateMounts] ends the process through
    log.Fatalf with the message "missing volume for mountpoint" for a mount
    point of the image. *)
Theorem missing_volume_exits order rfs app p im a app0 mp :
  Images p !! app = Some im → head (Apps (Manifest p)) = Some app0 →
  imApp im = Some a →
  NoDup (mVolume <$> raMounts app0) →
  pathsAgree (raMounts app0) (MountPoints a) →
  (∀ v, v ∈ Volumes (Manifest p) →
     vName v ∈ (mVolume <$> raMounts app0) ++ (mpName <$> MountPoints a)) →
  mp ∈ MountPoints a → mpName mp ∉ vName <$> Volumes (Manifest p) →
  ∃ name, name ∈ mpName <$> MountPoints a
    ∧ evaluateMounts order rfs app p = Fatal (FatalMissingVolume name).
Proof.
  intros Him Happ Ha Hnd Hagree Href Hmp Hvol.
  destruct (three_loops_Ok _ _ _ Hnd Hagree Href)
    as (nvm1 & nvm2 & nvm3 & H1 & H2 & H3 & Hz2 & Hdom2).
  pose proof (fillReadOnly_result (MountPoints a) (nvm3, zeroMountPoint)) as R4.
  assert (reconcile app p = forEach fillReadOnly (MountPoints a) (nvm3, zeroMountPoint))
    as Hrec.
  { rewrite (reconcile_loops _ _ _ _ _ Him Happ Ha), H1. simpl.
    rewrite H2. simpl. by rewrite H3. }
  destruct (forEach fillReadOnly _ _) as [[nvm mpv]| |[|name]|] eqn:H4; try done.
  - exfalso. destruct (fillReadOnly_lookup _ _ _ _ _ H4) as [_ Hnames].
    destruct (Hnames mp Hmp) as (t & Ht & Hname).
    pose proof (insertVolumes_lookup _ _ _ H3 (mpName mp)) as L3.
    rewrite Ht, (lastNamed_None _ _ Hvol) in L3.
    destruct (nvm2 !! mpName mp) as [t2|] eqn:Ht2; [|done].
    rewrite option_fmap_Some in L3. injection L3 as ->.
    apply Hname. by rewrite (Hz2 _ _ Ht2).
  - exists name. split; [by eapply fillReadOnly_fatal|].
    by apply evaluateMounts_failure.
Qed.

Lemma missing_volume_exits_witness :
  ∃ name, name ∈ mpName <$> MountPoints (imageApp [dataAtMnt])
    ∧ evaluateMounts keyOrder "/rfs" "app" more_samples.pointWithoutVolume
      = Fatal (FatalMissingVolume name).
Proof.
  apply (missing_volume_exits keyOrder "/rfs" "app" more_samples.pointWithoutVolume
           (image [dataAtMnt]) (imageApp [dataAtMnt]) (firstApp []) dataAtMnt).
  - reflexivity.
  - reflexivity.
  - reflexivity.
  - simpl. constructor.
  - split.
    + intros m mp' Hm. by apply elem_of_nil in Hm.
    + intros mp1 mp2 ->%list_elem_of_singleton ->%list_elem_of_singleton. done.
  - intros v Hv. by apply elem_of_nil in Hv.
  - simpl. by left.
  - simpl. apply not_elem_of_nil.
Defined.

End reconciled_records.

(** * The operations of the reconciled mounts *)

Section reconciled_plan.
Import fly plan records operations samples more_samples plan_samples.

(** ** The records of the map, from the declarations *)

Lemma reconcile_lookup app p im a app0 nvm mpv k :
  Images p !! app = Some im → head (Apps (Manifest p)) = Some app0 →
  imApp im = Some a →
  reconcile app p = Ok (nvm, mpv) →
  ∃ nvm2 : tuples,
    keyed nvm2
    ∧ (∀ t2, nvm2 !! k = Some t2 → V t2 = zeroVolume)
    ∧ (is_Some (nvm2 !! k)
       ↔ k ∈ (mVolume <$> raMounts app0) ++ (mpName <$> MountPoints a))
    ∧ (∀ m, m ∈ raMounts app0 → mVolume m = k →
         nvm2 !! k = Some {| V := zeroVolume; M := m |})
    ∧ nvm !! k =
        (λ t, let t3 := match lastNamed k (Volumes (Manifest p)) with
                        | Some v => {| V := v; M := M t |}
                        | None => t
                        end in
              if decide (k ∈ mpName <$> MountPoints a) then defaultedTuple t3 else t3)
        <$> nvm2 !! k
    ∧ (k ∈ mpName <$> MountPoints a → is_Some (lastNamed k (Volumes (Manifest p)))).
Proof.
  intros Him Happ Ha Hrec.
  destruct (reconcile_Ok_inv _ _ _ _ _ _ _ Him Happ Ha Hrec)
    as (nvm1 & nvm2 & nvm3 & H1 & H2 & H3 & H4).
  destruct (addMounts_Ok_inv _ _ H1) as (Hnd & Hk1 & Hin1 & Hout1 & Hz1).
  destruct (mergeMountPoints_Ok_inv _ _ _ H2) as (Hk2 & Hdom2).
  pose proof (insertVolumes_lookup _ _ _ H3 k) as L3.
  destruct (fillReadOnly_lookup _ _ _ _ _ H4) as [L4 Hnames].
  exists nvm2. split_and!.
  - by apply Hk2.
  - intros t2. apply (mergeMountPoints_volume _ _ _ H2 Hz1).
  - rewrite Hdom2, elem_of_app. split; (intros [Hs | ?]; [left | by right]).
    + destruct (decide (k ∈ mVolume <$> raMounts app0)); [done|].
      rewrite Hout1 in Hs by done. by destruct Hs.
    + apply list_elem_of_fmap in Hs as (m & -> & Hm). by rewrite (Hin1 m Hm).
  - intros m Hm <-. by apply (mergeMountPoints_keep _ _ _ _ _ H2), Hin1.
  - rewrite (L4 k), L3. by destruct (nvm2 !! k).
  - intros (mp & -> & Hmp)%list_elem_of_fmap.
    destruct (Hnames mp Hmp) as (t & Ht & Hname).
    rewrite (insertVolumes_lookup _ _ _ H3 (mpName mp)) in Ht.
    destruct (nvm2 !! mpName mp) as [t2|] eqn:Ht2; [|done].
    rewrite option_fmap_Some in Ht. injection Ht as <-.
    destruct (lastNamed _ _) as [v|]; [done|].
    destruct Hname. by rewrite (mergeMountPoints_volume _ _ _ H2 Hz1 _ _ Ht2).
Qed.


Lemma reconcile_domain app p im a app0 nvm mpv k :
  Images p !! app = Some im → head (Apps (Manifest p)) = Some app0 →
  imApp im = Some a →
  reconcile app p = Ok (nvm, mpv) →
  is_Some (nvm !! k)
  ↔ k ∈ (mVolume <$> raMounts app0) ++ (mpName <$> MountPoints a).
Proof.
  intros Him Happ Ha Hrec.
  destruct (reconcile_lookup _ _ _ _ _ _ _ k Him Happ Ha Hrec)
    as (nvm2 & _ & _ & Hdom & _ & Hk & _).
  rewrite <- Hdom, Hk. apply fmap_is_Some.
Qed.

(** The record stored under a name, read as a reconciled mount, is the one
    the declarations give for that name. *)
Lemma record_reconciles app p im a app0 nvm mpv k t :
  Images p !! app = Some im → head (Apps (Manifest p)) = Some app0 →
  imApp im = Some a →
  reconcile app p = Ok (nvm, mpv) →
  nvm !! k = Some t →
  mVolume (M t) = k
  ∧ reconciles (raMounts app0) (MountPoints a) (Volumes (Manifest p))
      {| rmName := k; rmSource := vSource (V t); rmTarget := mPath (M t);
         rmReadOnly := isReadOnly mpv t |}.
Proof.
  intros Him Happ Ha Hrec Ht.
  pose proof (proj1 (reconcile_domain _ _ _ _ _ _ _ k Him Happ Ha Hrec)
                (mk_is_Some _ _ Ht)) as Hname.
  destruct (lastNamed k (Volumes (Manifest p))) as [v|] eqn:Hlast.
  - destruct (lastNamed_Some _ _ _ Hlast) as [Hv <-].
    destruct (volume_record _ _ _ _ _ _ _ _ Him Happ Ha Hrec Hlast)
      as (t' & Ht' & HV & HM & Hms & Hmps & Hro).
    rewrite Ht in Ht'. injection Ht' as <-.
    split; [done|]. unfold reconciles. simpl. rewrite Hlast.
    split_and!; [done | done | done | | done].
    rewrite HV. unfold defaulted. case_decide; [|done]. by destruct (vReadOnly v).
  - destruct (reconcile_lookup _ _ _ _ _ _ _ k Him Happ Ha Hrec)
      as (nvm2 & Hk2 & Hz & Hdom & Hms & Hk & Hpoint).
    assert (k ∉ mpName <$> MountPoints a) as Hnp.
    { intros [v Hv]%Hpoint. by rewrite Hlast in Hv. }
    rewrite Hk, Hlast in Ht. destruct (nvm2 !! k) as [t2|] eqn:Ht2; [|done].
    rewrite option_fmap_Some, decide_False in Ht by done. injection Ht as <-.
    pose proof (Hz t2 eq_refl) as HV.
    split; [by apply Hk2|]. unfold reconciles. simpl. rewrite Hlast.
    split_and!.
    + done.
    + intros m Hm Hmk. specialize (Hms m Hm Hmk). by injection Hms as ->.
    + intros mp Hmp Hmpk. destruct Hnp. rewrite <- Hmpk.
      by apply list_elem_of_fmap_2.
    + by rewrite HV.
    + unfold isReadOnly. by rewrite HV.
Qed.

(** The operations appended for the records are those of the reconciled
    mounts the records are read as. *)
Lemma appended_operations rfs mpv (kts : list (string * volumeMountTuple)) :
  flat_map (mountTriple rfs mpv) kts.*2
  = concat ((λ r, [ {| HostPath := ""; TargetPrefixPath := "";
                       RelTargetPath := rmSource r; Fs := "none";
                       Flags := 1064960 |};
                    {| HostPath := rmSource r; TargetPrefixPath := rfs;
                       RelTargetPath := rmTarget r; Fs := "none";
                       Flags := 20480 |} ]
                  ++ (if rmReadOnly r
                      then [ {| HostPath := ""; TargetPrefixPath := rfs;
                                RelTargetPath := rmTarget r; Fs := "none";
                                Flags := 20513 |} ]
                      else []))
            <$> ((λ kt, {| rmName := kt.1; rmSource := vSource (V kt.2);
                           rmTarget := mPath (M kt.2);
                           rmReadOnly := isReadOnly mpv kt.2 |}) <$> kts)).
Proof.
  induction kts as [|[k t] kts IH]; [done|].
  rewrite !fmap_cons. cbn [flat_map concat fst snd]. rewrite IH.
  unfold mountTriple, markShared, bindMount, remountReadOnly. simpl.
  by destruct (isReadOnly mpv t).
Qed.

(** C3. In a list [evaluateMounts] returns, every reconciled mount (one for
    each name of a mount of the pod or of a mount point of the image) has
    its operations next to each other and in this order: the mount with the
    flags MS_REC|MS_SHARED (1064960) of the host source on itself, the
    shared and recursive mark; the mount with the flags MS_BIND|MS_REC
    (20480) of the host source on the target path below the root file
    system of the app, the recursive bind mount; and then, exactly when the
    resolved read-only flag is true, the mount with the flags
    MS_BIND|MS_REC|MS_REMOUNT|MS_RDONLY (20513) on the same target, the
    read-only remount.  The list holds nothing else.  The source is the
    source of the last volume of the name, the target the path of the
    mounts and mount points of the name, and the resolved flag the volume's
    own flag when it sets one; when it leaves the flag unset and a mount
    point bears the name, the flag is what the range variable of the loop
    over the mount points holds at its end, the flag of the last mount
    point of the image. *)
Theorem evaluateMounts_triples order rfs app p im a app0 l :
  validRange order →
  Images p !! app = Some im → head (Apps (Manifest p)) = Some app0 →
  imApp im = Some a →
  evaluateMounts order rfs app p = Ok l →
  ∃ rs : list ReconciledMount,
    NoDup (rmName <$> rs)
    ∧ (∀ k, k ∈ (mVolume <$> raMounts app0) ++ (mpName <$> MountPoints a) →
          k ∈ rmName <$> rs)
    ∧ Forall (reconciles (raMounts app0) (MountPoints a) (Volumes (Manifest p))) rs
    ∧ l = concat
            ((λ r, [ {| HostPath := ""; TargetPrefixPath := "";
                        RelTargetPath := rmSource r; Fs := "none";
                        Flags := 1064960 |};
                     {| HostPath := rmSource r; TargetPrefixPath := rfs;
                        RelTargetPath := rmTarget r; Fs := "none";
                        Flags := 20480 |} ]
                   ++ (if rmReadOnly r
                       then [ {| HostPath := ""; TargetPrefixPath := rfs;
                                 RelTargetPath := rmTarget r; Fs := "none";
                                 Flags := 20513 |} ]
                       else []))
             <$> rs)
    ∧ (∀ v, lastNamed (vName v) (Volumes (Manifest p)) = Some v →
         ∃ r, r ∈ rs ∧ rmName r = vName v ∧ rmSource r = vSource v
           ∧ rmReadOnly r
             = match vReadOnly v with
               | Some (PtrOwn b) => b
               | Some PtrRangeVar =>
                   mpReadOnly (last_def zeroMountPoint (MountPoints a))
               | None =>
                   if decide (vName v ∈ mpName <$> MountPoints a)
                   then mpReadOnly (last_def zeroMountPoint (MountPoints a))
                   else false
               end).
Proof.
  intros Hord Him Happ Ha Hl.
  destruct (evaluateMounts_Ok_inv _ _ _ _ _ Hl) as [[nvm mpv] Hrec].
  rewrite (evaluateMounts_Ok _ _ _ _ _ _ Hrec) in Hl. injection Hl as <-.
  assert (∀ k t, (k, t) ∈ order nvm ↔ nvm !! k = Some t) as Hin.
  { intros k t. by rewrite (Hord nvm), elem_of_map_to_list. }
  assert (∀ k, k ∈ (mVolume <$> raMounts app0) ++ (mpName <$> MountPoints a) →
               k ∈ rmName <$> ((λ kt, {| rmName := kt.1; rmSource := vSource (V kt.2);
                                         rmTarget := mPath (M kt.2);
                                         rmReadOnly := isReadOnly mpv kt.2 |})
                                 <$> order nvm)) as Hcover.
  { intros k [t Ht]%(reconcile_domain _ _ _ _ _ _ _ k Him Happ Ha Hrec).
    rewrite <- list_fmap_compose. apply list_elem_of_fmap.
    exists (k, t). split; [done | by apply Hin]. }
  assert (Forall (reconciles (raMounts app0) (MountPoints a) (Volumes (Manifest p)))
            ((λ kt, {| rmName := kt.1; rmSource := vSource (V kt.2);
                       rmTarget := mPath (M kt.2);
                       rmReadOnly := isReadOnly mpv kt.2 |}) <$> order nvm))
    as Hall.
  { apply Forall_fmap, Forall_forall. intros [k t] Hkt%Hin. simpl.
    by apply (record_reconciles _ _ _ _ _ _ _ _ _ Him Happ Ha Hrec). }
  eexists. split_and!; [| exact Hcover | exact Hall | apply appended_operations |].
  - rewrite <- list_fmap_compose.
    assert (NoDup (order nvm).*1) as Hnd
        by (rewrite (Hord nvm); apply NoDup_fst_map_to_list).
    exact Hnd.
  - intros v Hlast.
    assert (vName v ∈ rmName <$> ((λ kt, {| rmName := kt.1;
                                            rmSource := vSource (V kt.2);
                                            rmTarget := mPath (M kt.2);
                                            rmReadOnly := isReadOnly mpv kt.2 |})
                                    <$> order nvm)) as Hv.
    { apply Hcover.
      destruct (volume_record _ _ _ _ _ _ _ _ Him Happ Ha Hrec Hlast)
        as (t & Ht & _).
      by apply (reconcile_domain _ _ _ _ _ _ _ _ Him Happ Ha Hrec). }
    apply list_elem_of_fmap in Hv as (r & Hname & Hr).
    exists r. split; [done|]. split; [done|].
    rewrite Forall_forall in Hall. destruct (Hall r Hr) as (_ & _ & _ & Hvol).
    rewrite <- Hname, Hlast in Hvol. destruct Hvol as [-> ->].
    done.
Qed.


Lemma evaluateMounts_triples_witness :
  ∃ rs : list ReconciledMount,
    NoDup (rmName <$> rs)
    ∧ (∀ k, k ∈ (mVolume <$> [dataAtData])
                ++ (mpName <$> [dataAtDataPoint; logsPoint]) →
          k ∈ rmName <$> rs)
    ∧ Forall (reconciles [dataAtData] [dataAtDataPoint; logsPoint]
                [hostVolume "data" "/srv/data" (Some false);
                 hostVolume "logs" "/srv/logs" None]) rs
    ∧ [ {| HostPath := ""; TargetPrefixPath := ""; RelTargetPath := "/srv/logs";
           Fs := "none"; Flags := 1064960 |};
        {| HostPath := "/srv/logs"; TargetPrefixPath := "/rfs";
           RelTargetPath := "/logs"; Fs := "none"; Flags := 20480 |};
        {| HostPath := ""; TargetPrefixPath := "/rfs"; RelTargetPath := "/logs";
           Fs := "none"; Flags := 20513 |};
        {| HostPath := ""; TargetPrefixPath := ""; RelTargetPath := "/srv/data";
           Fs := "none"; Flags := 1064960 |};
        {| HostPath := "/srv/data"; TargetPrefixPath := "/rfs";
           RelTargetPath := "/data"; Fs := "none"; Flags := 20480 |} ]
      = concat
          ((λ r, [ {| HostPath := ""; TargetPrefixPath := "";
                      RelTargetPath := rmSource r; Fs := "none";
                      Flags := 1064960 |};
                   {| HostPath := rmSource r; TargetPrefixPath := "/rfs";
                      RelTargetPath := rmTarget r; Fs := "none";
                      Flags := 20480 |} ]
                 ++ (if rmReadOnly r
                     then [ {| HostPath := ""; TargetPrefixPath := "/rfs";
                               RelTargetPath := rmTarget r; Fs := "none";
                               Flags := 20513 |} ]
                     else []))
           <$> rs)
    ∧ (∀ v, lastNamed (vName v)
              [hostVolume "data" "/srv/data" (Some false);
               hostVolume "logs" "/srv/logs" None] = Some v →
         ∃ r, r ∈ rs ∧ rmName r = vName v ∧ rmSource r = vSource v
           ∧ rmReadOnly r
             = match vReadOnly v with
               | Some (PtrOwn b) => b
               | Some PtrRangeVar =>
                   mpReadOnly
                     (last_def zeroMountPoint [dataAtDataPoint; logsPoint])
               | None =>
                   if decide (vName v ∈ mpName <$> [dataAtDataPoint; logsPoint])
                   then mpReadOnly
                          (last_def zeroMountPoint [dataAtDataPoint; logsPoint])
                   else false
               end).
Proof.
  apply (evaluateMounts_triples keyOrder "/rfs" "app" mixedVolumes
           (image [dataAtDataPoint; logsPoint])
           (imageApp [dataAtDataPoint; logsPoint])
           (firstApp [dataAtData])).
  - apply validRange_keyOrder.
  - reflexivity.
  - reflexivity.
  - reflexivity.
  - vm_compute. reflexivity.
Defined.

(** ** The failure for a volume that nothing mounts *)

(** When the first two loops pass, the declared paths agree. *)
Lemma merged_paths_agree ms mps (nvm1 nvm2 : tuples) :
  forEach addMount ms ∅ = Ok nvm1 →
  forEach mergeMountPoint mps nvm1 = Ok nvm2 →
  pathsAgree ms mps.
Proof.
  intros H1 H2.
  destruct (addMounts_Ok_inv _ _ H1) as (_ & _ & Hin1 & _). split.
  - intros m mp Hm Hmp Hname.
    destruct (mergeMountPoints_paths _ _ _ H2 mp Hmp) as (t & Ht & Hpath).
    pose proof (mergeMountPoints_keep _ _ _ _ _ H2 (Hin1 m Hm)) as Hkeep.
    rewrite Hname, Ht in Hkeep. by injection Hkeep as ->.
  - intros mp1 mp2 Hmp1 Hmp2 Hname.
    destruct (mergeMountPoints_paths _ _ _ H2 mp1 Hmp1) as (t1 & Ht1 & <-).
    destruct (mergeMountPoints_paths _ _ _ H2 mp2 Hmp2) as (t2 & Ht2 & <-).
    rewrite Hname, Ht2 in Ht1. by injection Ht1 as ->.
Qed.

(** Declared paths that disagree, of a mount and a mount point or of two
    mount points, give the conflict error when no mount is duplicated. *)
Lemma disagreeing_paths_error order rfs app p im a app0 :
  Images p !! app = Some im → head (Apps (Manifest p)) = Some app0 →
  imApp im = Some a →
  NoDup (mVolume <$> raMounts app0) →
  ¬ pathsAgree (raMounts app0) (MountPoints a) →
  ∃ name, name ∈ mpName <$> MountPoints a
    ∧ evaluateMounts order rfs app p = Error (ErrConflictingPath name).
Proof.
  intros Him Happ Ha Hnd Hdis.
  destruct (addMounts_NoDup _ Hnd) as (nvm1 & H1 & _).
  pose proof (mergeMountPoints_result (MountPoints a) nvm1) as R2.
  destruct (forEach mergeMountPoint (MountPoints a) nvm1)
    as [nvm2|[name| |]| |] eqn:H2; try done.
  - destruct Hdis. by eapply merged_paths_agree.
  - exists name. split; [done|]. apply evaluateMounts_failure.
    rewrite (reconcile_loops _ _ _ _ _ Him Happ Ha), H1. simpl. by rewrite H2.
Qed.

(** C8, amended. When no mount of the pod's first app and no mount point
    of the app's image names a volume of the pod manifest, [evaluateMounts]
    returns no list of mounts, and which failure it ends in follows the
    order of its checks.  When a volume name occurs twice among the mounts
    of the pod, it ends the process through log.Fatalf for a duplicated
    mount.  When no name occurs twice and the declared paths of one name
    disagree, between a mount and a mount point or between two mount
    points, it returns the conflict error for a mount point of the image.
    When both checks pass, it returns the error "missing mount" for a
    volume of the manifest that no mount and no mount point names. *)
Theorem missing_mount_detected order rfs app p im a app0 v :
  Images p !! app = Some im → head (Apps (Manifest p)) = Some app0 →
  imApp im = Some a →
  v ∈ Volumes (Manifest p) →
  vName v ∉ mVolume <$> raMounts app0 → vName v ∉ mpName <$> MountPoints a →
  (∀ l, evaluateMounts order rfs app p ≠ Ok l)
  ∧ (NoDup (mVolume <$> raMounts app0) →
     pathsAgree (raMounts app0) (MountPoints a) →
     ∃ name, evaluateMounts order rfs app p = Error (ErrMissingMount name)
       ∧ name ∈ vName <$> Volumes (Manifest p)
       ∧ (name ∉ mVolume <$> raMounts app0) ∧ (name ∉ mpName <$> MountPoints a))
  ∧ (¬ NoDup (mVolume <$> raMounts app0) →
     ∃ name, name ∈ mVolume <$> raMounts app0
       ∧ evaluateMounts order rfs app p = Fatal (FatalDuplicatedMount name))
  ∧ (NoDup (mVolume <$> raMounts app0) →
     ¬ pathsAgree (raMounts app0) (MountPoints a) →
     ∃ name, name ∈ mpName <$> MountPoints a
       ∧ evaluateMounts order rfs app p = Error (ErrConflictingPath name)).
Proof.
  intros Him Happ Ha Hv Hnm Hnmp. split_and!.
  - intros l [s Hs]%evaluateMounts_Ok_inv.
    pose proof (unreferenced_volume_not_Ok app p im a app0 v Him Happ Ha Hv Hnm Hnmp)
      as Hres.
    by rewrite Hs in Hres.
  - intros Hnd Hagree. by eapply missing_mount_error.
  - intros Hdup. by eapply duplicated_mount_fatal.
  - intros Hnd Hdis. by eapply disagreeing_paths_error.
Qed.

Lemma missing_mount_detected_witness :
  ((∀ l, evaluateMounts keyOrder "/rfs" "app" spareVolume ≠ Ok l)
   ∧ ∃ name, evaluateMounts keyOrder "/rfs" "app" spareVolume
             = Error (ErrMissingMount name)
       ∧ name ∈ vName <$> Volumes (Manifest spareVolume)
       ∧ (name ∉ mVolume <$> raMounts (firstApp [dataAtData]))
       ∧ (name ∉ mpName <$> MountPoints (imageApp [dataAtDataPoint])))
  ∧ (∃ name, name ∈ mVolume <$> raMounts (firstApp [dataAtData; dataAtSrv])
       ∧ evaluateMounts keyOrder "/rfs" "app" duplicateAndSpare
         = Fatal (FatalDuplicatedMount name))
  ∧ (∃ name, name ∈ mpName <$> MountPoints (imageApp [dataAtMnt])
       ∧ evaluateMounts keyOrder "/rfs" "app" conflictAndSpare
         = Error (ErrConflictingPath name))
  ∧ (∃ name, name ∈ mpName <$> MountPoints (imageApp [dataAtMnt; dataAtDataPoint])
       ∧ evaluateMounts keyOrder "/rfs" "app" pointsDisagreeAndSpare
         = Error (ErrConflictingPath name)).
Proof.
  split; [|split; [|split]].
  - destruct (missing_mount_detected keyOrder "/rfs" "app" spareVolume
                (image [dataAtDataPoint]) (imageApp [dataAtDataPoint])
                (firstApp [dataAtData]) (hostVolume "spare" "/srv/spare" None))
      as (H1 & H2 & _).
    + reflexivity.
    + reflexivity.
    + reflexivity.
    + simpl. right. by left.
    + simpl. by intros [=]%list_elem_of_singleton.
    + simpl. by intros [=]%list_elem_of_singleton.
    + split; [exact H1|]. apply H2.
      * simpl. apply NoDup_singleton.
      * split.
        -- intros m mp ->%list_elem_of_singleton ->%list_elem_of_singleton. done.
        -- intros mp1 mp2 ->%list_elem_of_singleton ->%list_elem_of_singleton. done.
  - destruct (missing_mount_detected keyOrder "/rfs" "app" duplicateAndSpare
                (image []) (imageApp [])
                (firstApp [dataAtData; dataAtSrv])
                (hostVolume "spare" "/srv/spare" None))
      as (_ & _ & H3 & _).
    + reflexivity.
    + reflexivity.
    + reflexivity.
    + simpl. by left.
    + simpl. intros [[=] | [[=] | []%elem_of_nil]%elem_of_cons]%elem_of_cons.
    + simpl. by intros ?%elem_of_nil.
    + apply H3. simpl. intros Hnd. apply NoDup_cons in Hnd as [Hnotin _].
      apply Hnotin. by left.
  - destruct (missing_mount_detected keyOrder "/rfs" "app" conflictAndSpare
                (image [dataAtMnt]) (imageApp [dataAtMnt])
                (firstApp [dataAtData]) (hostVolume "spare" "/srv/spare" None))
      as (_ & _ & _ & H4).
    + reflexivity.
    + reflexivity.
    + reflexivity.
    + simpl. by left.
    + simpl. by intros [=]%list_elem_of_singleton.
    + simpl. by intros [=]%list_elem_of_singleton.
    + apply H4; [simpl; apply NoDup_singleton|].
      intros [Hagree _].
      by specialize (Hagree dataAtData dataAtMnt
                       ltac:(by left) ltac:(by left) eq_refl).
  - destruct (missing_mount_detected keyOrder "/rfs" "app" pointsDisagreeAndSpare
                (image [dataAtMnt; dataAtDataPoint])
                (imageApp [dataAtMnt; dataAtDataPoint])
                (firstApp []) (hostVolume "spare" "/srv/spare" None))
      as (_ & _ & _ & H4).
    + reflexivity.
    + reflexivity.
    + reflexivity.
    + simpl. right. by left.
    + simpl. by intros ?%elem_of_nil.
    + simpl. intros [[=] | [[=] | []%elem_of_nil]%elem_of_cons]%elem_of_cons.
    + apply H4; [simpl; apply NoDup_nil_2|].
      intros [_ Hagree].
      by specialize (Hagree dataAtMnt dataAtDataPoint
                       ltac:(by left) ltac:(right; by left) eq_refl).
Defined.

End reconciled_plan.

(** * More properties of [stage1] *)

Section stage1_order.
Import fly stage1 stage1_trace samples stage1_samples stage1_more_samples.

Lemma mountAll_done env ms :
  (mountAll env ms).2 = true →
  (mountAll env ms).1 = EvMount <$> ms ∧ ∀ m, m ∈ ms → applyMount env m = true.
Proof.
  induction ms as [|m ms IH]; simpl.
  - intros _. split; [done | by intros ? ?%elem_of_nil].
  - destruct (applyMount env m) eqn:E; simpl; [|done].
    intros [-> Hall]%IH. split; [done|].
    intros m' [-> | ?]%elem_of_cons; [done | by apply Hall].
Qed.

Lemma mountAll_failed env ms :
  (mountAll env ms).2 = false →
  ∃ ms1 m ms2, ms = ms1 ++ m :: ms2
    ∧ (mountAll env ms).1 = EvMount <$> (ms1 ++ [m])
    ∧ applyMount env m = false
    ∧ ∀ m', m' ∈ ms1 → applyMount env m' = true.
Proof.
  induction ms as [|m ms IH]; simpl; [done|].
  destruct (applyMount env m) eqn:E; simpl.
  - intros (ms1 & x & ms2 & -> & -> & Hx & Hall)%IH.
    exists (m :: ms1), x, ms2. split_and!; [done | done | done |].
    intros m' [-> | ?]%elem_of_cons; [done | by apply Hall].
  - intros _. exists [], m, ms. split_and!; [done | done | done |].
    by intros ? ?%elem_of_nil.
Qed.

Lemma length_one {A} (x : A) (l : list A) : ¬ length (x :: l) ≠ 1%nat → l = [].
Proof. destruct l; simpl; [done|]. intros H. destruct H. lia. Qed.

Ltac in_trace H :=
  repeat first
    [ apply elem_of_app in H as [H | H]
    | apply elem_of_cons in H as [H | H]
    | apply elem_of_nil in H; destruct H
    | apply mountAll_events in H as [? H]
    | apply list_elem_of_fmap in H as (? & H & _) ];
  try discriminate H.

Local Opaque mountAll evaluateMounts systemMounts.

Ltac stage1_setup env H p app0 a lfd l rfs Hall :=
  unfold stage1 in *;
  destruct (newUUID env); simpl in *; [|in_trace H];
  destruct (loadPod env) as [p|] eqn:Hpod; simpl in *; [|in_trace H];
  destruct (decide (length (Apps (Manifest p)) ≠ 1%nat)) as [|Hlen];
    [in_trace H|];
  destruct (Apps (Manifest p)) as [|app0 apps] eqn:Happs; [in_trace H|];
  apply length_one in Hlen as ->;
  destruct (raApp app0) as [a|] eqn:Hraapp; [|in_trace H];
  destruct (getRktLockFD env) as [lfd|] eqn:Hlfd; [|in_trace H];
  destruct (closeOnExec env lfd true) eqn:Hcloexec; simpl in *; [|in_trace H];
  set (rfs := appRootfs env (Root p) (raName app0)) in *;
  destruct (evaluateMounts _ _ _ _) as [l| | |] eqn:Heval; [|in_trace H..];
  destruct (mountAll env (systemMounts rfs ++ l)).2 eqn:Hall; simpl in *;
    [|in_trace H].

(** What a run that reaches the ppid file has done before. *)
Lemma stage1_reaches_ppid env :
  EvWritePpid ∈ (stage1 env).1 →
  ∃ p app0 a lfd l rest,
    loadPod env = Some p ∧ Apps (Manifest p) = [app0] ∧ raApp app0 = Some a
    ∧ getRktLockFD env = Some lfd
    ∧ evaluateMounts (mapRange env) (appRootfs env (Root p) (raName app0))
        (raName app0) p = Ok l
    ∧ (∀ m, m ∈ systemMounts (appRootfs env (Root p) (raName app0)) ++ l →
         applyMount env m = true)
    ∧ (stage1 env).1
      = setupCalls lfd (appRootfs env (Root p) (raName app0)) (raName app0) l
          ++ EvWritePpid :: rest.
Proof.
  intros H. stage1_setup env H p app0 a lfd l rfs Hall.
  destruct (mountAll_done _ _ Hall) as [Ht Happlied].
  exists p, app0, a, lfd, l. unfold setupCalls. rewrite Ht.
  destruct (writePpid env); simpl.
  - destruct (chroot env rfs); simpl.
    + destruct (chdir env); simpl;
        eexists; (split_and!; try done); by rewrite <- ?app_assoc.
    + eexists; (split_and!; try done); by rewrite <- ?app_assoc.
  - eexists; (split_and!; try done); by rewrite <- ?app_assoc.
Qed.


Lemma mountAll_elem env ms m :
  EvMount m ∈ (mountAll env ms).1 →
  m ∈ ms
  ∧ (applyMount env m = false →
       (mountAll env ms).2 = false ∧ ∃ t, (mountAll env ms).1 = t ++ [EvMount m]).
Proof.
  Local Transparent mountAll.
  induction ms as [|x ms IH]; simpl; [by intros ?%elem_of_nil|].
  destruct (applyMount env x) eqn:E; simpl.
  - intros [[= ->] | H]%elem_of_cons.
    + split; [by left | congruence].
    + destruct (IH H) as [Hin Hfail]. split; [by right|].
      intros Hm. destruct (Hfail Hm) as [Hf [t Ht]]. split; [done|].
      exists (EvMount x :: t). by rewrite Ht.
  - intros [= ->]%list_elem_of_singleton. split; [by left|].
    intros _. split; [done|]. by exists [].
  Local Opaque mountAll.
Qed.

(** What a run that applies a mount has done before. *)
Lemma stage1_applies env m :
  EvMount m ∈ (stage1 env).1 →
  ∃ p app0 lfd l,
    loadPod env = Some p ∧ Apps (Manifest p) = [app0]
    ∧ getRktLockFD env = Some lfd ∧ closeOnExec env lfd true = true
    ∧ evaluateMounts (mapRange env) (appRootfs env (Root p) (raName app0))
        (raName app0) p = Ok l
    ∧ m ∈ systemMounts (appRootfs env (Root p) (raName app0)) ++ l
    ∧ (applyMount env m = false →
         (stage1 env).2 = LogFatal ∧ ∃ t, (stage1 env).1 = t ++ [EvMount m]).
Proof.
  intros H. unfold stage1 in *.
  destruct (newUUID env); simpl in *; [|in_trace H].
  destruct (loadPod env) as [p|] eqn:Hpod; simpl in *; [|in_trace H].
  destruct (decide (length (Apps (Manifest p)) ≠ 1%nat)) as [|Hlen];
    [in_trace H|].
  destruct (Apps (Manifest p)) as [|app0 apps] eqn:Happs; [in_trace H|].
  apply length_one in Hlen as ->.
  destruct (raApp app0) as [a|] eqn:Hraapp; [|in_trace H].
  destruct (getRktLockFD env) as [lfd|] eqn:Hlfd; [|in_trace H].
  destruct (closeOnExec env lfd true) eqn:Hcloexec; simpl in *; [|in_trace H].
  set (rfs := appRootfs env (Root p) (raName app0)) in *.
  destruct (evaluateMounts _ _ _ _) as [l| | |] eqn:Heval; [|in_trace H..].
  exists p, app0, lfd, l.
  assert (EvMount m ∈ (mountAll env (systemMounts rfs ++ l)).1) as Hm.
  { destruct (mountAll env (systemMounts rfs ++ l)).2; simpl in *.
    - destruct (writePpid env); simpl in *;
        [destruct (chroot env rfs); simpl in *;
           [destruct (chdir env); simpl in *|]|].
      + unfold execApp in H.
        destruct (closeOnExec env lfd false), (Exec a); simpl in *;
          try destruct (exec env _); simpl in *;
          repeat (apply elem_of_cons in H as [H | H]; [discriminate H|]);
          repeat (apply elem_of_app in H as [H | H]; [done|]);
          repeat (apply elem_of_cons in H as [H | H]; [discriminate H|]);
          by apply elem_of_nil in H.
      + repeat (apply elem_of_cons in H as [H | H]; [discriminate H|]).
        repeat (apply elem_of_app in H as [H | H]; [done|]).
        repeat (apply elem_of_cons in H as [H | H]; [discriminate H|]).
        by apply elem_of_nil in H.
      + repeat (apply elem_of_cons in H as [H | H]; [discriminate H|]).
        repeat (apply elem_of_app in H as [H | H]; [done|]).
        repeat (apply elem_of_cons in H as [H | H]; [discriminate H|]).
        by apply elem_of_nil in H.
      + repeat (apply elem_of_cons in H as [H | H]; [discriminate H|]).
        repeat (apply elem_of_app in H as [H | H]; [done|]).
        repeat (apply elem_of_cons in H as [H | H]; [discriminate H|]).
        by apply elem_of_nil in H.
    - repeat (apply elem_of_cons in H as [H | H]; [discriminate H|]). done. }
  destruct (mountAll_elem _ _ _ Hm) as [Hin Hfail].
  split_and!; try done.
  intros Hf. destruct (Hfail Hf) as [-> [t Ht]]. simpl. split; [done|].
  exists ([EvCloseOnExec lfd true; EvEvaluateMounts rfs (raName app0)] ++ t).
  rewrite Ht. by rewrite <- app_assoc.
Qed.

Lemma return_code_class env code c :
  (stage1 env).2 = Return code → code = classCode c →
  code = 4 ∨ code = 7 → failsWith c env.
Proof.
  unfold failsWith, stage1, execApp. intros H -> Hcode.
  destruct c; simpl in *; try lia;
    repeat (case_match; simpl in *; try done);
    try (injection H as H; try discriminate H);
    rewrite ?elem_of_cons, ?elem_of_app, ?elem_of_cons; intuition auto.
Qed.

Lemma exit_code_values env : exitCode (stage1 env).2 ∈ [0; 1; 2; 4; 7].
Proof.
  unfold stage1, execApp.
  repeat (case_match; simpl in *; try done);
    rewrite !elem_of_cons; tauto.
Qed.

Ltac in_list := vm_compute; repeat constructor.

(** X6. [stage1] writes the ppid file only after its loop over the effective
    mounts ran to the end: the pod was loaded, [evaluateMounts] returned a
    list without error, every one of the seven system mounts and of the
    returned mounts was applied with success, and the calls made before the
    ppid file are the lock's close-on-exec flag, the evaluation, and one
    mount call for each effective mount, system mounts first, in the order
    of the list. *)
Theorem ppid_after_all_mounts env :
  EvWritePpid ∈ (stage1 env).1 →
  ∃ p app0 lfd l rest,
    loadPod env = Some p ∧ Apps (Manifest p) = [app0]
    ∧ getRktLockFD env = Some lfd
    ∧ evaluateMounts (mapRange env) (appRootfs env (Root p) (raName app0))
        (raName app0) p = Ok l
    ∧ (∀ m, m ∈ systemMounts (appRootfs env (Root p) (raName app0)) ++ l →
         applyMount env m = true)
    ∧ (stage1 env).1
      = setupCalls lfd (appRootfs env (Root p) (raName app0)) (raName app0) l
          ++ EvWritePpid :: rest.
Proof.
  intros (p & app0 & a & lfd & l & rest & H)%stage1_reaches_ppid.
  exists p, app0, lfd, l, rest. tauto.
Qed.

Lemma ppid_after_all_mounts_witness :
  ∃ p app0 lfd l rest,
    loadPod (env true (Some oneVolume) false true) = Some p
    ∧ Apps (Manifest p) = [app0]
    ∧ getRktLockFD (env true (Some oneVolume) false true) = Some lfd
    ∧ evaluateMounts (mapRange (env true (Some oneVolume) false true))
        (appRootfs (env true (Some oneVolume) false true) (Root p) (raName app0))
        (raName app0) p = Ok l
    ∧ (∀ m, m ∈ systemMounts
                  (appRootfs (env true (Some oneVolume) false true) (Root p)
                     (raName app0)) ++ l →
         applyMount (env true (Some oneVolume) false true) m = true)
    ∧ (stage1 (env true (Some oneVolume) false true)).1
      = setupCalls lfd
          (appRootfs (env true (Some oneVolume) false true) (Root p) (raName app0))
          (raName app0) l
          ++ EvWritePpid :: rest.
Proof.
  apply (ppid_after_all_mounts (env true (Some oneVolume) false true)).
  in_list.
Defined.



(** X8. [stage1] applies no mount unless the pod was loaded with exactly one
    app, the flag of the lock was set and [evaluateMounts] returned a list
    without error; and every mount it applies is one of the seven system
    mounts or a mount of that list. *)
Theorem applies_only_planned_mounts env m :
  EvMount m ∈ (stage1 env).1 →
  ∃ p app0 lfd l,
    loadPod env = Some p ∧ Apps (Manifest p) = [app0]
    ∧ getRktLockFD env = Some lfd ∧ closeOnExec env lfd true = true
    ∧ evaluateMounts (mapRange env) (appRootfs env (Root p) (raName app0))
        (raName app0) p = Ok l
    ∧ m ∈ systemMounts (appRootfs env (Root p) (raName app0)) ++ l.
Proof.
  intros (p & app0 & lfd & l & H)%stage1_applies.
  exists p, app0, lfd, l. tauto.
Qed.

Lemma applies_only_planned_mounts_witness :
  ∃ p app0 lfd l,
    loadPod tmpfsFails = Some p ∧ Apps (Manifest p) = [app0]
    ∧ getRktLockFD tmpfsFails = Some lfd
    ∧ closeOnExec tmpfsFails lfd true = true
    ∧ evaluateMounts (mapRange tmpfsFails)
        (appRootfs tmpfsFails (Root p) (raName app0)) (raName app0) p = Ok l
    ∧ tmpMount ∈ systemMounts (appRootfs tmpfsFails (Root p) (raName app0)) ++ l.
Proof.
  apply (applies_only_planned_mounts tmpfsFails tmpMount). in_list.
Defined.

(** X9. A mount that fails is the last call [stage1] makes: the loop stops
    there, no later mount is tried, neither the ppid file nor chroot nor
    exec follows, and the process ends in log.Fatalf. *)
Theorem failed_mount_is_last env m :
  EvMount m ∈ (stage1 env).1 → applyMount env m = false →
  (stage1 env).2 = LogFatal ∧ ∃ t, (stage1 env).1 = t ++ [EvMount m].
Proof.
  intros (p & app0 & lfd & l & H)%stage1_applies Hf.
  by apply H.
Qed.

Lemma failed_mount_is_last_witness :
  (stage1 tmpfsFails).2 = LogFatal
  ∧ ∃ t, (stage1 tmpfsFails).1 = t ++ [EvMount tmpMount].
Proof.
  apply (failed_mount_is_last tmpfsFails tmpMount); [in_list | reflexivity].
Defined.

(** X10. The process started by [main] leaves with 0, 1, 2, 4 or 7 and no
    other code.  It leaves with 4 only when the diagnostic of the ppid file
    was written, and with 7 only when the diagnostic of the failed exec
    was. *)
Theorem exit_codes_of_stage1 env :
  exitCode (stage1 env).2 ∈ [0; 1; 2; 4; 7]
  ∧ (exitCode (stage1 env).2 = 4 → failsWith PpidWriteFailure env)
  ∧ (exitCode (stage1 env).2 = 7 → failsWith ExecFailure env).
Proof.
  split_and!.
  - apply exit_code_values.
  - intros H. destruct (stage1 env).2 as [code| |] eqn:E; simpl in H; try lia.
    apply (return_code_class env code PpidWriteFailure); [done | done | lia].
  - intros H. destruct (stage1 env).2 as [code| |] eqn:E; simpl in H; try lia.
    apply (return_code_class env code ExecFailure); [done | done | lia].
Qed.

Lemma exit_codes_of_stage1_witness :
  failsWith PpidWriteFailure (env true (Some oneVolume) false true)
  ∧ failsWith ExecFailure (env true (Some oneVolume) true false).
Proof.
  split.
  - apply (proj1 (proj2 (exit_codes_of_stage1 (env true (Some oneVolume) false true)))).
    reflexivity.
  - apply (proj2 (proj2 (exit_codes_of_stage1 (env true (Some oneVolume) true false)))).
    reflexivity.
Defined.

End stage1_order.

(** * The loop of [stage1] over the effective mounts *)

Section mount_loop.
Import executor executor_samples.

Lemma absolute_true mount :
  absolute mount = true ↔
  HostPath mount ≠ "" ∧ strings.HasPrefix (HostPath mount) "/" = true.
Proof.
  unfold absolute. rewrite andb_true_iff, bool_decide_eq_true. tauto.
Qed.

Lemma quiet_ret {A} (a : A) : quiet (ret a).
Proof. intros h. exists []. split; [by rewrite app_nil_r | by intros c ?%elem_of_nil]. Qed.

Lemma quiet_fatal {A} : quiet (@fatal A).
Proof. intros h. exists []. split; [by rewrite app_nil_r | by intros c ?%elem_of_nil]. Qed.

Lemma quiet_must os c : isMount c = false → quiet (must os c).
Proof.
  intros Hc h. exists [c]. split; [done|].
  by intros c' ->%list_elem_of_singleton.
Qed.

Lemma quiet_statHost os path : quiet (statHost os path).
Proof.
  intros h. exists [SysStat path]. split; [done|].
  by intros c' ->%list_elem_of_singleton.
Qed.

Lemma quiet_statTarget os path : quiet (statTarget os path).
Proof.
  intros h. exists [SysStat path]. split; [done|].
  by intros c' ->%list_elem_of_singleton.
Qed.

Lemma quiet_andThen {A B} (s : step A) (k : A → step B) :
  quiet s → (∀ a, quiet (k a)) → quiet (andThen s k).
Proof.
  intros Hs Hk h. unfold andThen.
  destruct (Hs h) as (pre & Heq & Hpre).
  destruct (s h) as [h1 [a|]]; simpl in *; subst h1.
  - destruct (Hk a (h ++ pre)) as (pre' & -> & Hpre').
    exists (pre ++ pre'). split; [by rewrite app_assoc|].
    intros c [?|?]%elem_of_app; auto.
  - by exists pre.
Qed.

Lemma quiet_hostInfo os mount : quiet (hostInfo os mount).
Proof.
  unfold hostInfo. case_match.
  - apply quiet_andThen; [apply quiet_statHost | intros; apply quiet_ret].
  - apply quiet_ret.
Qed.

Lemma quiet_targetReady os path info : quiet (targetReady os path info).
Proof.
  unfold targetReady. case_match; [|apply quiet_ret].
  apply quiet_andThen; [apply quiet_statTarget|].
  intros [targetIsDir|].
  - destruct info as [hostIsDir|]; [|apply quiet_ret].
    repeat case_match; apply quiet_fatal || apply quiet_ret.
  - apply quiet_andThen; [by apply quiet_must|].
    intros _. destruct info as [[]|]; by apply quiet_must.
Qed.

(** What one turn of the loop adds to the calls: at most one mount call,
    the last one, made after every other call of the turn succeeded; the
    turn goes on to the next mount exactly when that call succeeds. *)
Lemma mountOne_calls os mount h :
  ∃ pre,
    (∀ c, c ∈ pre → isMount c = false)
    ∧ ((mountOne os mount h = (h ++ pre, None))
       ∨ (mountOne os mount h
          = (h ++ pre ++ [mountCall os mount],
             if succeeds os (h ++ pre) (mountCall os mount)
             then Some () else None))).
Proof.
  destruct (quiet_hostInfo os mount h) as (pre1 & Heq1 & Hpre1).
  destruct (hostInfo os mount h) as [h1 [info|]] eqn:E1; simpl in Heq1; subst h1.
  - destruct (quiet_targetReady os
                (Join os (TargetPrefixPath mount) (RelTargetPath mount))
                info (h ++ pre1)) as (pre2 & Heq2 & Hpre2).
    destruct (targetReady os _ info (h ++ pre1)) as [h2 [[]|]] eqn:E2;
      simpl in Heq2; subst h2; exists (pre1 ++ pre2);
      (split; [intros c [?|?]%elem_of_app; auto|]).
    + right. unfold mountOne, andThen. rewrite E1, E2.
      unfold must, mountCall. by rewrite !app_assoc.
    + left. unfold mountOne, andThen. rewrite E1, E2. by rewrite app_assoc.
  - exists pre1. split; [done|]. left. unfold mountOne, andThen. by rewrite E1.
Qed.


Lemma filter_quiet pre :
  (∀ c, c ∈ pre → isMount c = false) → filter isMount pre = [].
Proof.
  induction pre as [|c pre IH]; intros H; [done|].
  rewrite filter_cons_False.
  - apply IH. intros c' Hc'. apply H. by right.
  - rewrite (H c); [by intros []|by left].
Qed.

Lemma mountEach_app os ms1 ms2 h :
  mountEach os (ms1 ++ ms2) h
  = andThen (mountEach os ms1) (λ _, mountEach os ms2) h.
Proof.
  revert h. induction ms1 as [|m ms1 IH]; intros h; simpl; [done|].
  unfold andThen in *.
  destruct (mountOne os m h) as [h1 [[]|]]; [|done].
  by rewrite IH.
Qed.

Lemma mountEach_calls os ms h :
  ∃ cs done,
    (mountEach os ms h).1 = h ++ cs
    ∧ done `prefix_of` ms
    ∧ filter isMount cs = mountCall os <$> done
    ∧ ((mountEach os ms h).2 = Some () → done = ms).
Proof.
  revert h. induction ms as [|m ms IH]; intros h; simpl.
  - exists [], []. by rewrite app_nil_r.
  - unfold andThen.
    destruct (mountOne_calls os m h) as (pre & Hpre & [-> | ->]).
    + exists pre, []. split_and!; [done | apply prefix_nil | | done].
      by apply filter_quiet.
    + destruct (succeeds os (h ++ pre) (mountCall os m)).
      * destruct (IH (h ++ pre ++ [mountCall os m])) as (cs & done & -> & Hp & Hf & Hd).
        exists ((pre ++ [mountCall os m]) ++ cs), (m :: done).
        split_and!.
        -- by rewrite <- !app_assoc.
        -- by apply prefix_cons.
        -- rewrite !filter_app, filter_quiet, Hf by done. done.
        -- intros ->%Hd. done.
      * exists (pre ++ [mountCall os m]), [m].
        split_and!; [done | apply prefix_cons, prefix_nil | | done].
        by rewrite filter_app, filter_quiet.
Qed.

(** Closes a case in which the calls made hold no creating call. *)
Ltac no_creation Hcs Hc Hcr :=
  exfalso; rewrite <- ?app_assoc in Hcs; simpl in Hcs;
  apply app_inv_head in Hcs; subst;
  repeat (apply elem_of_cons in Hc as [Hc | Hc]; [by subst|]);
  by apply elem_of_nil in Hc.

Ltac run_turn :=
  unfold mountOne, hostInfo, targetReady, andThen, statHost, statTarget,
    must, fatal, ret, mountCall, hostStat, targetOf, absolute in *.

(** X11. One turn of the loop makes at most one mount call, as its last
    call, with the host path as source, the joined prefix and relative path
    as target and the file system and flags of the mount; the loop goes on
    to the next mount exactly when that call succeeds, and when a call
    before it is fatal the mount call is not made. *)
Theorem mount_call_is_last os mount h :
  ∃ pre,
    (∀ c, c ∈ pre → isMount c = false)
    ∧ ((mountOne os mount h = (h ++ pre, None))
       ∨ (mountOne os mount h
          = (h ++ pre ++ [SysMount (HostPath mount) (targetOf os mount)
                            (Fs mount) (Flags mount)],
             if succeeds os (h ++ pre)
                  (SysMount (HostPath mount) (targetOf os mount)
                     (Fs mount) (Flags mount))
             then Some () else None))).
Proof. apply mountOne_calls. Qed.

(** X12. A host path that is not empty and starts with a slash is looked at
    first; when [os.Stat] fails for it, also because the path does not
    exist, the turn ends in log.Fatalf with this one call made: the target
    is neither looked at nor created, and nothing is mounted. *)
Theorem host_path_checked_first os mount h :
  absolute mount = true →
  (∀ isDir, stat os h (HostPath mount) ≠ Info isDir) →
  mountOne os mount h = (h ++ [SysStat (HostPath mount)], None).
Proof.
  intros Habs Hstat. run_turn. rewrite Habs.
  destruct (stat os h (HostPath mount)) as [d| |]; [by destruct (Hstat d)|done..].
Qed.

Lemma host_path_checked_first_witness :
  mountOne host (bindOf "/srv/nothing" "/data") []
  = ([] ++ [SysStat "/srv/nothing"], None).
Proof.
  apply (host_path_checked_first host (bindOf "/srv/nothing" "/data") []).
  - reflexivity.
  - intros isDir. vm_compute. discriminate.
Defined.

(** X13. When the host path and the target both exist and one is a
    directory while the other is not, the turn ends in log.Fatalf after
    the two calls of [os.Stat]: nothing is created and nothing mounted. *)
Theorem kind_mismatch_fatal os mount h hostIsDir targetIsDir :
  absolute mount = true →
  targetOf os mount ≠ "/" →
  stat os h (HostPath mount) = Info hostIsDir →
  stat os (h ++ [SysStat (HostPath mount)]) (targetOf os mount) = Info targetIsDir →
  hostIsDir ≠ targetIsDir →
  mountOne os mount h
  = (h ++ [SysStat (HostPath mount); SysStat (targetOf os mount)], None).
Proof.
  intros Habs Hroot Hhost Htarget Hne. run_turn.
  rewrite Habs, Hhost. simpl. rewrite bool_decide_true by done.
  rewrite Htarget.
  destruct hostIsDir, targetIsDir; simpl; try done; by rewrite <- app_assoc.
Qed.

Lemma kind_mismatch_fatal_witness :
  mountOne host {| HostPath := "/etc/hosts"; TargetPrefixPath := "";
                   RelTargetPath := "/dev"; Fs := "none"; Flags := 4096 |} []
  = ([] ++ [SysStat "/etc/hosts"; SysStat "/dev"], None).
Proof.
  apply (kind_mismatch_fatal host
           {| HostPath := "/etc/hosts"; TargetPrefixPath := "";
              RelTargetPath := "/dev"; Fs := "none"; Flags := 4096 |}
           [] false true); [reflexivity | discriminate | reflexivity
                            | reflexivity | discriminate].
Defined.

(** X14. When the target does not exist and every call succeeds, the turn
    creates the parent of the target with MkdirAll, then the target itself,
    as a file when the host path was looked at and is not a directory and
    as a directory otherwise (also for a host path that is empty or
    relative, which is never looked at), and then mounts. *)
Theorem missing_target_created os mount h hostIsFile :
  targetOf os mount ≠ "/" →
  (if absolute mount then stat os h (HostPath mount) = Info (negb hostIsFile)
   else hostIsFile = false) →
  stat os (h ++ hostStat mount) (targetOf os mount) = NotExist →
  (∀ h' c, succeeds os h' c = true) →
  mountOne os mount h
  = (h ++ hostStat mount
       ++ [SysStat (targetOf os mount);
           SysMkdirAll (SplitDir os (targetOf os mount));
           (if hostIsFile then SysOpenFile (targetOf os mount)
            else SysMkdir (targetOf os mount));
           SysMount (HostPath mount) (targetOf os mount) (Fs mount) (Flags mount)],
     Some ()).
Proof.
  intros Hroot Hhost Htarget Hok. run_turn.
  destruct (bool_decide (HostPath mount ≠ "") && _) eqn:Habs; simpl in *.
  - rewrite Hhost. rewrite bool_decide_true by done. rewrite Htarget.
    destruct hostIsFile; simpl; rewrite ?Hok; simpl; rewrite ?Hok;
      by rewrite <- !app_assoc.
  - subst hostIsFile. rewrite app_nil_r in Htarget.
    rewrite bool_decide_true by done. rewrite Htarget.
    simpl; rewrite ?Hok; simpl; rewrite ?Hok; by rewrite <- !app_assoc.
Qed.

Lemma missing_target_created_witness :
  mountOne host (bindOf "/etc/hosts" "/etc/hosts") []
  = ([] ++ hostStat (bindOf "/etc/hosts" "/etc/hosts")
       ++ [SysStat "/pod/rootfs/etc/hosts";
           SysMkdirAll "/pod/rootfs/etc/";
           SysOpenFile "/pod/rootfs/etc/hosts";
           SysMount "/etc/hosts" "/pod/rootfs/etc/hosts" "none" 20480],
     Some ()).
Proof.
  apply (missing_target_created host (bindOf "/etc/hosts" "/etc/hosts") [] true);
    [discriminate | reflexivity | reflexivity | reflexivity].
Defined.

(** X15. A turn creates something only for a target that is not "/" and
    that [os.Stat] reported as not existing: a target that exists is never
    created again, whatever its kind. *)
Theorem creates_only_missing_target os mount h cs c :
  (mountOne os mount h).1 = h ++ cs → c ∈ cs → creates c = true →
  targetOf os mount ≠ "/"
  ∧ stat os (h ++ hostStat mount) (targetOf os mount) = NotExist.
Proof.
  intros Hcs Hc Hcr. run_turn.
  destruct (bool_decide (HostPath mount ≠ "") && _) eqn:Habs; simpl in *.
  - destruct (stat os h (HostPath mount)) as [hd| |] eqn:Hhost; simpl in *;
      [|no_creation Hcs Hc Hcr..].
    case_bool_decide as Hroot; simpl in *; [|no_creation Hcs Hc Hcr].
    destruct (stat os (h ++ [SysStat (HostPath mount)]) _) as [td| |] eqn:Ht;
      simpl in *; [|done|no_creation Hcs Hc Hcr].
    destruct (hd && negb td), (negb hd && td); simpl in *;
      no_creation Hcs Hc Hcr.
  - rewrite app_nil_r. case_bool_decide as Hroot; simpl in *;
      [|no_creation Hcs Hc Hcr].
    destruct (stat os h _) as [td| |] eqn:Ht; simpl in *;
      [|done|]; no_creation Hcs Hc Hcr.
Qed.


Lemma creates_only_missing_target_witness :
  targetOf host (bindOf "/srv/data" "/data") ≠ "/"
  ∧ stat host ([] ++ hostStat (bindOf "/srv/data" "/data"))
      (targetOf host (bindOf "/srv/data" "/data")) = NotExist.
Proof.
  apply (creates_only_missing_target host (bindOf "/srv/data" "/data") []
           [SysStat "/srv/data"; SysStat "/pod/rootfs/data";
            SysMkdirAll "/pod/rootfs/"; SysMkdir "/pod/rootfs/data";
            SysMount "/srv/data" "/pod/rootfs/data" "none" 20480]
           (SysMkdir "/pod/rootfs/data")).
  - reflexivity.
  - do 3 right. left.
  - reflexivity.
Defined.

(** X16. The mount calls of the whole loop are the mount calls of a prefix
    of the effective mounts, one for each, in the order of the list; when
    the loop runs to its end the prefix is the whole list. *)
Theorem mounts_in_order os effectiveMounts h :
  ∃ cs done,
    (mountEach os effectiveMounts h).1 = h ++ cs
    ∧ done `prefix_of` effectiveMounts
    ∧ filter isMount cs
      = (λ mount, SysMount (HostPath mount) (targetOf os mount)
                    (Fs mount) (Flags mount)) <$> done
    ∧ ((mountEach os effectiveMounts h).2 = Some () → done = effectiveMounts).
Proof. apply mountEach_calls. Qed.

(** X17. The loop stops at the first mount whose turn ends in log.Fatalf:
    no call is made for the mounts after it. *)
Theorem loop_stops_at_fatal os done mount rest h h1 h2 :
  mountEach os done h = (h1, Some ()) →
  mountOne os mount h1 = (h2, None) →
  mountEach os (done ++ mount :: rest) h = (h2, None).
Proof.
  intros Hdone Hmount. rewrite mountEach_app. unfold andThen at 1.
  rewrite Hdone. simpl. unfold andThen. by rewrite Hmount.
Qed.

Lemma loop_stops_at_fatal_witness :
  mountEach readOnlyHost
    ([ {| HostPath := "/dev"; TargetPrefixPath := ""; RelTargetPath := "/dev";
          Fs := "none"; Flags := 20480 |} ]
     ++ bindOf "/srv/data" "/data" :: [bindOf "/etc/hosts" "/etc/hosts"]) []
  = ([SysStat "/dev"; SysStat "/dev"; SysMount "/dev" "/dev" "none" 20480;
      SysStat "/srv/data"; SysStat "/pod/rootfs/data"; SysMkdirAll "/pod/rootfs/"],
     None).
Proof.
  apply (loop_stops_at_fatal readOnlyHost
           [ {| HostPath := "/dev"; TargetPrefixPath := ""; RelTargetPath := "/dev";
                Fs := "none"; Flags := 20480 |} ]
           (bindOf "/srv/data" "/data") [bindOf "/etc/hosts" "/etc/hosts"]
           [] [SysStat "/dev"; SysStat "/dev"; SysMount "/dev" "/dev" "none" 20480]);
    reflexivity.
Defined.

End mount_loop.

(** * The search of [lookupPath] *)

Section path_search.
Import lookup lookup_samples.

Lemma search_step os bin path rest :
  rejected os bin path → search os bin (path :: rest) = search os bin rest.
Proof.
  intros (a & Ha & Hs). simpl. rewrite Ha.
  destruct Hs as [-> | (m & -> & Hm)]; [done|].
  unfold executableMode in Hm. by rewrite Hm.
Qed.

Lemma search_prefix os bin before rest :
  Forall (rejected os bin) before →
  search os bin (before ++ rest) = search os bin rest.
Proof.
  induction 1 as [|path before Hr _ IH]; [done|].
  simpl app. by rewrite search_step.
Qed.

Lemma search_found os bin pathsArr p :
  search os bin pathsArr = Some (inl p) ↔
  ∃ before path after,
    pathsArr = before ++ path :: after
    ∧ Forall (rejected os bin) before ∧ found os bin path p.
Proof.
  split.
  - induction pathsArr as [|path rest IH]; simpl; [done|].
    destruct (Abs os (Join os path bin)) as [a|] eqn:Ha; [|done].
    destruct (Stat os a) as [m|] eqn:Hs.
    + destruct (negb (IsDir m) && negb (Z.land m execBits =? 0)) eqn:Hm.
      * intros [= ->]. exists [], path, rest. split_and!; [done | done |].
        split; [done|]. by exists m.
      * intros (before & q & after & -> & Hb & Hf)%IH.
        exists (path :: before), q, after. split_and!; [done | | done].
        constructor; [|done]. exists a. split; [done|]. right. by exists m.
    + intros (before & q & after & -> & Hb & Hf)%IH.
      exists (path :: before), q, after. split_and!; [done | | done].
      constructor; [|done]. exists a. split; [done|]. by left.
  - intros (before & path & after & -> & Hb & Ha & m & Hs & Hm).
    rewrite search_prefix by done. simpl. rewrite Ha, Hs.
    unfold executableMode in Hm. by rewrite Hm.
Qed.

Lemma search_none os bin pathsArr :
  search os bin pathsArr = None ↔ Forall (rejected os bin) pathsArr.
Proof.
  split.
  - induction pathsArr as [|path rest IH]; simpl; [by constructor|].
    destruct (Abs os (Join os path bin)) as [a|] eqn:Ha; [|done].
    destruct (Stat os a) as [m|] eqn:Hs.
    + destruct (negb (IsDir m) && negb (Z.land m execBits =? 0)) eqn:Hm; [done|].
      intros H. constructor; [|by apply IH].
      exists a. split; [done|]. right. by exists m.
    + intros H. constructor; [|by apply IH].
      exists a. split; [done|]. by left.
  - intros H. rewrite <- (app_nil_r pathsArr). by rewrite search_prefix.
Qed.

Lemma search_error os bin pathsArr e :
  search os bin pathsArr = Some (inr e) ↔
  ∃ before path after,
    pathsArr = before ++ path :: after
    ∧ Forall (rejected os bin) before
    ∧ Abs os (Join os path bin) = None
    ∧ e = ErrAbsolutePath (Join os path bin).
Proof.
  split.
  - induction pathsArr as [|path rest IH]; simpl; [done|].
    destruct (Abs os (Join os path bin)) as [a|] eqn:Ha.
    + assert (search os bin rest = Some (inr e) →
              rejected os bin path →
              ∃ before path0 after, path :: rest = before ++ path0 :: after
                ∧ Forall (rejected os bin) before
                ∧ Abs os (Join os path0 bin) = None
                ∧ e = ErrAbsolutePath (Join os path0 bin)) as Hgo.
      { intros (before & q & after & -> & Hb & Hf)%IH Hr.
        exists (path :: before), q, after. split_and!; [done | | tauto..].
        by constructor. }
      destruct (Stat os a) as [m|] eqn:Hs.
      * destruct (negb (IsDir m) && negb (Z.land m execBits =? 0)) eqn:Hm; [done|].
        intros H. apply Hgo; [done|].
        exists a. split; [done|]. right. by exists m.
      * intros H. apply Hgo; [done|]. exists a. split; [done|]. by left.
    + intros [= <-]. by exists [], path, rest.
  - intros (before & path & after & -> & Hb & Ha & ->).
    rewrite search_prefix by done. simpl. by rewrite Ha.
Qed.

Lemma testbit_execBits n :
  0 ≤ n → Z.testbit execBits n = bool_decide (n = 0 ∨ n = 3 ∨ n = 6).
Proof.
  intros Hn. destruct (decide (n < 7)) as [Hlt|Hge].
  - assert (n = 0 ∨ n = 1 ∨ n = 2 ∨ n = 3 ∨ n = 4 ∨ n = 5 ∨ n = 6) as H by lia.
    destruct_or!; subst; reflexivity.
  - rewrite bool_decide_false by lia.
    apply Z.bits_above_log2; [done|]. change (Z.log2 execBits) with 6. lia.
Qed.


Lemma land_execBits m :
  (Z.land m execBits =? 0)
  = negb (Z.testbit m 0 || Z.testbit m 3 || Z.testbit m 6).
Proof.
  destruct (Z.eqb_spec (Z.land m execBits) 0) as [H0|Hn].
  - assert (∀ n, 0 ≤ n → Z.testbit m n && Z.testbit execBits n = false) as Hb.
    { intros n Hn. by rewrite <- Z.land_spec, H0, Z.bits_0. }
    pose proof (Hb 0 ltac:(lia)) as H1. pose proof (Hb 3 ltac:(lia)) as H3.
    pose proof (Hb 6 ltac:(lia)) as H6.
    rewrite testbit_execBits in H1, H3, H6 by lia. simpl in *.
    rewrite andb_true_r in H1, H3, H6. by rewrite H1, H3, H6.
  - destruct (Z.testbit m 0 || Z.testbit m 3 || Z.testbit m 6) eqn:E; [done|].
    apply orb_false_elim in E as [[H1 H3]%orb_false_elim H6].
    destruct Hn. apply Z.bits_inj'. intros n Hn.
    rewrite Z.land_spec, Z.bits_0, testbit_execBits by done.
    case_bool_decide as Hc; [|apply andb_false_r].
    destruct_or!; subst; by rewrite ?H1, ?H3, ?H6.
Qed.

Lemma IsDir_bit m : IsDir m = Z.testbit m 31.
Proof.
  unfold IsDir. change ModeDir with (2 ^ 31).
  destruct (Z.eqb_spec (Z.land m (2 ^ 31)) 0) as [H0|Hn]; simpl.
  - assert (Z.testbit (Z.land m (2 ^ 31)) 31 = false) as H by (by rewrite H0, Z.bits_0).
    rewrite Z.land_spec, Z.pow2_bits_true, andb_true_r in H by lia. done.
  - destruct (Z.testbit m 31) eqn:E; [done|].
    destruct Hn. apply Z.bits_inj'. intros n Hn.
    rewrite Z.land_spec, Z.bits_0, Z.pow2_bits_eqb by lia.
    destruct (Z.eqb_spec 31 n) as [<-|]; [by rewrite E | apply andb_false_r].
Qed.

(** X18. [lookupPath] returns a path without error exactly when some entry
    of the list holds an executable and every entry before it was passed
    over; the path returned is the absolute path of the file of the first
    such entry. *)
Theorem lookupPath_first_executable os bin paths p :
  lookupPath os bin paths = inl p ↔
  ∃ before path after,
    SplitList paths = before ++ path :: after
    ∧ Forall (rejected os bin) before ∧ found os bin path p.
Proof.
  unfold lookupPath. rewrite <- search_found.
  destruct (search os bin (SplitList paths)) as [r|]; [|done].
  split; congruence.
Qed.

Lemma lookupPath_first_executable_witness :
  lookupPath pathHost "sh" "/bin:/sbin:/usr/bin" = inl "/usr/bin/sh".
Proof.
  apply (proj2 (lookupPath_first_executable pathHost "sh" "/bin:/sbin:/usr/bin"
                  "/usr/bin/sh")).
  exists ["/bin"; "/sbin"], "/usr/bin", []. split_and!.
  - reflexivity.
  - repeat constructor.
    + exists "/bin/sh". split; [reflexivity|]. right. by exists 420.
    + exists "/sbin/sh". split; [reflexivity|]. right. by exists (ModeDir + 493).
  - split; [reflexivity|]. by exists 493.
Defined.

(** X19. [lookupPath] returns an error in two cases only.  It reports the
    executable as not found, naming [bin] and [paths], when every entry of
    the list was passed over, so always for an empty list.  And it stops at
    the first entry whose joined path has no absolute path, without looking
    at the entries after it. *)
Theorem lookupPath_errors os bin paths e :
  lookupPath os bin paths = inr e ↔
  (e = ErrNotFound bin paths ∧ Forall (rejected os bin) (SplitList paths))
  ∨ (∃ before path after,
       SplitList paths = before ++ path :: after
       ∧ Forall (rejected os bin) before
       ∧ Abs os (Join os path bin) = None
       ∧ e = ErrAbsolutePath (Join os path bin)).
Proof.
  unfold lookupPath. rewrite <- search_error, <- search_none.
  destruct (search os bin (SplitList paths)) as [r|].
  - split; [intros ->; by right | intros [[_ [=]] | [= ->]]; done].
  - split; [intros [= <-]; by left | intros [[-> _] | [=]]; done].
Qed.

Lemma lookupPath_errors_witness :
  lookupPath pathHost "sh" "bin:/usr/bin" = inr (ErrAbsolutePath "bin/sh")
  ∧ lookupPath pathHost "sh" "" = inr (ErrNotFound "sh" "").
Proof.
  split.
  - apply (proj2 (lookupPath_errors pathHost "sh" "bin:/usr/bin"
                    (ErrAbsolutePath "bin/sh"))).
    right. by exists [], "bin", ["/usr/bin"].
  - apply (proj2 (lookupPath_errors pathHost "sh" "" (ErrNotFound "sh" ""))).
    left. split; [reflexivity | constructor].
Defined.

(** X20. The test on the mode of a file accepts it exactly when the
    directory bit (bit 31) is clear and one of the three execute bits, for
    others (bit 0), the group (bit 3) or the owner (bit 6), is set; which
    user runs the search plays no part. *)
Theorem mode_test_bits m :
  executableMode m
  = negb (Z.testbit m 31) && (Z.testbit m 0 || Z.testbit m 3 || Z.testbit m 6).
Proof.
  unfold executableMode. by rewrite IsDir_bit, land_execBits, negb_involutive.
Qed.

End path_search.

(** * Failures of the reaper *)

Section reaper_failures.
Import gc gc_samples gc_more_samples.

Lemma mountFields_short podID lines line :
  line ∈ lines → MatchString podID line = true →
  strings.Split " " line !! 4%nat = None →
  mountFields podID lines = None.
Proof.
  intros Hin Hm Hs. induction lines as [|l lines IH]; [by apply elem_of_nil in Hin|].
  simpl. apply elem_of_cons in Hin as [<- | Hin].
  - by rewrite Hm, Hs.
  - rewrite (IH Hin). destruct (MatchString podID l); [|done].
    by destruct (strings.Split " " l !! 4%nat).
Qed.

Lemma firstSeen_perm fields fields' :
  (∀ x, x ∈ fields ↔ x ∈ fields') → firstSeen fields ≡ₚ firstSeen fields'.
Proof.
  intros H. apply NoDup_Permutation; [apply firstSeen_NoDup..|].
  intros x. by rewrite !firstSeen_elem_of.
Qed.

(** X21. What the reaper does depends on the lines of the mount table only
    through the set of mount points of the lines that hold the identifier:
    two tables with the same set, in whatever order and however often
    repeated, give the same calls in the same order and the same exit. *)
Theorem scan_order_independent podID lines lines' fields fields' sys :
  mountFields podID lines = Some fields →
  mountFields podID lines' = Some fields' →
  (∀ x, x ∈ fields ↔ x ∈ fields') →
  main (Some podID) (Some lines) sys = main (Some podID) (Some lines') sys.
Proof.
  intros Hf Hf' Heq.
  rewrite (main_unfold _ _ _ _ Hf), (main_unfold _ _ _ _ Hf').
  pose proof (firstSeen_perm _ _ Heq) as Hp.
  rewrite (Permutation_length Hp).
  assert (sortStrings (firstSeen fields) = sortStrings (firstSeen fields')) as ->;
    [|done].
  apply sortStrings_unique.
  - apply StronglySorted_Sorted, sortStrings_sorted.
  - by rewrite sortStrings_perm.
Qed.

Lemma scan_order_independent_witness :
  main (Some podID) (Some nestedMounts) remountFails
  = main (Some podID) (Some (reverse nestedMounts)) remountFails.
Proof.
  apply (scan_order_independent podID nestedMounts (reverse nestedMounts)
           ["/a/b"; "/a/b/c"; "/a"; "/a/b"] ["/a/b"; "/a"; "/a/b/c"; "/a/b"]
           remountFails).
  - by vm_compute.
  - by vm_compute.
  - intros x. rewrite !elem_of_cons, !elem_of_nil. tauto.
Defined.

(** X22. A line that holds the identifier and has fewer than five fields
    makes the reaper panic at [splitLine[4]], wherever the line stands in
    the table, before any system call. *)
Theorem short_line_panics podID lines line sys :
  line ∈ lines → MatchString podID line = true →
  strings.Split " " line !! 4%nat = None →
  main (Some podID) (Some lines) sys = ([], RuntimePanic).
Proof.
  intros Hin Hm Hs. unfold main.
  by rewrite (scanLines_panic _ _ _ (mountFields_short _ _ _ Hin Hm Hs)).
Qed.

Lemma short_line_panics_witness :
  main (Some podID) (Some (nestedMounts ++ [shortLine])) (λ _, true)
  = ([], RuntimePanic).
Proof.
  apply (short_line_panics podID (nestedMounts ++ [shortLine]) shortLine (λ _, true)).
  - apply elem_of_app. right. by left.
  - by vm_compute.
  - by vm_compute.
Defined.

(** X23. The reaper stops at the first call that fails: when a call of its
    list of remounts and unmounts fails, the calls made are the calls of
    the list up to and with the first one that fails, and the reaper ends
    in log.Fatalf. *)
Theorem reaper_stops_at_first_failure podID lines fields sys c :
  mountFields podID lines = Some fields →
  let ascending := sortStrings (firstSeen fields) in
  let calls := (remount <$> ascending) ++ (unmount <$> reverse ascending) in
  c ∈ calls → sys c = false →
  ∃ made failed rest,
    calls = made ++ failed :: rest
    ∧ (∀ x, x ∈ made → sys x = true)
    ∧ sys failed = false
    ∧ main (Some podID) (Some lines) sys = (made ++ [failed], LogFatal).
Proof.
  intros Hf ascending calls Hc Hfail. rewrite (main_unfold _ _ _ _ Hf).
  fold ascending. cbv zeta.
  destruct (decide (length (firstSeen fields) = 0%nat)) as [Hlen | Hlen].
  { apply nil_length_inv in Hlen. subst calls ascending. rewrite Hlen in Hc.
    by apply elem_of_nil in Hc. }
  destruct (forAll_inv sys remount ascending)
    as [[Hall1 ->] | (made & d & rest & Heq & Hdone & Hd & ->)]; simpl.
  - destruct (forAll_inv sys unmount (reverse ascending))
      as [[Hall2 ->] | (made & d & rest & Heq & Hdone & Hd & ->)]; simpl.
    + apply elem_of_app in Hc as [(x & -> & Hx)%list_elem_of_fmap
                                 | (x & -> & Hx)%list_elem_of_fmap].
      * rewrite Hall1 in Hfail; done.
      * rewrite Hall2 in Hfail; done.
    + exists ((remount <$> ascending) ++ (unmount <$> made)), (unmount d),
        (unmount <$> rest). split_and!.
      * subst calls. rewrite Heq, fmap_app, fmap_cons. by rewrite <- app_assoc.
      * intros x [(y & -> & Hy)%list_elem_of_fmap
                 | (y & -> & Hy)%list_elem_of_fmap]%elem_of_app; auto.
      * done.
      * by rewrite fmap_app, app_assoc.
  - exists (remount <$> made), (remount d),
      ((remount <$> rest) ++ (unmount <$> reverse ascending)). split_and!.
    + subst calls. rewrite Heq, fmap_app, fmap_cons. by rewrite <- app_assoc.
    + intros x (y & -> & Hy)%list_elem_of_fmap. auto.
    + done.
    + by rewrite fmap_app.
Qed.

Lemma reaper_stops_at_first_failure_witness :
  ∃ made failed rest,
    (remount <$> sortStrings (firstSeen ["/a/b"; "/a/b/c"; "/a"; "/a/b"]))
    ++ (unmount <$> reverse (sortStrings (firstSeen ["/a/b"; "/a/b/c"; "/a"; "/a/b"])))
    = made ++ failed :: rest
    ∧ (∀ x, x ∈ made → unmountFails x = true)
    ∧ unmountFails failed = false
    ∧ main (Some podID) (Some nestedMounts) unmountFails
      = (made ++ [failed], LogFatal).
Proof.
  apply (reaper_stops_at_first_failure podID nestedMounts
           ["/a/b"; "/a/b/c"; "/a"; "/a/b"] unmountFails (unmount "/a/b")).
  - by vm_compute.
  - vm_compute. do 4 right. left.
  - reflexivity.
Defined.

(** X24. When a remount fails no unmount is made: every call of the reaper
    is then a recursive private remount, and the reaper ends in
    log.Fatalf. *)
Theorem failed_remount_no_unmount podID lines fields sys dest :
  mountFields podID lines = Some fields →
  dest ∈ fields → sys (remount dest) = false →
  (main (Some podID) (Some lines) sys).2 = LogFatal
  ∧ ∀ c, c ∈ (main (Some podID) (Some lines) sys).1 →
         ∃ d, d ∈ fields ∧ c = remount d.
Proof.
  intros Hf Hin Hfail. rewrite (main_unfold _ _ _ _ Hf).
  assert (dest ∈ sortStrings (firstSeen fields)) as Hdest
      by (by rewrite sortStrings_perm, firstSeen_elem_of).
  destruct (decide (length (firstSeen fields) = 0%nat)) as [Hlen | Hlen].
  { apply nil_length_inv in Hlen. rewrite <- firstSeen_elem_of, Hlen in Hin.
    by apply elem_of_nil in Hin. }
  cbv zeta.
  pose proof (forAll_prefix sys remount (sortStrings (firstSeen fields))) as Hpre.
  destruct (forAll_inv sys remount (sortStrings (firstSeen fields)))
    as [[Hall _] | (made & d & rest & Heq & Hdone & Hd & E)].
  - rewrite Hall in Hfail; done.
  - rewrite E in *. simpl in *. split; [done|].
    intros c Hc. destruct Hpre as [k Hk].
    assert (c ∈ remount <$> sortStrings (firstSeen fields)) as Hc'
        by (rewrite Hk; apply elem_of_app; by left).
    apply list_elem_of_fmap in Hc' as (y & -> & Hy).
    exists y. split; [|done].
    by rewrite sortStrings_perm, firstSeen_elem_of in Hy.
Qed.

Lemma failed_remount_no_unmount_witness :
  (main (Some podID) (Some nestedMounts) remountFails).2 = LogFatal
  ∧ ∀ c, c ∈ (main (Some podID) (Some nestedMounts) remountFails).1 →
         ∃ d, d ∈ ["/a/b"; "/a/b/c"; "/a"; "/a/b"] ∧ c = remount d.
Proof.
  apply (failed_remount_no_unmount podID nestedMounts
           ["/a/b"; "/a/b/c"; "/a"; "/a/b"] remountFails "/a/b").
  - by vm_compute.
  - by left.
  - reflexivity.
Defined.

(** X25. For a table that can be scanned the reaper leaves with code 0
    exactly when every remount and every unmount of its list succeeds, and
    it has then made them all. *)
Theorem reaper_exit_zero_iff podID lines fields sys :
  mountFields podID lines = Some fields →
  let ascending := sortStrings (firstSeen fields) in
  let calls := (remount <$> ascending) ++ (unmount <$> reverse ascending) in
  ((main (Some podID) (Some lines) sys).2 = Exit 0 ↔ ∀ c, c ∈ calls → sys c = true)
  ∧ ((main (Some podID) (Some lines) sys).2 = Exit 0 →
       (main (Some podID) (Some lines) sys).1 = calls).
Proof.
  intros Hf ascending calls.
  destruct (main_calls podID lines fields sys Hf) as [_ Hall].
  fold ascending in Hall. fold calls in Hall.
  assert ((main (Some podID) (Some lines) sys).2 = Exit 0 →
          ∀ c, c ∈ calls → sys c = true) as Hzero.
  { rewrite (main_unfold _ _ _ _ Hf). fold ascending. cbv zeta.
    destruct (decide (length (firstSeen fields) = 0%nat)) as [Hlen | Hlen].
    { apply nil_length_inv in Hlen. subst calls ascending. rewrite Hlen.
      by intros _ c ?%elem_of_nil. }
    destruct (forAll_inv sys remount ascending)
      as [[Hall1 ->] | (made & d & rest & Heq & Hdone & Hd & ->)]; simpl; [|done].
    destruct (forAll_inv sys unmount (reverse ascending))
      as [[Hall2 ->] | (made & d & rest & Heq & Hdone & Hd & ->)]; simpl; [|done].
    intros _ c [(x & -> & Hx)%list_elem_of_fmap
               | (x & -> & Hx)%list_elem_of_fmap]%elem_of_app; auto. }
  split; [split; [done|]|].
  - intros H. by rewrite (Hall H).
  - intros H. by rewrite (Hall (Hzero H)).
Qed.

Lemma reaper_exit_zero_iff_witness :
  (main (Some podID) (Some nestedMounts) (λ _, true)).1
  = (remount <$> sortStrings (firstSeen ["/a/b"; "/a/b/c"; "/a"; "/a/b"]))
    ++ (unmount <$> reverse (sortStrings (firstSeen ["/a/b"; "/a/b/c"; "/a"; "/a/b"]))).
Proof.
  apply (proj2 (reaper_exit_zero_iff podID nestedMounts
                  ["/a/b"; "/a/b/c"; "/a"; "/a/b"] (λ _, true) eq_refl)).
  by vm_compute.
Defined.

End reaper_failures.

(** * Lines written and read back *)

Section line_files.
Import linefile linefile_samples.

Lemma Split_line line rest :
  holds "010" line = false →
  strings.Split "010" (line +:+ String "010" rest)
  = line :: strings.Split "010" rest.
Proof.
  induction line as [|c line IH]; simpl; [done|].
  intros [Hc Hl]%orb_false_elim. apply bool_decide_eq_false in Hc.
  rewrite decide_False by done. by rewrite IH.
Qed.

Lemma Split_printed lines :
  Forall (λ line, holds "010" line = false) lines →
  strings.Split "010" (printed lines) = lines ++ [EmptyString].
Proof.
  induction 1 as [|line lines Hl _ IH]; simpl; [done|].
  by rewrite Split_line, IH.
Qed.

Lemma tokens_lines lines :
  Forall (λ line, Z.of_nat (String.length line) < MaxScanTokenSize) lines →
  tokens (lines ++ [EmptyString]) = (dropCR <$> lines, true).
Proof.
  induction 1 as [|line lines Hl _ IH]; [done|].
  simpl app. simpl tokens.
  destruct (lines ++ [EmptyString]) as [|x rest] eqn:E.
  { by destruct lines. }
  rewrite decide_True by done. by rewrite IH.
Qed.

Lemma dropCR_id s : lastByte s ≠ Some "013"%char → dropCR s = s.
Proof.
  induction s as [|c s IH]; [done|]. simpl.
  destruct s as [|c' s']; [|by intros ->%IH].
  intros H. rewrite decide_False; [done|]. by intros ->.
Qed.

(** X26. Lines written by [writeLines] and read back by [readLines] from
    the same path come back without error, in the same number and order,
    each without one carriage return at its end, when no line holds a
    newline and every line fits the scanner's buffer; they come back
    unchanged when, moreover, no line ends in a carriage return. *)
Theorem lines_read_back lines path d d' :
  writeLines lines path d = Some d' →
  Forall fits lines →
  readLines d' path = (dropCR <$> lines, true)
  ∧ (Forall (λ line, lastByte line ≠ Some "013"%char) lines →
       readLines d' path = (lines, true)).
Proof.
  unfold writeLines, readLines. destruct (writable d path); [|done].
  intros [= <-] Hfits. simpl. rewrite lookup_insert_eq.
  rewrite Split_printed by (eapply Forall_impl; [done | by intros ? []]).
  rewrite tokens_lines by (eapply Forall_impl; [done | by intros ? []]).
  split; [done|]. intros Hcr. f_equal.
  clear Hfits. induction Hcr as [|line lines Hl _ IH]; [done|].
  rewrite fmap_cons. by rewrite dropCR_id, IH.
Qed.

Lemma lines_read_back_witness :
  readLines {| files := <["/tmp/lines" := printed ["one"; ""; "two"]]> ∅;
               writable := λ _, true |} "/tmp/lines"
  = (dropCR <$> ["one"; ""; "two"], true)
  ∧ (Forall (λ line, lastByte line ≠ Some "013"%char) ["one"; ""; "two"] →
       readLines {| files := <["/tmp/lines" := printed ["one"; ""; "two"]]> ∅;
                    writable := λ _, true |} "/tmp/lines"
       = (["one"; ""; "two"], true)).
Proof.
  apply (lines_read_back ["one"; ""; "two"] "/tmp/lines" blank
           {| files := <["/tmp/lines" := printed ["one"; ""; "two"]]> ∅;
              writable := λ _, true |}).
  - reflexivity.
  - repeat constructor.
Defined.

End line_files.

(** * The table of image information *)

Section aciinfo_table.
Import store store_samples.

Lemma filter_Insert (P : ACIInfo → Prop) `{∀ r, Decision (P r)} slot row tx :
  filter P (ExecInsert slot row tx)
  = filter P (take slot tx) ++ (if decide (P row) then [row] else [])
      ++ filter P (drop slot tx).
Proof.
  unfold ExecInsert. rewrite filter_app, filter_cons. by destruct (decide (P row)).
Qed.

Lemma filter_Insert_other (P : ACIInfo → Prop) `{∀ r, Decision (P r)} slot row tx :
  ¬ P row → filter P (ExecInsert slot row tx) = filter P tx.
Proof.
  intros Hn. rewrite filter_Insert, decide_False by done.
  rewrite app_nil_l. by rewrite <- filter_app, take_drop.
Qed.

Lemma filter_Delete_same blobKey tx :
  filter (λ r, bool_decide (BlobKey r = blobKey) = true) (ExecDelete blobKey tx) = [].
Proof.
  unfold ExecDelete. induction tx as [|r tx IH]; [done|].
  rewrite filter_cons. destruct (decide (BlobKey r ≠ blobKey)) as [Hne|Heq]; [|done].
  rewrite filter_cons, decide_False; [done|].
  by rewrite bool_decide_eq_true.
Qed.

Lemma filter_Delete_other blobKey key tx :
  key ≠ blobKey →
  filter (λ r, bool_decide (BlobKey r = key) = true) (ExecDelete blobKey tx)
  = filter (λ r, bool_decide (BlobKey r = key) = true) tx.
Proof.
  intros Hne. unfold ExecDelete. induction tx as [|r tx IH]; [done|].
  rewrite !filter_cons.
  destruct (decide (BlobKey r ≠ blobKey)) as [Hr|Hr].
  - rewrite filter_cons. by rewrite IH.
  - rewrite IH. rewrite decide_False; [done|].
    rewrite bool_decide_eq_true. intros <-. by apply Hr.
Qed.

Lemma rows_of_key_after_write slot tx aciinfo :
  filter (λ r, bool_decide (BlobKey r = BlobKey aciinfo) = true)
    (ExecInsert slot aciinfo (ExecDelete (BlobKey aciinfo) tx))
  = [aciinfo].
Proof.
  rewrite filter_Insert, decide_True by (by rewrite bool_decide_eq_true).
  assert (∀ l, filter (λ r, bool_decide (BlobKey r = BlobKey aciinfo) = true) l = [] →
               ∀ n, filter (λ r, bool_decide (BlobKey r = BlobKey aciinfo) = true)
                      (take n l) = []
                    ∧ filter (λ r, bool_decide (BlobKey r = BlobKey aciinfo) = true)
                        (drop n l) = []) as Hparts.
  { intros l Hl n. rewrite <- (take_drop n l), filter_app in Hl.
    by apply app_eq_nil in Hl. }
  destruct (Hparts _ (filter_Delete_same (BlobKey aciinfo) tx) slot) as [-> ->].
  done.
Qed.

(** X27. After a [WriteACIInfo] that returns no error the table holds
    exactly one row with the blob key of the information written, the one
    written, wherever the database put it and whatever rows of that key
    there were; [GetACIInfoWithBlobKey] for that key returns it, with found
    true. *)
Theorem written_is_read f f' slot tx tx' aciinfo :
  WriteACIInfo f slot tx aciinfo = (tx', true) →
  readable f' aciinfo →
  filter (λ r, BlobKey r = BlobKey aciinfo) tx' = [aciinfo]
  ∧ GetACIInfoWithBlobKey f' tx' (BlobKey aciinfo) = Some (aciinfo, true).
Proof.
  unfold WriteACIInfo. destruct (deleteError f), (insertError f); try done.
  intros [= <-] (Hq & Hs & Hr).
  pose proof (rows_of_key_after_write slot tx aciinfo) as Hrows. split.
  - rewrite <- Hrows. apply list_filter_iff. intros r.
    by rewrite bool_decide_eq_true.
  - unfold GetACIInfoWithBlobKey, Query. rewrite Hq, Hrows.
    destruct (rowsError f') as [[|n]|]; simpl; [done | by rewrite Hs..].
Qed.

Lemma written_is_read_witness :
  filter (λ r, BlobKey r = BlobKey (etcd 20)) [busybox; etcd 20] = [etcd 20]
  ∧ GetACIInfoWithBlobKey sound [busybox; etcd 20] (BlobKey (etcd 20))
    = Some (etcd 20, true).
Proof.
  apply (written_is_read sound sound 5 [etcd 12; busybox; etcd 13]
           [busybox; etcd 20] (etcd 20)).
  - reflexivity.
  - by split_and!.
Defined.

(** X28. [WriteACIInfo] and [RemoveACIInfo] leave the rows of every other
    blob key as they are, in their order: a lookup under another key gives
    the same as before, whether or not the call returned an error. *)
Theorem other_keys_kept f f' slot tx aciinfo key :
  key ≠ BlobKey aciinfo →
  GetACIInfoWithBlobKey f' (WriteACIInfo f slot tx aciinfo).1 key
  = GetACIInfoWithBlobKey f' tx key
  ∧ GetACIInfoWithBlobKey f' (RemoveACIInfo f tx (BlobKey aciinfo)).1 key
    = GetACIInfoWithBlobKey f' tx key.
Proof.
  intros Hne. unfold WriteACIInfo, RemoveACIInfo, GetACIInfoWithBlobKey, Query.
  destruct (deleteError f); simpl; [done|].
  assert (filter (λ r, bool_decide (BlobKey r = key) = true)
            (ExecInsert slot aciinfo (ExecDelete (BlobKey aciinfo) tx))
          = filter (λ r, bool_decide (BlobKey r = key) = true) tx) as Hins.
  { rewrite filter_Insert_other by (by rewrite bool_decide_eq_true; intros <-).
    by apply filter_Delete_other. }
  destruct (insertError f); simpl;
    by rewrite ?Hins, ?filter_Delete_other.
Qed.

Lemma other_keys_kept_witness :
  GetACIInfoWithBlobKey sound
    (WriteACIInfo sound 0 [etcd 12; busybox] (etcd 20)).1 "sha512-bb"
  = GetACIInfoWithBlobKey sound [etcd 12; busybox] "sha512-bb"
  ∧ GetACIInfoWithBlobKey sound
      (RemoveACIInfo sound [etcd 12; busybox] (BlobKey (etcd 20))).1 "sha512-bb"
    = GetACIInfoWithBlobKey sound [etcd 12; busybox] "sha512-bb".
Proof.
  apply (other_keys_kept sound sound 0 [etcd 12; busybox] (etcd 20) "sha512-bb").
  discriminate.
Defined.

(** X29. [WriteACIInfo] is not one step: when the DELETE succeeds and the
    INSERT fails it returns an error and the row that was there is gone
    from the transaction; a lookup of the key then finds nothing, as after
    [RemoveACIInfo], and returns an empty information, not nil, with found
    false. *)
Theorem failed_insert_loses_row f f' slot tx aciinfo :
  deleteError f = false →
  queryError f' = false → rowsError f' = None →
  (insertError f = true →
     (WriteACIInfo f slot tx aciinfo).2 = false
     ∧ GetACIInfoWithBlobKey f' (WriteACIInfo f slot tx aciinfo).1 (BlobKey aciinfo)
       = Some (zeroACIInfo, false))
  ∧ (RemoveACIInfo f tx (BlobKey aciinfo)).2 = true
  ∧ GetACIInfoWithBlobKey f' (RemoveACIInfo f tx (BlobKey aciinfo)).1 (BlobKey aciinfo)
    = Some (zeroACIInfo, false).
Proof.
  intros Hd Hq Hr. unfold WriteACIInfo, RemoveACIInfo, GetACIInfoWithBlobKey, Query.
  rewrite Hd, Hq, Hr. simpl. rewrite filter_Delete_same.
  split; [|done]. intros ->. simpl. by rewrite filter_Delete_same.
Qed.

Lemma failed_insert_loses_row_witness :
  (WriteACIInfo insertRefused 0 [etcd 12; busybox] (etcd 20)).2 = false
  ∧ GetACIInfoWithBlobKey sound
      (WriteACIInfo insertRefused 0 [etcd 12; busybox] (etcd 20)).1
      (BlobKey (etcd 20))
    = Some (zeroACIInfo, false).
Proof.
  apply (proj1 (failed_insert_loses_row insertRefused sound 0 [etcd 12; busybox]
                  (etcd 20) eq_refl eq_refl eq_refl)).
  reflexivity.
Defined.

Lemma scanRows_Some f rows acc found l found' :
  scanRows f rows acc found = Some (l, found') →
  l = acc ++ rows ∧ found' = (found || negb (bool_decide (rows = [])))
  ∧ Forall (λ r, scanError f r = false) rows.
Proof.
  revert acc found. induction rows as [|r rows IH]; intros acc found; simpl.
  - intros [= <- <-]. by rewrite app_nil_r, orb_false_r.
  - destruct (scanError f r) eqn:Hr; [done|].
    intros (-> & -> & Hall)%IH. split_and!.
    + by rewrite <- app_assoc.
    + by rewrite orb_true_r.
    + by constructor.
Qed.

(** X30. When [GetACIInfosWithName] returns without error, found is true
    exactly when the list returned is not empty, and the list is made of the
    rows of the table that bear the name, all of them, in the order of the
    table. *)
Theorem named_rows_found f tx name l found :
  GetACIInfosWithName f tx name = Some (l, found) →
  l = filter (λ r, Name r = name) tx
  ∧ (found = true ↔ l ≠ []).
Proof.
  unfold GetACIInfosWithName, collect, Query.
  destruct (queryError f); [done|].
  assert (filter (λ r, bool_decide (Name r = name) = true) tx
          = filter (λ r, Name r = name) tx) as ->.
  { apply list_filter_iff. intros r. by rewrite bool_decide_eq_true. }
  destruct (rowsError f) as [n|].
  - by destruct (scanRows f _ [] false).
  - destruct (scanRows f _ [] false) as [[l' found']|] eqn:E; [|done].
    intros [= <- <-]. apply scanRows_Some in E as (-> & -> & _). simpl.
    split; [done|]. rewrite negb_true_iff, bool_decide_eq_false. done.
Qed.

Lemma named_rows_found_witness :
  [busybox] = filter (λ r, Name r = "busybox") [etcd 12; busybox]
  ∧ (true = true ↔ [busybox] ≠ []).
Proof.
  apply (named_rows_found sound [etcd 12; busybox] "busybox" [busybox] true).
  reflexivity.
Defined.

End aciinfo_table.
